(** * valu-api: the request/response correlation layer of [ValuApi]

    A shallow embedding of the JavaScript sources of the package
    ([EventEmitter.js], [Intent.js], [ValuApplication.js], [APIPointer.js]
    and [ValuApi.js], of which the latest revision is the one with
    [setApplication], [sendIntent] and [callService]) and the properties of
    the correlation layer proved about it.

    Modelling conventions.
    - JavaScript values are the inductive [value]; objects are association
      lists of own properties.
    - [#requests] and [#apiCalls] are [Map] objects that the code reads
      and writes with brackets: their entries are own properties, held in
      a finite map over property keys (strings), and a read that finds no
      own property finds what the object inherits (the field [inherited]
      of the state). The identifiers that [nextId()] draws are taken to
      be no names of accessor properties ([size], [__proto__]), under
      which an assignment would store nothing.
    - [#events] is the finite map of the listener arrays stored in it.
      What is stated about an event without an array of its own is stated
      for names that are no built-in property names ([plain_event]); a
      registration under a built-in name is outside the model.
    - A function of the embedding application (an event listener, a
      lifecycle method of the shell) is an opaque function with an identity;
      it returns or throws, and each call is recorded in the trace.  Such a
      function does not call back into the client while it runs, and a
      rejected promise that a lifecycle method returns and nobody handles
      is not reported in the trace.
    - Statements that can throw live in the monad [M]: state that survives
      an exception, and a completion that is normal or abrupt. *)

From Stdlib Require Import ZArith.
From stdpp Require Import gmap strings list fin_maps pretty.

Open Scope string_scope.
Open Scope list_scope.

(* ===================================================================== *)
(** ** JavaScript values                                                  *)
(* ===================================================================== *)

(** The function objects the library itself creates and passes around: the
    arrow function built in [ValuApi.getApi]. *)
Inductive func := ApiRunRequestArrow.

#[warnings="-register-all"]
Inductive value :=
| VUndefined
| VNull
| VBool (b : bool)
| VNum (n : Z)
| VStr (s : string)
| VObj (fields : list (string * value))
| VFunc (f : func).

(** What a [throw] carries. *)
Inductive thrown :=
| TypeError (what : string)
| JsError (message : value)        (* new Error(message) *)
| Raised (v : value)               (* any other thrown or rejected value *)
| HostError (name : string).       (* an exception of the browser, by name *)

Inductive completion (A : Type) :=
| Normal (a : A)
| Abrupt (e : thrown).
Arguments Normal {A} a.
Arguments Abrupt {A} e.

(** ToBoolean. *)
Definition truthy (v : value) : bool :=
  match v with
  | VUndefined | VNull => false
  | VBool b => b
  | VNum n => negb (n =? 0)%Z
  | VStr s => negb (String.eqb s "")
  | VObj _ | VFunc _ => true
  end.

Definition is_undefined (v : value) : bool :=
  match v with VUndefined => true | _ => false end.

Definition nullish (v : value) : bool :=
  match v with VUndefined | VNull => true | _ => false end.

(** [v === s] for a string literal [s]. *)
Definition is_string (s : string) (v : value) : bool :=
  match v with VStr s' => String.eqb s' s | _ => false end.

(** Own property of an object literal; the first binding wins. *)
Fixpoint own (fields : list (string * value)) (k : string) : value :=
  match fields with
  | [] => VUndefined
  | (k', v) :: rest => if String.eqb k' k then v else own rest k
  end.

(** [v.k]: a TypeError on [undefined] and [null]; primitives and functions
    have none of the properties this program reads. *)
Definition get (v : value) (k : string) : completion value :=
  match v with
  | VUndefined | VNull =>
      Abrupt (TypeError ("Cannot read properties of undefined or null: " +:+ k))
  | VObj fields => Normal (own fields k)
  | _ => Normal VUndefined
  end.

(** [v?.k] *)
Definition get_opt (v : value) (k : string) : value :=
  match v with
  | VObj fields => own fields k
  | _ => VUndefined
  end.

(** ToPropertyKey, for [table[id]], and ToString in a template. It is
    what the engine gives on the identifiers of [key_exact] below: numbers
    are integers, printed in full, which the engine does up to 2^53; an
    object is taken to have no [toString] of its own; a function prints as
    its source text, abbreviated here. *)
Definition to_key (v : value) : string :=
  match v with
  | VUndefined => "undefined"
  | VNull => "null"
  | VBool true => "true"
  | VBool false => "false"
  | VNum n => pretty n
  | VStr s => s
  | VObj _ => "[object Object]"
  | VFunc _ => "(functionName, params, requestId, apiPointer) => {...}"
  end.

(** A function object of the embedding application. *)
Record function := JsFunction {
  fn_id : nat;
  fn_apply : list value → completion value
}.

(* ===================================================================== *)
(** ** Intent.js                                                          *)
(* ===================================================================== *)

Definition ACTION_VIEW : string := "view".
Definition ACTION_OPEN : string := "open".

Record Intent := {
  applicationId : value;
  action : value;
  params : value
}.

(** [constructor(applicationId, action = Intent.ACTION_OPEN, params = {})]:
    a default applies when the argument is [undefined]. *)
Definition new_Intent (applicationId action params : value) : Intent :=
  {| applicationId := applicationId;
     action := if is_undefined action then VStr ACTION_OPEN else action;
     params := if is_undefined params then VObj [] else params |}.

(** What [Intent.isValid] can be handed: an instance of [Intent], or
    anything else. *)
Inductive candidate :=
| AnIntent (i : Intent)
| NotAnIntent (v : value).

(** [typeof v === 'string'] *)
Definition is_a_string (v : value) : bool :=
  match v with VStr _ => true | _ => false end.

(** [static isValid(obj)] *)
Definition isValid (obj : candidate) : bool :=
  match obj with
  | AnIntent i => is_a_string (applicationId i) && is_a_string (action i)
  | NotAnIntent _ => false
  end.

(** What the program does that an observer sees, in order. *)
Inductive effect :=
| ConsoleLog (text : string) (arg : value)
| ConsoleError (text : string)
| ConsoleErrorOf (e : thrown)             (* [console.error] as a rejection handler *)
| ListenerCalled (f : nat) (args : list value)
| OnCreateCalled (app : nat) (intent : Intent)
| OnNewIntentCalled (app : nat) (intent : Intent)
| OnUpdateRouterContextCalled (app : nat) (data : value)
| UnhandledRejection (e : thrown)
| Uncaught (e : thrown).

(* ===================================================================== *)
(** ** EventEmitter.js                                                    *)
(* ===================================================================== *)

Module EventEmitter.

(** [{callback, once}] *)
Record listener := Listener {
  callback : option function;   (* [None]: a falsy callback *)
  once : bool
}.

(** [#events]: event name to array of listeners. A slot of an array is a
    listener or [undefined] ([None]). *)
Abbreviation events := (gmap string (list (option listener))).

Definition new : events := ∅.

Definition addEventListener (eventName : string) (cb : option function)
    (once : bool) (ev : events) : events :=
  let listeners := default [] (ev !! eventName) in
  <[eventName := listeners ++ [Some (Listener cb once)]]> ev.

Definition same_callback (cb : function) (l : listener) : bool :=
  match callback l with
  | Some f => Nat.eqb (fn_id f) (fn_id cb)
  | None => false
  end.

(** The reverse scan [for (i = length - 1; i >= 0; i--)] with
    [splice(i, 1)] on a match; reading [.callback] of an [undefined] slot
    throws, with the matches above it already removed. *)
Fixpoint remove_matching (cb : function) (listeners : list (option listener))
  : bool * list (option listener) :=
  match listeners with
  | [] => (true, [])
  | slot :: above =>
      let '(ok, above') := remove_matching cb above in
      if ok then
        match slot with
        | None => (false, slot :: above')
        | Some l =>
            if same_callback cb l then (true, above') else (true, slot :: above')
        end
      else (false, slot :: above')
  end.

Definition removeEventListener (eventName : option string)
    (cb : option function) (ev : events) : completion unit * events :=
  match eventName with
  | None | Some "" => (Normal (), ∅)
  | Some name =>
      match cb with
      | None => (Normal (), <[name := []]> ev)
      | Some f =>
          match ev !! name with
          | None => (Normal (), ev)
          | Some listeners =>
              let '(ok, listeners') := remove_matching f listeners in
              (if ok then Normal ()
               else Abrupt (TypeError "Cannot read properties of undefined: callback"),
               <[name := listeners']> ev)
          end
      end
  end.

(** How one dispatch loop ends. *)
Inductive pass_end :=
| Completed
| CorruptSlot                  (* [listener === undefined]: logged, [return;] *)
| Threw (e : thrown).

Record pass := Pass {
  pass_end_of : pass_end;
  listeners_of : list (option listener);   (* the array, after the loop *)
  onceListeners : list nat;
  returnValue : value;
  calls : list effect
}.

(** The loop [for (let i = 0, length = listeners.length; i < length; i++)],
    from index [i] on, over the slots [rest]. *)
Fixpoint emit_loop (parameters : list value) (i : nat)
    (rest : list (option listener)) (lastValue returnValue : value)
    (onceListeners : list nat) : pass :=
  match rest with
  | [] => Pass Completed [] onceListeners returnValue []
  | None :: _ =>
      Pass CorruptSlot rest onceListeners returnValue
           [ConsoleError "Error: incorrect event behaviour!"]
  | Some l :: rest' =>
      match callback l with
      | Some f =>
          match fn_apply f parameters with
          | Abrupt e =>
              Pass (Threw e) rest onceListeners returnValue
                   [ListenerCalled (fn_id f) parameters]
          | Normal lastValue' =>
              let p := emit_loop parameters (S i) rest' lastValue'
                         (if is_undefined lastValue' then returnValue else lastValue')
                         (if once l then onceListeners ++ [i] else onceListeners) in
              Pass (pass_end_of p) (Some l :: listeners_of p)
                   (EventEmitter.onceListeners p) (EventEmitter.returnValue p)
                   (ListenerCalled (fn_id f) parameters :: calls p)
          end
      | None =>
          (* listener.once = true *)
          let p := emit_loop parameters (S i) rest' lastValue
                     (if is_undefined lastValue then returnValue else lastValue)
                     (onceListeners ++ [i]) in
          Pass (pass_end_of p) (Some (Listener None true) :: listeners_of p)
               (EventEmitter.onceListeners p) (EventEmitter.returnValue p)
               (calls p)
      end
  end.

(** [for (i = onceListeners.length - 1; i >= 0; i--)
      listeners.splice(onceListeners[i], 1)] *)
Definition splice_once (listeners : list (option listener))
    (onceListeners : list nat) : list (option listener) :=
  foldr (λ i ls, delete i ls) listeners onceListeners.

Record emitted := Emitted {
  end_of : pass_end;
  result : value;
  events_of : events;
  trace_of : list effect
}.

(** The body of [emit] between the two meta-events. The array is mutated
    in place, so the table sees the change; an absent name gives a fresh
    empty array that is not stored. *)
Definition emit_own (eventName : string) (parameters : list value)
    (ev : events) : emitted :=
  match ev !! eventName with
  | None => Emitted Completed VUndefined ev []
  | Some listeners =>
      let p := emit_loop parameters 0 listeners VUndefined VUndefined [] in
      match pass_end_of p with
      | Completed =>
          Emitted Completed (returnValue p)
            (<[eventName := splice_once (listeners_of p) (onceListeners p)]> ev)
            (calls p)
      | e => Emitted e VUndefined (<[eventName := listeners_of p]> ev) (calls p)
      end
  end.

Definition specialEvent (eventName : string) : bool :=
  String.eqb eventName "__before__" || String.eqb eventName "__after__".

(** [emit(eventName, ...parameters)]. The listeners of [eventName] are
    read before the [__before__] pass, which touches the array of
    [__before__] only, so reading them after it gives the same array. *)
Definition emit (eventName : string) (parameters : list value)
    (ev : events) : emitted :=
  if specialEvent eventName then emit_own eventName parameters ev
  else
    let b := emit_own "__before__" (VStr eventName :: parameters) ev in
    match end_of b with
    | Threw e => Emitted (Threw e) VUndefined (events_of b) (trace_of b)
    | _ =>
        let m := emit_own eventName parameters (events_of b) in
        match end_of m with
        | Completed =>
            let a := emit_own "__after__" (VStr eventName :: parameters)
                       (events_of m) in
            match end_of a with
            | Threw e =>
                Emitted (Threw e) VUndefined (events_of a)
                        (trace_of b ++ trace_of m ++ trace_of a)
            | _ =>
                Emitted Completed (result m) (events_of a)
                        (trace_of b ++ trace_of m ++ trace_of a)
            end
        | e => Emitted e VUndefined (events_of m) (trace_of b ++ trace_of m)
        end
    end.

(** How often the function [f] was called in a trace. *)
Fixpoint times_called (f : nat) (tr : list effect) : nat :=
  match tr with
  | [] => 0
  | ListenerCalled g _ :: tr' =>
      (if Nat.eqb g f then 1 else 0) + times_called f tr'
  | _ :: tr' => times_called f tr'
  end.

(** The slot holds a listener whose callback is the function [f]. *)
Definition slot_has (f : nat) (slot : option listener) : bool :=
  match slot with
  | Some (Listener (Some g) _) => Nat.eqb (fn_id g) f
  | _ => false
  end.

(** The function [f] is the callback of some listener of the bus. *)
Definition registered (f : nat) (ev : events) : Prop :=
  ∃ name listeners, ev !! name = Some listeners ∧ existsb (slot_has f) listeners = true.

(** *** Notions used to state the properties of the emitter *)

(** The slot after a completed pass: a listener without a callback has
    been marked [once]. *)
Definition marked (slot : option listener) : option listener :=
  match slot with
  | Some (Listener None _) => Some (Listener None true)
  | _ => slot
  end.

(** The slot holds a listener marked [once]. *)
Definition once_slot (slot : option listener) : bool :=
  match slot with Some l => once l | None => false end.

(** The indices, counted from [i], of the slots marked [once]. *)
Fixpoint once_positions (i : nat) (slots : list (option listener)) : list nat :=
  match slots with
  | [] => []
  | s :: slots' =>
      if once_slot s then i :: once_positions (S i) slots'
      else once_positions (S i) slots'
  end.

(** The slots that stay after the once-listeners are spliced out. *)
Definition kept (slots : list (option listener)) : list (option listener) :=
  filter (λ s, once_slot s = false) slots.

(** No slot of the array, and no slot of the array of [name], holds [f]. *)
Definition quiet (f : nat) (slots : list (option listener)) : Prop :=
  existsb (slot_has f) slots = false.

Definition quiet_at (f : nat) (ev : events) (name : string) : Prop :=
  ∀ slots, ev !! name = Some slots → quiet f slots.


(** [#events] starts as an array (and is a plain object after a
    [removeEventListener()] without arguments), read and written with
    brackets. Under the names below an array or an object has a property
    of its own or inherits one ([length]; the methods of
    [Array.prototype] and [Object.prototype], as ECMAScript 2025 with
    its Annex B specifies them), so that [this.#events[name]] finds that
    property where no listener array was stored: a registration under
    such a name throws. *)
Definition Array_prototype : list string :=
  ["length"; "at"; "concat"; "constructor"; "copyWithin"; "entries"; "every";
   "fill"; "filter"; "find"; "findIndex"; "findLast"; "findLastIndex"; "flat";
   "flatMap"; "forEach"; "includes"; "indexOf"; "join"; "keys"; "lastIndexOf";
   "map"; "pop"; "push"; "reduce"; "reduceRight"; "reverse"; "shift"; "slice";
   "some"; "sort"; "splice"; "toLocaleString"; "toReversed"; "toSorted";
   "toSpliced"; "toString"; "unshift"; "values"; "with";
   "hasOwnProperty"; "isPrototypeOf"; "propertyIsEnumerable"; "valueOf";
   "__proto__"; "__defineGetter__"; "__defineSetter__"; "__lookupGetter__";
   "__lookupSetter__"].

Definition builtin_name (name : string) : bool :=
  bool_decide (name ∈ Array_prototype).

(** The bus finds under [name] what the code means it to find: the
    listener array stored there, or nothing at all. *)
Definition plain_event (ev : events) (name : string) : Prop :=
  is_Some (ev !! name) ∨ builtin_name name = false.


(** The pass of [emit] over the listeners of [eventName] itself, between
    the passes of the two meta-events. *)
Definition subscriber_pass (eventName : string) (parameters : list value)
    (ev : events) : emitted :=
  emit_own eventName parameters
    (events_of (emit_own "__before__" (VStr eventName :: parameters) ev)).

(** *** Notions used to state further properties of the emitter *)

(** The slot holds a listener with a callback, registered with
    [once = false]: the kind that stays after a publish. *)
Definition persistent (slot : option listener) : bool :=
  match slot with
  | Some (Listener (Some _) false) => true
  | _ => false
  end.

(** The calls of a pass over [slots] in which every callback returns: one
    for each listener with a callback, in the order of the array. *)
Definition calls_in_order (parameters : list value)
    (slots : list (option listener)) : list effect :=
  omap (λ slot, match slot with
                | Some (Listener (Some f) _) =>
                    Some (ListenerCalled (fn_id f) parameters)
                | _ => None
                end) slots.

(** What the callbacks of [slots] return for [parameters], in order. *)
Definition returns (parameters : list value)
    (slots : list (option listener)) : list value :=
  omap (λ slot, match slot with
                | Some (Listener (Some f) _) =>
                    match fn_apply f parameters with
                    | Normal v => Some v
                    | Abrupt _ => None
                    end
                | _ => None
                end) slots.

(** The last value that is not [undefined], or [undefined]. *)
Definition last_defined (vs : list value) : value :=
  default VUndefined (last (filter (λ v, is_undefined v = false) vs)).

(** The slot is a listener whose callback, if any, returns for
    [parameters]; and every slot of the array is. *)
Definition slot_returns (parameters : list value) (slot : option listener) : bool :=
  match slot with
  | None => false
  | Some (Listener None _) => true
  | Some (Listener (Some f) _) =>
      match fn_apply f parameters with Normal _ => true | Abrupt _ => false end
  end.

Definition smooth (parameters : list value) (slots : list (option listener)) : bool :=
  forallb (slot_returns parameters) slots.

End EventEmitter.

(* ===================================================================== *)
(** ** ValuApplication.js                                                 *)
(* ===================================================================== *)

(** What a lifecycle method hands back: a plain value, or a promise with
    the way it settles. *)
Inductive returned :=
| Plain (v : value)
| APromise (outcome : completion value).

(** An instance of a class extending [ValuApplication]. The base class
    declares [onCreate], [onNewIntent] and [onDestroy] (which the client
    never calls); [onUpdateRouterContext] exists only if the subclass
    defines it. *)
Record ValuApplication := {
  app_id : nat;
  onCreate : Intent → completion returned;
  onNewIntent : Intent → completion returned;
  onUpdateRouterContext : option (value → completion returned)
}.

(* ===================================================================== *)
(** ** The state of the program                                           *)
(* ===================================================================== *)

(** [{ id: nextId(), promise, resolve, reject }]; [resolve] and [reject]
    are those of [promise], a reference into the promise store. *)
Record Deferred := {
  id : value;
  promise : nat
}.

(** What a promise is fulfilled with: a value, or an [APIPointer]
    (a reference into the object store). *)
Inductive resolved :=
| Value (v : value)
| Pointer (p : nat).

Inductive promise_state :=
| Pending
| Fulfilled (r : resolved)
| Rejected (e : thrown).

(** APIPointer.js: the private fields. *)
Record APIPointer := {
  apiName : value;
  version : value;
  guid : value;
  eventEmitter : EventEmitter.events;
  runRequest : value;
  apiCalls : gmap string Deferred
}.

(** An entry of [ValuApi.#requests]: a deferred or an [APIPointer]. *)
Inductive pending :=
| PDeferred (d : Deferred)
| PPointer (p : nat).

(** [#valuApplication] after a readiness message; the initial [{}] is
    [None]. [source] is a window, or [null]. *)
Record endpoint := {
  ep_id : value;
  source : option nat;
  origin : string
}.

(** A [message] event of the global object. *)
Record MessageEvent := {
  data : value;
  ev_source : option nat;
  ev_origin : string
}.

(** A suspended continuation: code after an [await], or a rejection handler,
    run when the job queue is drained. *)
Inductive job :=
| AwaitRegister (p : nat) (apiName guid : value) (outer : nat)
| CatchLog (e : thrown).

(** The private fields of the one [ValuApi] instance. *)
Record ValuApi := {
  api_events : EventEmitter.events;          (* #eventEmitter *)
  valuApplication : option endpoint;         (* #valuApplication *)
  requests : gmap string pending;            (* #requests *)
  lastIntent : option Intent;                (* #lastIntent *)
  applicationInstance : option ValuApplication  (* #applicationInstance *)
}.

(** [#requests] and [#apiCalls] are [Map] objects that the program reads
    and writes with brackets, [table[id]]: entries are own properties of
    the object, and a read with a key that is no own property finds what
    the object inherits from [Map.prototype] and [Object.prototype]
    ([constructor], [get], [has], [toString], ...). The field [inherited]
    of the state is that part of the realm: whether, under the name, the
    prototypes hold a property with a truthy value (a method, or the
    prototype itself for [__proto__]; [size] reads as 0 here and is not
    one). The program never changes it. *)
Record World := {
  api : ValuApi;
  promises : list promise_state;             (* the promise store *)
  pointers : list APIPointer;                (* the APIPointer objects *)
  jobs : list job;
  ids : nat;                                 (* calls of nextId() so far *)
  guids : nat;                               (* calls of guid4() so far *)
  outbox : list (nat * value * string);      (* postMessage(data, origin) on window *)
  trace : list effect;
  inherited : string → bool                  (* new Map()[name] is truthy *)
}.

Definition with_events f (a : ValuApi) : ValuApi :=
  {| api_events := f (api_events a); valuApplication := valuApplication a;
     requests := requests a; lastIntent := lastIntent a;
     applicationInstance := applicationInstance a |}.
Definition with_valuApplication v (a : ValuApi) : ValuApi :=
  {| api_events := api_events a; valuApplication := v;
     requests := requests a; lastIntent := lastIntent a;
     applicationInstance := applicationInstance a |}.
Definition with_requests f (a : ValuApi) : ValuApi :=
  {| api_events := api_events a; valuApplication := valuApplication a;
     requests := f (requests a); lastIntent := lastIntent a;
     applicationInstance := applicationInstance a |}.
Definition with_lastIntent v (a : ValuApi) : ValuApi :=
  {| api_events := api_events a; valuApplication := valuApplication a;
     requests := requests a; lastIntent := v;
     applicationInstance := applicationInstance a |}.
Definition with_applicationInstance v (a : ValuApi) : ValuApi :=
  {| api_events := api_events a; valuApplication := valuApplication a;
     requests := requests a; lastIntent := lastIntent a;
     applicationInstance := v |}.

Definition with_api f (w : World) : World :=
  {| api := f (api w); promises := promises w; pointers := pointers w;
     jobs := jobs w; ids := ids w; guids := guids w; outbox := outbox w;
     trace := trace w; inherited := inherited w |}.
Definition with_promises f (w : World) : World :=
  {| api := api w; promises := f (promises w); pointers := pointers w;
     jobs := jobs w; ids := ids w; guids := guids w; outbox := outbox w;
     trace := trace w; inherited := inherited w |}.
Definition with_pointers f (w : World) : World :=
  {| api := api w; promises := promises w; pointers := f (pointers w);
     jobs := jobs w; ids := ids w; guids := guids w; outbox := outbox w;
     trace := trace w; inherited := inherited w |}.
Definition with_jobs f (w : World) : World :=
  {| api := api w; promises := promises w; pointers := pointers w;
     jobs := f (jobs w); ids := ids w; guids := guids w; outbox := outbox w;
     trace := trace w; inherited := inherited w |}.
Definition with_ids f (w : World) : World :=
  {| api := api w; promises := promises w; pointers := pointers w;
     jobs := jobs w; ids := f (ids w); guids := guids w; outbox := outbox w;
     trace := trace w; inherited := inherited w |}.
Definition with_guids f (w : World) : World :=
  {| api := api w; promises := promises w; pointers := pointers w;
     jobs := jobs w; ids := ids w; guids := f (guids w); outbox := outbox w;
     trace := trace w; inherited := inherited w |}.
Definition with_outbox f (w : World) : World :=
  {| api := api w; promises := promises w; pointers := pointers w;
     jobs := jobs w; ids := ids w; guids := guids w; outbox := f (outbox w);
     trace := trace w; inherited := inherited w |}.
Definition with_trace f (w : World) : World :=
  {| api := api w; promises := promises w; pointers := pointers w;
     jobs := jobs w; ids := ids w; guids := guids w; outbox := outbox w;
     trace := f (trace w); inherited := inherited w |}.

(** [new ValuApi()] in a fresh page. *)
Definition new_ValuApi : ValuApi :=
  {| api_events := EventEmitter.new; valuApplication := None; requests := ∅;
     lastIntent := None; applicationInstance := None |}.

(** The string-keyed properties with a truthy value that a [Map] inherits
    in a fresh realm: those of [Map.prototype] and of [Object.prototype],
    as ECMAScript 2025 (with its Annex B) specifies them. A realm that
    has more of them is another value of the field [inherited]. *)
Definition Map_prototype : list string :=
  ["clear"; "constructor"; "delete"; "entries"; "forEach"; "get"; "has";
   "keys"; "set"; "values";
   "hasOwnProperty"; "isPrototypeOf"; "propertyIsEnumerable"; "toLocaleString";
   "toString"; "valueOf"; "__proto__"; "__defineGetter__"; "__defineSetter__";
   "__lookupGetter__"; "__lookupSetter__"].

Definition start : World :=
  {| api := new_ValuApi; promises := []; pointers := []; jobs := [];
     ids := 0; guids := 0; outbox := []; trace := [];
     inherited := λ name, bool_decide (name ∈ Map_prototype) |}.

(** [get connected()] *)
Definition connected (w : World) : bool :=
  match valuApplication (api w) with Some _ => true | None => false end.

(* ===================================================================== *)
(** ** Statements: state and exceptions                                   *)
(* ===================================================================== *)

Definition M (A : Type) : Type := World → completion A * World.

#[global] Instance M_ret : MRet M := λ A a w, (Normal a, w).
#[global] Instance M_bind : MBind M := λ A B k m w,
  match m w with
  | (Normal a, w') => k a w'
  | (Abrupt e, w') => (Abrupt e, w')
  end.

Definition throw {A} (e : thrown) : M A := λ w, (Abrupt e, w).
Definition read {A} (f : World → A) : M A := λ w, (Normal (f w), w).
Definition modify (f : World → World) : M unit := λ w, (Normal (), f w).
Definition lift {A} (c : completion A) : M A :=
  match c with Normal a => mret a | Abrupt e => throw e end.
Definition log (e : effect) : M unit := modify (with_trace (λ tr, tr ++ [e])).

(** [try { m } catch (e) { h e }] *)
Definition try_catch {A} (m : M A) (h : thrown → M A) : M A :=
  λ w, match m w with
       | (Normal a, w') => (Normal a, w')
       | (Abrupt e, w') => h e w'
       end.


(** The promise store. *)
Definition new_promise (st : promise_state) : M nat :=
  p ← read (λ w, length (promises w));
  modify (with_promises (λ ps, ps ++ [st]));;
  mret p.

(** The resolving functions of a promise act once: on a settled promise
    they do nothing. *)
Definition settle (p : nat) (st : promise_state) : M unit :=
  modify (with_promises (λ ps,
    match ps !! p with
    | Some Pending => <[p := st]> ps
    | _ => ps
    end)).

Definition resolve (p : nat) (r : resolved) : M unit := settle p (Fulfilled r).
Definition reject (p : nat) (e : thrown) : M unit := settle p (Rejected e).

(** Calling an [async] function: what its body returns is the promise the
    caller gets (the promise of the call follows it); what its body throws
    rejects the promise of the call. *)
Definition async (body : M nat) : M nat :=
  try_catch body (λ e, new_promise (Rejected e)).

(** An [async] function whose promise nobody keeps. *)
Definition async_dropped (body : M unit) : M unit :=
  try_catch body (λ e, log (UnhandledRejection e)).

(* ===================================================================== *)
(** ** APIPointer.js and ValuApi.js                                       *)
(* ===================================================================== *)

(** What the program takes from outside its sources. Utils.js is not part
    of the sources at hand: [nextId_at n] and [guid4_at n] are what the call
    number [n] of [nextId()] and of [guid4()] returns.
    [postMessage_error data origin] is [window.postMessage(data, origin)] of
    the browser: [None] when the message is queued, the exception when the
    call throws (a value that cannot be cloned, a malformed target origin). *)
Record platform := {
  nextId_at : nat → value;
  guid4_at : nat → value;
  postMessage_error : value → string → option thrown
}.

Section Client.

Variable env : platform.

Definition nextId : M value :=
  n ← read ids; modify (with_ids S);; mret (nextId_at env n).

Definition guid4 : M value :=
  n ← read guids; modify (with_guids S);; mret (guid4_at env n).

(** [#createDeferred()], of [ValuApi] and of [APIPointer] alike. *)
Definition createDeferred : M Deferred :=
  promise ← new_promise Pending;
  id ← nextId;
  mret {| id := id; promise := promise |}.

(** *** ValuApi: posting *)

Definition API_READY : string := "api:ready".
Definition ON_ROUTE : string := "on_route".

Definition envelope (name : string) (message : value) : value :=
  VObj [("name", VStr name); ("message", message)].

(** [#postToValuApp(name, message)] *)
Definition postToValuApp (name : string) (message : value) : M unit :=
  let data := envelope name message in
  app ← read (λ w, valuApplication (api w));
  match app with
  | None => throw (TypeError "Cannot read properties of undefined: postMessage")
  | Some ep =>
      match source ep with
      | None => throw (TypeError "Cannot read properties of null: postMessage")
      | Some window =>
          match postMessage_error env data (origin ep) with
          | Some e => throw e
          | None => modify (with_outbox (λ o, o ++ [(window, data, origin ep)]))
          end
      end
  end.

(** Whether that call throws, and what, for the endpoint [app] and the
    envelope [data]. *)
Definition post_throws (app : option endpoint) (data : value) : option thrown :=
  match app with
  | None => Some (TypeError "Cannot read properties of undefined: postMessage")
  | Some ep =>
      match source ep with
      | None => Some (TypeError "Cannot read properties of null: postMessage")
      | Some _ => postMessage_error env data (origin ep)
      end
  end.

Definition set_request (requestId : value) (entry : pending) : M unit :=
  modify (with_api (with_requests (λ r, <[to_key requestId := entry]> r))).

Definition delete_request (requestId : value) : M unit :=
  modify (with_api (with_requests (λ r, delete (to_key requestId) r))).

(** [async #onApiRunRequest(functionName, params, requestId, apiPointer)] *)
Definition onApiRunRequest (functionName params requestId : value)
    (apiPointer : nat) : M unit :=
  async_dropped (
    set_request requestId (PPointer apiPointer);;
    obj ← read (λ w, pointers w !! apiPointer);
    postToValuApp "api:run" (VObj [
      ("apiPointerId", from_option guid VUndefined obj);
      ("requestId", requestId);
      ("functionName", functionName);
      ("params", params)])).

(** *** APIPointer *)

(** [constructor(apiName, version, runRequest)], called with the
    arguments [args]: a parameter without an argument is [undefined], an
    argument without a parameter is dropped. *)
Definition new_APIPointer (args : list value) : M nat :=
  let apiName := nth 0 args VUndefined in
  let version := nth 1 args VUndefined in
  let runRequest := nth 2 args VUndefined in
  guid ← guid4;
  p ← read (λ w, length (pointers w));
  modify (with_pointers (λ ps, ps ++ [
    {| apiName := apiName; version := version; guid := guid;
       eventEmitter := EventEmitter.new; runRequest := runRequest;
       apiCalls := ∅ |}]));;
  mret p.

Definition with_apiCalls f (o : APIPointer) : APIPointer :=
  {| apiName := apiName o; version := version o; guid := guid o;
     eventEmitter := eventEmitter o; runRequest := runRequest o;
     apiCalls := f (apiCalls o) |}.

Definition with_eventEmitter f (o : APIPointer) : APIPointer :=
  {| apiName := apiName o; version := version o; guid := guid o;
     eventEmitter := f (eventEmitter o); runRequest := runRequest o;
     apiCalls := apiCalls o |}.

Definition update_pointer (this : nat) (f : APIPointer → APIPointer) : M unit :=
  modify (with_pointers (λ ps,
    match ps !! this with
    | Some o => <[this := f o]> ps
    | None => ps
    end)).

(** [this.#runRequest(functionName, params, requestId, this)]: a call of
    whatever the field holds. *)
Definition call_runRequest (f : value) (functionName params requestId : value)
    (apiPointer : nat) : M unit :=
  match f with
  | VFunc ApiRunRequestArrow =>
      onApiRunRequest functionName params requestId apiPointer
  | _ => throw (TypeError "this.#runRequest is not a function")
  end.

(** [run(functionName, params)] *)
Definition run (this : nat) (functionName params : value) : M nat :=
  deferredPromise ← createDeferred;
  update_pointer this
    (with_apiCalls (λ c, <[to_key (id deferredPromise) := deferredPromise]> c));;
  f ← read (λ w, from_option runRequest VUndefined (pointers w !! this));
  call_runRequest f functionName params (id deferredPromise) this;;
  mret (promise deferredPromise).

(** [postRunResult(requestId, result)] *)
Definition postRunResult (this : nat) (requestId result : value) : M unit :=
  calls ← read (λ w, from_option apiCalls ∅ (pointers w !! this));
  match calls !! to_key requestId with
  | None =>
      builtin ← read (λ w, inherited w (to_key requestId));
      if (builtin : bool) then
        if truthy (get_opt result "error")
        then throw (TypeError "deferred.reject is not a function")
        else throw (TypeError "deferred.resolve is not a function")
      else log (ConsoleError ("Failed to postRunResult for " +:+ to_key requestId))
  | Some deferred =>
      (if truthy (get_opt result "error")
       then reject (promise deferred) (Raised (get_opt result "error"))
       else resolve (promise deferred) (Value result));;
      update_pointer this (with_apiCalls (λ c, delete (to_key requestId) c))
  end.

(** [addEventListener] and [removeEventListener] of a pointer act on its
    own emitter. *)
Definition pointer_addEventListener (this : nat) (eventName : string)
    (cb : option function) (once : bool) : M unit :=
  update_pointer this
    (with_eventEmitter (EventEmitter.addEventListener eventName cb once)).

(** *** ValuApi: requests *)

(** [async #registerApiPointer(apiName, version, guid)] *)
Definition registerApiPointer (apiName version guid : value) : M nat :=
  async (
    deferredPromise ← createDeferred;
    postToValuApp "api:create-pointer" (VObj [
      ("guid", guid);
      ("api", apiName);
      ("version", version);
      ("requestId", id deferredPromise)]);;
    set_request (id deferredPromise) (PDeferred deferredPromise);;
    mret (promise deferredPromise)).

(** A property of what a promise was fulfilled with. An [APIPointer] has
    the getters [guid], [apiName] and [version]. *)
Definition field_of (r : resolved) (k : string) : M value :=
  match r with
  | Value v => lift (get v k)
  | Pointer p =>
      obj ← read (λ w, pointers w !! p);
      mret (match obj with
            | Some o =>
                if String.eqb k "guid" then guid o
                else if String.eqb k "apiName" then apiName o
                else if String.eqb k "version" then version o
                else VUndefined
            | None => VUndefined
            end)
  end.

(** [getApi] after its [await], with [result] the value awaited. *)
Definition getApi_resume (apiName guid : value) (result : resolved) : M nat :=
  error ← field_of result "error";
  if truthy error then throw (JsError error)
  else
    version ← field_of result "version";
    new_APIPointer [apiName; version; guid; VFunc ApiRunRequestArrow].

(** [async getApi(apiName, version)]: up to the [await]; the rest is the
    job [AwaitRegister]. The result is the promise of the call. *)
Definition getApi (apiName version : value) : M nat :=
  guid ← guid4;
  p ← registerApiPointer apiName version guid;
  outer ← new_promise Pending;
  modify (with_jobs (λ js, js ++ [AwaitRegister p apiName guid outer]));;
  mret outer.

Definition intent_message (intent : Intent) (requestId : value) : value :=
  VObj [("applicationId", applicationId intent);
        ("action", action intent);
        ("params", params intent);
        ("requestId", requestId)].

(** [async sendIntent(intent)] *)
Definition sendIntent (intent : Intent) : M nat :=
  async (
    deferredPromise ← createDeferred;
    postToValuApp "api:run-intent" (intent_message intent (id deferredPromise));;
    set_request (id deferredPromise) (PDeferred deferredPromise);;
    mret (promise deferredPromise)).

(** [async callService(intent)] *)
Definition callService (intent : Intent) : M nat :=
  async (
    deferredPromise ← createDeferred;
    postToValuApp "api:service-intent" (intent_message intent (id deferredPromise));;
    set_request (id deferredPromise) (PDeferred deferredPromise);;
    mret (promise deferredPromise)).

(** [async runConsoleCommand(command)] *)
Definition runConsoleCommand (command : value) : M nat :=
  async (
    deferredPromise ← createDeferred;
    set_request (id deferredPromise) (PDeferred deferredPromise);;
    postToValuApp "api:run-console" (VObj [
      ("requestId", id deferredPromise);
      ("command", command)]);;
    mret (promise deferredPromise)).

(** [#runCommand(name, data)], [pushRoute], [replaceRoute] *)
Definition runCommand (name : string) (data : value) : M unit :=
  postToValuApp "api:run-command" (VObj [("command", VStr name); ("data", data)]).

Definition pushRoute (path : value) : M unit := runCommand "pushRoute" path.
Definition replaceRoute (path : value) : M unit := runCommand "replaceRoute" path.

(** *** ValuApi: events and the shell *)

(** [this.#eventEmitter.emit(eventName, ...parameters)] *)
Definition emit (eventName : string) (parameters : list value) : M value :=
  ev ← read (λ w, api_events (api w));
  let e := EventEmitter.emit eventName parameters ev in
  modify (with_api (with_events (λ _, EventEmitter.events_of e)));;
  modify (with_trace (λ tr, tr ++ EventEmitter.trace_of e));;
  match EventEmitter.end_of e with
  | EventEmitter.Threw x => throw x
  | _ => mret (EventEmitter.result e)
  end.

Definition addEventListener (eventName : string) (cb : option function)
    (once : bool) : M unit :=
  modify (with_api (with_events (EventEmitter.addEventListener eventName cb once))).

Definition removeEventListener (eventName : option string)
    (cb : option function) : M unit :=
  ev ← read (λ w, api_events (api w));
  let '(c, ev') := EventEmitter.removeEventListener eventName cb ev in
  modify (with_api (with_events (λ _, ev')));;
  lift c.

(** A call of a lifecycle method: recorded, then its completion. *)
Definition call_onCreate (app : ValuApplication) (intent : Intent) : M returned :=
  log (OnCreateCalled (app_id app) intent);;
  lift (onCreate app intent).

Definition call_onNewIntent (app : ValuApplication) (intent : Intent) : M returned :=
  log (OnNewIntentCalled (app_id app) intent);;
  lift (onNewIntent app intent).

Definition call_onUpdateRouterContext (app : ValuApplication) (data : value)
  : M returned :=
  match onUpdateRouterContext app with
  | None => throw (TypeError "onUpdateRouterContext is not a function")
  | Some f =>
      log (OnUpdateRouterContextCalled (app_id app) data);;
      lift (f data)
  end.

(** [r.catch(console.error)] on what [onCreate] returned. *)
Definition catch_console_error (r : returned) : M unit :=
  match r with
  | Plain _ => throw (TypeError "onCreate(...).catch is not a function")
  | APromise (Normal _) => mret ()
  | APromise (Abrupt e) => modify (with_jobs (λ js, js ++ [CatchLog e]))
  end.

(** [setApplication(appInstance)] *)
Definition setApplication (appInstance : ValuApplication) : M unit :=
  modify (with_api (with_applicationInstance (Some appInstance)));;
  last ← read (λ w, lastIntent (api w));
  match last with
  | Some intent =>
      r ← call_onCreate appInstance intent;
      catch_console_error r
  | None => mret ()
  end.

(** *** ValuApi: inbound messages *)

(** [case 'api:ready'] *)
Definition on_ready (event : MessageEvent) (message : value) : M unit :=
  applicationId ← lift (get message "applicationId");
  modify (with_api (with_valuApplication (Some
    {| ep_id := applicationId; source := ev_source event;
       origin := ev_origin event |})));;
  emit API_READY [];;
  applicationId ← lift (get message "applicationId");
  action ← lift (get message "action");
  params ← lift (get message "params");
  let intent := new_Intent applicationId action params in
  app ← read (λ w, applicationInstance (api w));
  match app with
  | Some a => call_onCreate a intent;; mret ()
  | None => mret ()
  end;;
  modify (with_api (with_lastIntent (Some intent))).

(** [case 'api:trigger'] *)
Definition on_trigger (message : value) : M unit :=
  action ← lift (get message "action");
  if is_string ON_ROUTE action then
    data ← lift (get message "data");
    emit ON_ROUTE [data];;
    data ← lift (get message "data");
    app ← read (λ w, applicationInstance (api w));
    match app with
    | Some a => call_onUpdateRouterContext a data;; mret ()
    | None => mret ()
    end
  else mret ().

(** [case 'api:new-intent'] *)
Definition on_new_intent (message : value) : M unit :=
  applicationId ← lift (get message "applicationId");
  action ← lift (get message "action");
  params ← lift (get message "params");
  let intent := new_Intent applicationId action params in
  app ← read (λ w, applicationInstance (api w));
  match app with
  | Some a => call_onNewIntent a intent;; mret ()
  | None => mret ()
  end.

(** [case 'api:run-console-completed'] *)
Definition on_run_console_completed (requestId message : value) : M unit :=
  deferred ← read (λ w, requests (api w) !! to_key requestId);
  match deferred with
  | Some (PDeferred d) => resolve (promise d) (Value message)
  | Some (PPointer _) => throw (TypeError "deferred.resolve is not a function")
  | None =>
      builtin ← read (λ w, inherited w (to_key requestId));
      if (builtin : bool) then throw (TypeError "deferred.resolve is not a function")
      else log (ConsoleLog "Failed to locate console request with Id: " requestId)
  end;;
  delete_request requestId.

(** [case 'api:run-completed'] *)
Definition on_run_completed (requestId message : value) : M unit :=
  apiPointer ← read (λ w, requests (api w) !! to_key requestId);
  match apiPointer with
  | None =>
      builtin ← read (λ w, inherited w (to_key requestId));
      if (builtin : bool)
      then throw (TypeError "apiPointer.postRunResult is not a function")
      else log (ConsoleError
                  ("Failed to find Api Pointer for requestId: " +:+ to_key requestId))
  | Some (PPointer p) =>
      postRunResult p requestId message;;
      delete_request requestId
  | Some (PDeferred _) =>
      throw (TypeError "apiPointer.postRunResult is not a function")
  end.

(** [case 'api:pointer-created'] *)
Definition on_pointer_created (requestId message : value) : M unit :=
  deferred ← read (λ w, requests (api w) !! to_key requestId);
  match deferred with
  | Some (PDeferred d) =>
      resolve (promise d) (Value message);;
      delete_request requestId
  | Some (PPointer _) => throw (TypeError "deferred.resolve is not a function")
  | None =>
      builtin ← read (λ w, inherited w (to_key requestId));
      if (builtin : bool) then throw (TypeError "deferred.resolve is not a function")
      else log (ConsoleLog "Failed to locate pointer create request with Id: "
                  requestId)
  end.

(** [#handleParentMessage(event)]. Past the guard [event.data] is an
    object with an own [target]. *)
Definition handleParentMessage (event : MessageEvent) : M unit :=
  if negb (is_string "valuApi" (get_opt (data event) "target")) then mret ()
  else
    message ← lift (get (data event) "message");
    name ← lift (get (data event) "name");
    if is_string "api:ready" name then on_ready event message
    else if is_string "api:trigger" name then on_trigger message
    else if is_string "api:new-intent" name then on_new_intent message
    else if is_string "api:run-console-completed" name then
      requestId ← lift (get (data event) "requestId");
      on_run_console_completed requestId message
    else if is_string "api:run-completed" name then
      requestId ← lift (get (data event) "requestId");
      on_run_completed requestId message
    else if is_string "api:pointer-created" name then
      requestId ← lift (get (data event) "requestId");
      on_pointer_created requestId message
    else mret ().

(** *** The job queue *)

(** One job; the result lists the jobs that stay queued. *)
Definition run_job (j : job) : M (list job) :=
  match j with
  | CatchLog e => log (ConsoleErrorOf e);; mret []
  | AwaitRegister p apiName guid outer =>
      st ← read (λ w, promises w !! p);
      match st with
      | Some (Fulfilled result) =>
          try_catch
            (apiPointer ← getApi_resume apiName guid result;
             resolve outer (Pointer apiPointer))
            (λ e, reject outer e);;
          mret []
      | Some (Rejected e) => reject outer e;; mret []
      | _ => mret [j]
      end
  end.

Fixpoint run_jobs (js : list job) : M (list job) :=
  match js with
  | [] => mret []
  | j :: js' =>
      kept ← run_job j;
      kept' ← run_jobs js';
      mret (kept ++ kept')
  end.

(** All queued jobs run once the current call stack is empty. *)
Definition drain (w : World) : World :=
  let '(c, w') := run_jobs (jobs w) (with_jobs (λ _, []) w) in
  match c with
  | Normal kept => with_jobs (λ later, kept ++ later) w'
  | Abrupt e => with_trace (λ tr, tr ++ [Uncaught e]) w'
  end.

(** The host posts [event]: the listener installed by the constructor
    runs [#handleParentMessage], an exception of which the event loop
    reports; then the job queue is drained. *)
Definition deliver (event : MessageEvent) (w : World) : World :=
  let '(c, w') := handleParentMessage event w in
  drain (match c with
         | Normal _ => w'
         | Abrupt e => with_trace (λ tr, tr ++ [Uncaught e]) w'
         end).

(** The application calls an operation of the client from its own code;
    then the job queue is drained. *)
Definition call {A} (m : M A) (w : World) : completion A * World :=
  let '(c, w') := m w in (c, drain w').

(** *** Notions used to state the properties of the client *)

(** Every queued continuation settles a promise that exists. *)
Definition jobs_wf (w : World) : Prop :=
  ∀ p a g o, AwaitRegister p a g o ∈ jobs w → (o < length (promises w))%nat.

(** The promise store has only grown, and the queue is as it was. *)
Definition store_grows : relation World := λ w w',
  (length (promises w) ≤ length (promises w'))%nat ∧ jobs w' = jobs w.

(** No job of [js] settles the promise [q]. *)
Definition avoids (js : list job) (q : nat) : Prop :=
  ∀ p a g o, AwaitRegister p a g o ∈ js → o ≠ q.

(** What a run of the jobs [js] does to the store: its size stays, a
    promise that no job of [js] settles is as it was, a settled promise
    stays as it is, and [guid4] was only called on. *)
Definition job_frame (js : list job) : relation World := λ w w',
  length (promises w') = length (promises w)
  ∧ (∀ q, avoids js q → promises w' !! q = promises w !! q)
  ∧ (∀ q st, promises w !! q = Some st → st ≠ Pending →
             promises w' !! q = Some st)
  ∧ (guids w ≤ guids w')%nat.

(** The call [m] from the state [w] hands back a promise that is rejected
    with [e], with the table of pending requests and the outbox as they
    were. *)
Definition rejected_untouched (m : M nat) (w : World) (e : thrown) : Prop :=
  ∃ p, (call m w).1 = Normal p
       ∧ promises (call m w).2 !! p = Some (Rejected e)
       ∧ requests (api (call m w).2) = requests (api w)
       ∧ outbox (call m w).2 = outbox w.

(** The payload of the create-pointer request. *)
Definition create_pointer_message (apiName version guid requestId : value) : value :=
  VObj [("guid", guid); ("api", apiName); ("version", version);
        ("requestId", requestId)].

End Client.

(** A message of the host. *)
Definition host_message (name : string) (requestId message : value)
    (window : nat) (origin : string) : MessageEvent :=
  {| data := VObj [("target", VStr "valuApi"); ("name", VStr name);
                   ("requestId", requestId); ("message", message)];
     ev_source := Some window; ev_origin := origin |}.

(** The parts of an inbound envelope. *)
Definition message_of (event : MessageEvent) : value :=
  get_opt (data event) "message".
Definition requestId_of (event : MessageEvent) : value :=
  get_opt (data event) "requestId".

(** [event] passes the guard of the handler and is of the kind [name]. *)
Definition inbound (name : string) (event : MessageEvent) : bool :=
  is_string "valuApi" (get_opt (data event) "target")
  && is_string name (get_opt (data event) "name").

(** The three kinds of reply. *)
Definition reply_kind (name : string) : bool :=
  String.eqb name "api:run-console-completed"
  || String.eqb name "api:run-completed"
  || String.eqb name "api:pointer-created".

(** The identifiers for which [to_key] gives the property key, and the
    text in a diagnostic, exactly as the engine does: strings, booleans,
    [null], [undefined], the integers up to 2^53 in size (a larger number
    is printed by the engine from its shortest digits, with an exponent
    from 1e21 on), and the objects without a [toString] of their own
    (a message object cannot hold a function, so with a [toString] of its
    own its conversion to a key is a TypeError). *)
Definition key_exact (v : value) : bool :=
  match v with
  | VNum n => (Z.abs n <=? 2 ^ 53)%Z
  | VObj fields =>
      forallb (λ kv : string * value, negb (String.eqb kv.1 "toString")) fields
  | VFunc _ => false
  | _ => true
  end.

(** What the handler prints for a reply of the kind [name] whose
    identifier it does not find. *)
Definition diagnostic_of (name : string) (requestId : value) : effect :=
  if String.eqb name "api:run-console-completed"
  then ConsoleLog "Failed to locate console request with Id: " requestId
  else if String.eqb name "api:run-completed"
  then ConsoleError ("Failed to find Api Pointer for requestId: " +:+ to_key requestId)
  else ConsoleLog "Failed to locate pointer create request with Id: " requestId.

(** The method the handler calls on what it finds for a reply of the kind
    [name]; an inherited property has none of them. *)
Definition fault_of (name : string) : thrown :=
  if String.eqb name "api:run-completed"
  then TypeError "apiPointer.postRunResult is not a function"
  else TypeError "deferred.resolve is not a function".

(** A readiness message whose handling reaches the capture of the
    endpoint: its payload is not [undefined] or [null]. *)
Definition readiness (event : MessageEvent) : bool :=
  inbound "api:ready" event && negb (nullish (message_of event)).

(** The launch Intent of a readiness message, and the Intent of a
    new-intent message. *)
Definition intent_of (event : MessageEvent) : Intent :=
  new_Intent (get_opt (message_of event) "applicationId")
             (get_opt (message_of event) "action")
             (get_opt (message_of event) "params").

Definition endpoint_of (event : MessageEvent) : endpoint :=
  {| ep_id := get_opt (message_of event) "applicationId";
     source := ev_source event;
     origin := ev_origin event |}.

(** *** Notions used to state further properties of the client *)

(** The kinds of inbound message the handler has a case for. *)
Definition known_kind (name : string) : bool :=
  String.eqb name "api:ready" || String.eqb name "api:trigger"
  || String.eqb name "api:new-intent" || reply_kind name.

(** Every queued continuation settles a promise below [n]. *)
Definition jobs_below (n : nat) (w : World) : Prop :=
  ∀ p a g o, AwaitRegister p a g o ∈ jobs w → (o < n)%nat.

(** The route command [method], of the name [name]: it throws what the
    post throws and changes nothing, or it posts the one message and
    changes nothing else. *)
Definition posts_or_throws (env : platform) (method : value → M unit)
    (name : string) (path : value) (w : World) : Prop :=
  (∀ e, post_throws env (valuApplication (api w))
          (envelope "api:run-command"
             (VObj [("command", VStr name); ("data", path)])) = Some e →
        method path w = (Abrupt e, w))
  ∧ (post_throws env (valuApplication (api w))
       (envelope "api:run-command"
          (VObj [("command", VStr name); ("data", path)])) = None →
     ∃ ep window,
       valuApplication (api w) = Some ep ∧ source ep = Some window
       ∧ method path w
         = (Normal (),
            with_outbox
              (λ o, o ++ [(window,
                           envelope "api:run-command"
                             (VObj [("command", VStr name); ("data", path)]),
                           origin ep)]) w)).

(** How [postRunResult] settles a call for the reply [result]. *)
Definition run_outcome (result : value) : promise_state :=
  if truthy (get_opt result "error") then Rejected (Raised (get_opt result "error"))
  else Fulfilled (Value result).

(** The payload of the function-call request. *)
Definition run_message (guid requestId functionName params : value) : value :=
  VObj [("apiPointerId", guid); ("requestId", requestId);
        ("functionName", functionName); ("params", params)].

(** The call with the key [key] of the pointer [this] awaits its reply:
    both tables hold it, and its promise is pending. *)
Definition call_pending (w : World) (this : nat) (key : string) (d : Deferred) : Prop :=
  ∃ o, requests (api w) !! key = Some (PPointer this)
       ∧ pointers w !! this = Some o
       ∧ apiCalls o !! key = Some d
       ∧ promises w !! promise d = Some Pending.

(** The pointer [this] is still there, with its identity and its
    listeners. *)
Definition pointer_kept (this : nat) : relation World := λ w w',
  ∀ o, pointers w !! this = Some o →
       ∃ o', pointers w' !! this = Some o'
             ∧ guid o' = guid o ∧ apiName o' = apiName o ∧ version o' = version o
             ∧ runRequest o' = runRequest o ∧ eventEmitter o' = eventEmitter o.

(** Every pointer is still there, exactly as it was. *)
Definition pointers_stay : relation World := λ w w',
  ∀ this o, pointers w !! this = Some o → pointers w' !! this = Some o.

(** A settled promise keeps its outcome. *)
Definition settled_stay : relation World := λ w w',
  ∀ q st, promises w !! q = Some st → st ≠ Pending → promises w' !! q = Some st.

(** The function [f], held by no listener of the client's own bus before,
    is held by none after, and was not called in between. *)
Definition never_called (f : nat) : relation World := λ w w',
  (∀ n, EventEmitter.quiet_at f (api_events (api w)) n) →
  (∀ n, EventEmitter.quiet_at f (api_events (api w')) n)
  ∧ EventEmitter.times_called f (trace w') = EventEmitter.times_called f (trace w).

(** The request [m], made from the state [w], goes out: the one message
    of the kind [name] with the payload [message] is posted to the
    endpoint, the promise handed back is pending, and the table of the
    client holds the waiter under [requestId]. *)
Definition request_sent (env : platform) (m : M nat) (name : string)
    (message requestId : value) (w : World) : Prop :=
  ∃ p ep window,
    (call env m w).1 = Normal p
    ∧ valuApplication (api w) = Some ep ∧ source ep = Some window
    ∧ outbox (call env m w).2 = outbox w ++ [(window, envelope name message, origin ep)]
    ∧ promises (call env m w).2 !! p = Some Pending
    ∧ requests (api (call env m w).2)
      = <[to_key requestId := PDeferred {| id := requestId; promise := p |}]>
          (requests (api w)).

(** A client that was connected still is. *)
Definition stays_connected : relation World := λ w w',
  connected w = true → connected w' = true.

(** *** Concrete inputs *)

(** A platform: [nextId()] counts from 0, [guid4()] gives guid-0, guid-1,
    and so on, and [postMessage] queues every message. *)
Definition sample : platform :=
  {| nextId_at := λ n, VNum (Z.of_nat n);
     guid4_at := λ n, VStr ("guid-" +:+ pretty n);
     postMessage_error := λ _ _, None |}.

Definition ready1 : MessageEvent :=
  host_message "api:ready" VUndefined
    (VObj [("applicationId", VStr "app"); ("action", VStr "view")]) 7 "https://valu.example".

Definition ready2 : MessageEvent :=
  host_message "api:ready" VUndefined
    (VObj [("applicationId", VStr "app")]) 8 "https://other.example".

(** A client that has seen one readiness message. *)
Definition connected0 : World := deliver sample ready1 start.

(** A shell whose methods are [async] and return at once. *)
Definition shell0 : ValuApplication :=
  {| app_id := 1;
     onCreate := λ _, Normal (APromise (Normal (VObj [("status", VStr "initialized")])));
     onNewIntent := λ _, Normal (APromise (Normal (VObj [("handled", VBool true)])));
     onUpdateRouterContext := None |}.

Definition bound0 : World := (setApplication shell0 connected0).2.

Definition new_intent0 : MessageEvent :=
  host_message "api:new-intent" VUndefined
    (VObj [("applicationId", VStr "app"); ("action", VStr "open");
           ("params", VObj [("roomId", VStr "1234")])]) 7 "https://valu.example".

Definition console_reply0 : MessageEvent :=
  host_message "api:run-console-completed" (VNum 0)
    (VStr "ERROR: unknown command") 7 "https://valu.example".

Definition late_reply0 : MessageEvent :=
  host_message "api:run-completed" (VNum 42) (VStr "late") 7 "https://valu.example".

(** A reply whose identifier names a property that every object inherits. *)
Definition constructor_reply0 : MessageEvent :=
  host_message "api:pointer-created" (VStr "constructor") (VObj [("version", VNum 3)])
    7 "https://valu.example".

Definition pointer_created0 : MessageEvent :=
  host_message "api:pointer-created" (VNum 0) (VObj [("version", VNum 3)])
    7 "https://valu.example".

Definition listener0 : function :=
  {| fn_id := 1; fn_apply := λ _, Normal VUndefined |}.

Definition intent0 : Intent := new_Intent (VStr "chatApp") VUndefined VUndefined.


(** Listeners: one returns 1, one returns [undefined], one throws. *)
Definition listener_a : function :=
  {| fn_id := 2; fn_apply := λ _, Normal (VNum 1) |}.
Definition listener_b : function :=
  {| fn_id := 3; fn_apply := λ _, Normal VUndefined |}.
Definition listener_boom : function :=
  {| fn_id := 4; fn_apply := λ _, Abrupt (Raised (VStr "boom")) |}.

(** An emitter with [listener_a] registered once-only and [listener_b]
    after it, and one with the throwing listener between the two. *)
Definition bus0 : EventEmitter.events :=
  EventEmitter.addEventListener "e" (Some listener_b) false
    (EventEmitter.addEventListener "e" (Some listener_a) true EventEmitter.new).

Definition slots0 : list (option EventEmitter.listener) :=
  [Some (EventEmitter.Listener (Some listener_a) true);
   Some (EventEmitter.Listener (Some listener_b) false)].

Definition bus1 : EventEmitter.events :=
  EventEmitter.addEventListener "e" (Some listener_b) false
    (EventEmitter.addEventListener "e" (Some listener_boom) false
       (EventEmitter.addEventListener "e" (Some listener_a) true EventEmitter.new)).

(** An emitter with listeners on the two meta-events as well. *)
Definition bus2 : EventEmitter.events :=
  EventEmitter.addEventListener "__after__" (Some listener0) false
    (EventEmitter.addEventListener "__before__" (Some listener_b) false bus0).

(** Messages: one of another sender, a route trigger, replies. *)
Definition foreign0 : MessageEvent :=
  {| data := VStr "hello"; ev_source := Some 9; ev_origin := "https://else.example" |}.

Definition route0 : MessageEvent :=
  host_message "api:trigger" VUndefined
    (VObj [("action", VStr "on_route"); ("data", VStr "/home")])
    7 "https://valu.example".

Definition crossed_reply0 : MessageEvent :=
  host_message "api:run-completed" (VNum 0) (VStr "crossed") 7 "https://valu.example".

Definition console_reply1 : MessageEvent :=
  host_message "api:run-console-completed" (VNum 0) (VStr "again")
    7 "https://valu.example".

Definition run_reply0 : MessageEvent :=
  host_message "api:run-completed" (VNum 0) (VObj [("rooms", VNum 2)])
    7 "https://valu.example".

Definition run_reply1 : MessageEvent :=
  host_message "api:run-completed" (VNum 1) (VObj [("error", VStr "denied")])
    7 "https://valu.example".

Definition pointer_error0 : MessageEvent :=
  host_message "api:pointer-created" (VNum 0) (VObj [("error", VStr "unknown api")])
    7 "https://valu.example".

(** A connected client with a console command under way. *)
Definition console0 : World :=
  (call sample (runConsoleCommand sample (VStr "help")) connected0).2.

(** A pointer built by [new APIPointer("chat", 1, f)], with [f] the
    function of the client, on a connected client and on a client that
    has seen no readiness message. *)
Definition pointer0 : APIPointer :=
  {| apiName := VStr "chat"; version := VNum 1; guid := VStr "guid-0";
     eventEmitter := EventEmitter.new; runRequest := VFunc ApiRunRequestArrow;
     apiCalls := ∅ |}.

Definition chat0 : World :=
  (new_APIPointer sample [VStr "chat"; VNum 1; VFunc ApiRunRequestArrow] connected0).2.

Definition offline0 : World :=
  (new_APIPointer sample [VStr "chat"; VNum 1; VFunc ApiRunRequestArrow] start).2.

(* ===================================================================== *)
(** ** Relations between the state before and after a statement           *)
(* ===================================================================== *)

(** Whatever its completion, [m] takes a state to one related by [R]. *)
Definition respects (R : relation World) {A} (m : M A) : Prop :=
  ∀ w, R w (m w).2.

(** The component [F] of the state is the same after as before. *)
Definition same {B} (F : World → B) : relation World := λ w w', F w' = F w.

Abbreviation keeps F := (respects (same F)).

(* ===================================================================== *)
(** ** Properties of the EventEmitter                                     *)
(* ===================================================================== *)

Module EventEmitterFacts.
Import EventEmitter.

Lemma times_called_app f tr1 tr2 :
  times_called f (tr1 ++ tr2) = times_called f tr1 + times_called f tr2.
Proof.
  induction tr1 as [|e tr1 IH]; simpl; [done|].
  destruct e; simpl; rewrite IH; lia.
Qed.


Lemma quiet_cons f s l : quiet f (s :: l) ↔ slot_has f s = false ∧ quiet f l.
Proof. unfold quiet. simpl. apply orb_false_iff. Qed.

Lemma quiet_kept f l : quiet f l → quiet f (kept l).
Proof.
  unfold kept. induction l as [|s l IH]; [done|].
  rewrite quiet_cons. intros [Hs Hl]. rewrite filter_cons.
  destruct (decide (once_slot s = false)); [apply quiet_cons|]; auto.
Qed.

Lemma marked_has f s : slot_has f (marked s) = slot_has f s.
Proof. by destruct s as [[[g|] o]|]. Qed.

Lemma quiet_marked f l : quiet f l → quiet f (marked <$> l).
Proof.
  induction l as [|s l IH]; [done|]. rewrite fmap_cons, !quiet_cons.
  rewrite marked_has. intros [Hs Hl]. auto.
Qed.

(** Removing the once-positions, last first, keeps exactly the slots not
    marked [once]. *)
Lemma splice_once_kept pre slots :
  splice_once (pre ++ slots) (once_positions (length pre) slots)
  = pre ++ kept slots.
Proof.
  revert pre. induction slots as [|s slots IH]; intros pre; [done|].
  unfold kept. rewrite filter_cons. simpl.
  specialize (IH (pre ++ [s])). rewrite length_app in IH. simpl in IH.
  replace (length pre + 1) with (S (length pre)) in IH by lia.
  rewrite <- app_assoc in IH. simpl in IH.
  destruct (once_slot s) eqn:Hs.
  - unfold splice_once in *. simpl. rewrite IH, <- app_assoc. simpl.
    apply delete_middle.
  - by rewrite IH, <- app_assoc.
Qed.

Lemma splice_once_all slots :
  splice_once slots (once_positions 0 slots) = kept slots.
Proof. apply (splice_once_kept [] slots). Qed.

(** A pass that completes has called every callback once, in order, and
    has collected the positions of the once-listeners. *)
Lemma emit_loop_completed parameters rest : ∀ i lastValue ret onceL,
  let p := emit_loop parameters i rest lastValue ret onceL in
  pass_end_of p = Completed →
  listeners_of p = marked <$> rest
  ∧ onceListeners p = onceL ++ once_positions i (marked <$> rest)
  ∧ ∀ f, times_called f (calls p)
         = length (filter (λ s, slot_has f s = true) rest).
Proof.
  induction rest as [|[l|] rest IH]; intros i lastValue ret onceL; simpl.
  - intros _. by rewrite app_nil_r.
  - destruct l as [[g|] o]; simpl.
    + destruct (fn_apply g parameters) as [v|e]; simpl; [|done].
      intros Hend. apply IH in Hend as (Hl & Ho & Hc).
      rewrite Hl, Ho. split_and!; [done| |].
      * destruct o; simpl; [by rewrite <- app_assoc|done].
      * intros f. rewrite Hc.
        destruct (Nat.eqb_spec (fn_id g) f) as [Heq|Hne].
        -- rewrite filter_cons_True; [done|]. simpl. by apply Nat.eqb_eq.
        -- rewrite filter_cons_False; [done|]. simpl.
           apply not_true_iff_false. by apply Nat.eqb_neq.
    + intros Hend. apply IH in Hend as (Hl & Ho & Hc).
      rewrite Hl, Ho. split_and!; [done|by rewrite <- app_assoc|].
      intros f. rewrite Hc. by rewrite filter_cons_False.
  - done.
Qed.

(** Whatever its end, a pass calls no function that no slot holds, and
    leaves no slot holding it. *)
Lemma emit_loop_quiet f parameters rest : ∀ i lastValue ret onceL,
  quiet f rest →
  let p := emit_loop parameters i rest lastValue ret onceL in
  times_called f (calls p) = 0 ∧ quiet f (listeners_of p).
Proof.
  induction rest as [|[l|] rest IH]; intros i lastValue ret onceL Hq; simpl.
  - done.
  - apply quiet_cons in Hq as [Hs Hq].
    destruct l as [[g|] o]; simpl in *.
    + destruct (fn_apply g parameters) as [v|e]; simpl.
      * rewrite Hs. simpl.
        edestruct IH as [Hc Hl]; [done|]. split; [apply Hc|].
        apply quiet_cons. split; [done|apply Hl].
      * rewrite Hs. split; [done|]. apply quiet_cons. by split.
    + edestruct IH as [Hc Hl]; [done|]. split; [apply Hc|].
      apply quiet_cons. split; [done|apply Hl].
  - done.
Qed.

Lemma emit_own_other name parameters ev other :
  other ≠ name →
  events_of (emit_own name parameters ev) !! other = ev !! other.
Proof.
  intros Hne. unfold emit_own. destruct (ev !! name) as [slots|]; [|done].
  destruct (pass_end_of _); simpl; by rewrite lookup_insert_ne.
Qed.

Lemma emit_own_quiet f name parameters ev :
  quiet_at f ev name →
  times_called f (trace_of (emit_own name parameters ev)) = 0
  ∧ quiet_at f (events_of (emit_own name parameters ev)) name.
Proof.
  intros Hq. unfold emit_own.
  destruct (ev !! name) as [slots|] eqn:Hslots; [|done].
  specialize (Hq slots Hslots).
  pose proof (emit_loop_quiet f parameters slots 0 VUndefined VUndefined [] Hq)
    as [Hc Hl]. simpl in Hc, Hl.
  destruct (pass_end_of _) eqn:Hend; simpl; (split; [done|]);
    intros slots'; rewrite lookup_insert_eq; intros [= <-]; [|done..].
  apply emit_loop_completed in Hend as (Hl' & Ho & _).
  rewrite Ho, Hl'. simpl.
  rewrite splice_once_all.
  by apply quiet_kept, quiet_marked.
Qed.

Lemma emit_own_quiet_all f name parameters ev :
  (∀ n, quiet_at f ev n) →
  ∀ n, quiet_at f (events_of (emit_own name parameters ev)) n.
Proof.
  intros Hq n. destruct (decide (n = name)) as [->|Hne].
  - by apply emit_own_quiet.
  - intros slots. rewrite emit_own_other by done. apply Hq.
Qed.

(** A function that no listener holds is not called by [emit], whatever
    the end of the passes, and is still held by none afterwards. *)
Lemma emit_quiet f name parameters ev :
  (∀ n, quiet_at f ev n) →
  times_called f (trace_of (emit name parameters ev)) = 0
  ∧ ∀ n, quiet_at f (events_of (emit name parameters ev)) n.
Proof.
  intros Hq. unfold emit.
  destruct (specialEvent name).
  { split; [by apply emit_own_quiet|by apply emit_own_quiet_all]. }
  set (b := emit_own "__before__" _ ev).
  assert (Hb : ∀ n, quiet_at f (events_of b) n) by by apply emit_own_quiet_all.
  assert (Hbt : times_called f (trace_of b) = 0) by by apply emit_own_quiet.
  set (m := emit_own name parameters (events_of b)).
  assert (Hm : ∀ n, quiet_at f (events_of m) n) by by apply emit_own_quiet_all.
  assert (Hmt : times_called f (trace_of m) = 0) by by apply emit_own_quiet.
  set (a := emit_own "__after__" _ (events_of m)).
  assert (Ha : ∀ n, quiet_at f (events_of a) n) by by apply emit_own_quiet_all.
  assert (Hat : times_called f (trace_of a) = 0) by by apply emit_own_quiet.
  destruct (end_of b); [| |done];
    (destruct (end_of m); [|simpl; rewrite times_called_app; split; [lia|done]..]);
    destruct (end_of a); simpl; rewrite !times_called_app; split; try lia; done.
Qed.

Lemma not_registered_quiet f ev : ¬ registered f ev ↔ ∀ n, quiet_at f ev n.
Proof.
  unfold registered, quiet_at, quiet. split.
  - intros Hn n slots Hs. destruct (existsb _ _) eqn:He; [|done].
    exfalso. apply Hn. eauto.
  - intros Hq (n & slots & Hs & He). specialize (Hq n slots Hs). congruence.
Qed.

(** A publish of an ordinary event that completes ran its three passes. *)
Lemma emit_completed name parameters ev :
  specialEvent name = false →
  end_of (emit name parameters ev) = Completed →
  end_of (subscriber_pass name parameters ev) = Completed
  ∧ trace_of (emit name parameters ev)
    = trace_of (emit_own "__before__" (VStr name :: parameters) ev)
      ++ trace_of (subscriber_pass name parameters ev)
      ++ trace_of (emit_own "__after__" (VStr name :: parameters)
                     (events_of (subscriber_pass name parameters ev)))
  ∧ events_of (emit name parameters ev)
    = events_of (emit_own "__after__" (VStr name :: parameters)
                   (events_of (subscriber_pass name parameters ev))).
Proof.
  intros Hsp. unfold emit, subscriber_pass. rewrite Hsp.
  destruct (end_of (emit_own "__before__" _ ev)); [| |done];
    (destruct (end_of (emit_own name parameters _)); [|done..]);
    by destruct (end_of (emit_own "__after__" _ _)).
Qed.







(** *** Further properties of the emitter *)

Lemma emit_loop_smooth parameters rest : ∀ i lastValue ret onceL,
  pass_end_of (emit_loop parameters i rest lastValue ret onceL) = Completed
  ↔ smooth parameters rest = true.
Proof.
  induction rest as [|[l|] rest IH]; intros i lastValue ret onceL; simpl; [done| |done].
  destruct l as [[g|] o]; simpl.
  - destruct (fn_apply g parameters) as [v|e]; simpl; [apply IH|done].
  - apply IH.
Qed.

Lemma emit_loop_calls parameters rest : ∀ i lastValue ret onceL,
  smooth parameters rest = true →
  calls (emit_loop parameters i rest lastValue ret onceL)
  = calls_in_order parameters rest.
Proof.
  induction rest as [|[l|] rest IH]; intros i lastValue ret onceL; simpl; [done| |done].
  destruct l as [[g|] o]; simpl.
  - destruct (fn_apply g parameters) as [v|e]; simpl; [|done].
    intros Hs. unfold calls_in_order. simpl. f_equal. by apply IH.
  - intros Hs. by apply IH.
Qed.

Lemma emit_loop_returnValue parameters rest : ∀ i lastValue ret onceL,
  is_undefined lastValue = true ∨ ret = lastValue →
  smooth parameters rest = true →
  returnValue (emit_loop parameters i rest lastValue ret onceL)
  = default ret (last (filter (λ v, is_undefined v = false)
                         (returns parameters rest))).
Proof.
  induction rest as [|[l|] rest IH]; intros i lastValue ret onceL Hinv; simpl;
    [done| |done].
  destruct l as [[g|] o]; simpl.
  - unfold returns. simpl.
    destruct (fn_apply g parameters) as [v|e] eqn:Hg; simpl; [|done].
    intros Hs. rewrite IH; [|destruct (is_undefined v); auto|done].
    fold (returns parameters rest).
    destruct (is_undefined v) eqn:Hv.
    + by rewrite filter_cons_False by (by rewrite Hv).
    + rewrite filter_cons_True by done. rewrite last_cons.
      by destruct (last _).
  - intros Hs. rewrite IH; [|by destruct (is_undefined lastValue); auto|done].
    destruct Hinv as [->| ->]; [done|]. by destruct (is_undefined lastValue).
Qed.

Lemma smooth_kept_marked parameters slots :
  smooth parameters slots = true →
  kept (marked <$> slots) = filter (λ s, persistent s = true) slots.
Proof.
  unfold kept. induction slots as [|[l|] slots IH]; simpl; [done| |done].
  intros [Hl Hs]%andb_true_iff.
  destruct l as [[g|] [|]]; simpl.
  - rewrite !filter_cons_False by done. auto.
  - rewrite !filter_cons_True by done. f_equal. auto.
  - rewrite !filter_cons_False by done. auto.
  - rewrite !filter_cons_False by done. auto.
Qed.

Lemma emit_own_completed_smooth name parameters ev slots :
  ev !! name = Some slots →
  end_of (emit_own name parameters ev) = Completed →
  smooth parameters slots = true.
Proof.
  intros Hev. unfold emit_own. rewrite Hev.
  destruct (pass_end_of _) eqn:Hend; simpl; [|done..]. intros _.
  by apply emit_loop_smooth in Hend.
Qed.

(** X1. A pass that completes calls every listener that has a callback
    exactly once, in the order of registration, each with the parameters
    of the publish; the same callback registered twice is called twice. *)
Theorem emit_calls_in_registration_order (name : string)
    (parameters : list value) (ev : events) (slots : list (option listener)) :
  ev !! name = Some slots →
  end_of (emit_own name parameters ev) = Completed →
  trace_of (emit_own name parameters ev) = calls_in_order parameters slots
  ∧ ∀ cb once,
      end_of (emit_own name parameters (addEventListener name (Some cb) once ev))
        = Completed →
      trace_of (emit_own name parameters (addEventListener name (Some cb) once ev))
      = calls_in_order parameters slots ++ [ListenerCalled (fn_id cb) parameters].
Proof.
  assert (Hgen : ∀ ev' slots', ev' !! name = Some slots' →
            end_of (emit_own name parameters ev') = Completed →
            trace_of (emit_own name parameters ev') = calls_in_order parameters slots').
  { intros ev' slots' Hev Hend.
    pose proof (emit_own_completed_smooth _ _ _ _ Hev Hend) as Hs.
    unfold emit_own in *. rewrite Hev in *.
    pose proof (emit_loop_calls parameters slots' 0 VUndefined VUndefined [] Hs) as Hc.
    by destruct (pass_end_of _). }
  intros Hev Hend. split; [by apply Hgen|].
  intros cb once Hend'.
  rewrite (Hgen _ (slots ++ [Some (Listener (Some cb) once)])); [|
    unfold addEventListener; by rewrite Hev, lookup_insert_eq|done].
  unfold calls_in_order. by rewrite omap_app.
Qed.

(** X2. A publish that completes returns the last value other than
    [undefined] that a listener of the event returned, and [undefined] if
    there is none; what the listeners of the meta-events return is
    ignored. *)
Theorem emit_returns_last_defined_value (name : string)
    (parameters : list value) (ev : events) (slots : list (option listener)) :
  ev !! name = Some slots →
  end_of (emit name parameters ev) = Completed →
  result (emit name parameters ev) = last_defined (returns parameters slots).
Proof.
  assert (Hgen : ∀ ev', ev' !! name = Some slots →
            end_of (emit_own name parameters ev') = Completed →
            result (emit_own name parameters ev')
            = last_defined (returns parameters slots)).
  { intros ev' Hev Hend.
    pose proof (emit_own_completed_smooth _ _ _ _ Hev Hend) as Hs.
    unfold emit_own in *. rewrite Hev in *.
    pose proof (emit_loop_returnValue parameters slots 0 VUndefined VUndefined []
                  (or_introl eq_refl) Hs) as Hr.
    by destruct (pass_end_of _). }
  intros Hev Hend. destruct (specialEvent name) eqn:Hsp.
  - unfold emit in *. rewrite Hsp in *. by apply Hgen.
  - assert (Hne : name ≠ "__before__") by (intros ->; done).
    destruct (emit_completed name parameters ev Hsp Hend) as (Hm & _ & _).
    unfold subscriber_pass in Hm.
    assert (Hres : result (emit name parameters ev)
                   = result (emit_own name parameters
                               (events_of (emit_own "__before__"
                                             (VStr name :: parameters) ev)))).
    { unfold emit in *. rewrite Hsp in *.
      destruct (end_of (emit_own "__before__" _ ev)); [| |done];
        rewrite Hm in *; by destruct (end_of (emit_own "__after__" _ _)). }
    rewrite Hres. apply Hgen; [|done]. by rewrite emit_own_other.
Qed.

(** X3. After a pass that completes, the listeners left for the event are
    exactly those registered with [once = false] and a callback, in their
    order: once-listeners are gone, and so is every listener registered
    without a callback. The listeners of other events are as they were. *)
Theorem emit_keeps_persistent_listeners (name : string)
    (parameters : list value) (ev : events) (slots : list (option listener)) :
  ev !! name = Some slots →
  end_of (emit_own name parameters ev) = Completed →
  events_of (emit_own name parameters ev) !! name
    = Some (filter (λ s, persistent s = true) slots)
  ∧ ∀ other, other ≠ name →
      events_of (emit_own name parameters ev) !! other = ev !! other.
Proof.
  intros Hev Hend. split; [|intros other Hne; by apply emit_own_other].
  pose proof (emit_own_completed_smooth _ _ _ _ Hev Hend) as Hs.
  unfold emit_own in *. rewrite Hev in *.
  destruct (pass_end_of _) eqn:Hp; simpl in *; [|done..].
  apply emit_loop_completed in Hp as (Hl & Ho & _).
  rewrite lookup_insert_eq, Ho, Hl. simpl.
  by rewrite splice_once_all, (smooth_kept_marked parameters).
Qed.

Lemma remove_matching_filter cb slots :
  forallb (λ s : option listener, bool_decide (is_Some s)) slots = true →
  remove_matching cb slots
  = (true, filter (λ s, slot_has (fn_id cb) s = false) slots).
Proof.
  induction slots as [|[l|] slots IH]; simpl; [done| |done].
  intros Hs. rewrite IH by done. unfold same_callback.
  destruct l as [[g|] o]; simpl.
  - destruct (Nat.eqb (fn_id g) (fn_id cb)) eqn:Heq.
    + by rewrite filter_cons_False by (simpl; by rewrite Heq).
    + by rewrite filter_cons_True by (simpl; by rewrite Heq).
  - by rewrite filter_cons_True.
Qed.

(** X4. [removeEventListener(name, callback)] on an array without corrupt
    slots removes exactly the listeners whose callback is that function,
    every registration of it, and keeps the others in their order; the
    listeners of other events are as they were. *)
Theorem removeEventListener_removes_every_match (name : string) (cb : function)
    (ev : events) (slots : list (option listener)) :
  name ≠ "" →
  ev !! name = Some slots →
  forallb (λ s : option listener, bool_decide (is_Some s)) slots = true →
  removeEventListener (Some name) (Some cb) ev
  = (Normal (), <[name := filter (λ s, slot_has (fn_id cb) s = false) slots]> ev).
Proof.
  intros Hne Hev Hs. unfold removeEventListener.
  destruct name as [|c name]; [done|].
  by rewrite Hev, remove_matching_filter.
Qed.

Lemma emit_loop_throws parameters pre l f x post : ∀ i lastValue ret onceL,
  smooth parameters pre = true →
  callback l = Some f →
  fn_apply f parameters = Abrupt x →
  let p := emit_loop parameters i (pre ++ Some l :: post) lastValue ret onceL in
  pass_end_of p = Threw x
  ∧ listeners_of p = (marked <$> pre) ++ Some l :: post
  ∧ calls p = calls_in_order parameters pre ++ [ListenerCalled (fn_id f) parameters].
Proof.
  induction pre as [|[l'|] pre IH]; intros i lastValue ret onceL; simpl; [| |done].
  - intros _ Hl Hf. by rewrite Hl, Hf.
  - destruct l' as [[g|] o]; simpl.
    + destruct (fn_apply g parameters) as [v|e]; simpl; [|done].
      intros Hs Hl Hf. edestruct IH as (He & Hls & Hc); [done..|].
      rewrite He, Hls, Hc. done.
    + intros Hs Hl Hf. edestruct IH as (He & Hls & Hc); [done..|].
      rewrite He, Hls, Hc. done.
Qed.

(** X5. A listener that throws ends the pass with what it threw: the
    listeners after it are not called, and nothing is spliced out of the
    array, so that the once-listeners that ran before it are still
    registered (and run again at the next publish). *)
Theorem throwing_listener_aborts_the_pass (name : string)
    (parameters : list value) (ev : events) (pre post : list (option listener))
    (l : listener) (f : function) (x : thrown) :
  ev !! name = Some (pre ++ Some l :: post) →
  smooth parameters pre = true →
  callback l = Some f →
  fn_apply f parameters = Abrupt x →
  end_of (emit_own name parameters ev) = Threw x
  ∧ trace_of (emit_own name parameters ev)
    = calls_in_order parameters pre ++ [ListenerCalled (fn_id f) parameters]
  ∧ events_of (emit_own name parameters ev) !! name
    = Some ((marked <$> pre) ++ Some l :: post)
  ∧ (specialEvent name = false →
     smooth (VStr name :: parameters) (default [] (ev !! "__before__")) = true →
     end_of (emit name parameters ev) = Threw x).
Proof.
  intros Hev Hs Hl Hf.
  assert (Hgen : ∀ ev', ev' !! name = Some (pre ++ Some l :: post) →
            end_of (emit_own name parameters ev') = Threw x
            ∧ trace_of (emit_own name parameters ev')
              = calls_in_order parameters pre ++ [ListenerCalled (fn_id f) parameters]
            ∧ events_of (emit_own name parameters ev') !! name
              = Some ((marked <$> pre) ++ Some l :: post)).
  { intros ev' Hev'. unfold emit_own. rewrite Hev'.
    destruct (emit_loop_throws parameters pre l f x post 0 VUndefined VUndefined []
                Hs Hl Hf) as (He & Hls & Hc).
    rewrite He. simpl. by rewrite lookup_insert_eq, Hls, Hc. }
  destruct (Hgen ev Hev) as (H1 & H2 & H3). split_and!; [done..|].
  intros Hsp Hb. assert (Hne : name ≠ "__before__") by (intros ->; done).
  unfold emit. rewrite Hsp.
  assert (Hbend : end_of (emit_own "__before__" (VStr name :: parameters) ev)
                  = Completed).
  { unfold emit_own. destruct (ev !! "__before__") as [bs|] eqn:Hbs; [|done].
    simpl in Hb.
    apply (emit_loop_smooth _ _ 0 VUndefined VUndefined []) in Hb. by rewrite Hb. }
  rewrite Hbend.
  destruct (Hgen (events_of (emit_own "__before__" (VStr name :: parameters) ev)))
    as (He & _); [by rewrite emit_own_other|].
  by rewrite He.
Qed.

(** A pass over listeners that all return completes and calls them in
    order. *)
Lemma emit_own_smooth name parameters ev :
  smooth parameters (default [] (ev !! name)) = true →
  end_of (emit_own name parameters ev) = Completed
  ∧ trace_of (emit_own name parameters ev)
    = calls_in_order parameters (default [] (ev !! name)).
Proof.
  unfold emit_own. destruct (ev !! name) as [slots|] eqn:Hev; simpl; [|done].
  intros Hs.
  pose proof (proj2 (emit_loop_smooth parameters slots 0 VUndefined VUndefined []) Hs)
    as Hend.
  pose proof (emit_loop_calls parameters slots 0 VUndefined VUndefined [] Hs) as Hc.
  by rewrite Hend.
Qed.

(** X6. The meta-events around a publish, in terms of the listeners
    registered. For an ordinary event [name], when every listener
    concerned returns, [emit] completes and the calls it makes are, in
    this order: the listeners of [__before__], each with the name of the
    event followed by the parameters; the listeners of [name], each with
    the parameters alone; the listeners of [__after__], as those of
    [__before__]; within each group in the order of registration. A
    listener of [__before__] that throws vetoes the publish: [emit] ends
    with what it threw, no listener of [name] or of [__after__] is
    called, and the listeners of [name] are as they were. *)
Theorem emit_wraps_ordinary_events (name : string) (parameters : list value)
    (ev : events) :
  specialEvent name = false →
  plain_event ev name →
  (smooth (VStr name :: parameters) (default [] (ev !! "__before__")) = true →
   smooth parameters (default [] (ev !! name)) = true →
   smooth (VStr name :: parameters) (default [] (ev !! "__after__")) = true →
   end_of (emit name parameters ev) = Completed
   ∧ trace_of (emit name parameters ev)
     = calls_in_order (VStr name :: parameters) (default [] (ev !! "__before__"))
       ++ calls_in_order parameters (default [] (ev !! name))
       ++ calls_in_order (VStr name :: parameters) (default [] (ev !! "__after__")))
  ∧ (∀ pre l f x post,
       ev !! "__before__" = Some (pre ++ Some l :: post) →
       smooth (VStr name :: parameters) pre = true →
       callback l = Some f →
       fn_apply f (VStr name :: parameters) = Abrupt x →
       end_of (emit name parameters ev) = Threw x
       ∧ trace_of (emit name parameters ev)
         = calls_in_order (VStr name :: parameters) pre
           ++ [ListenerCalled (fn_id f) (VStr name :: parameters)]
       ∧ events_of (emit name parameters ev) !! name = ev !! name).
Proof.
  intros Hsp _.
  assert (Hnb : name ≠ "__before__") by (intros ->; done).
  assert (Hna : name ≠ "__after__") by (intros ->; done).
  split.
  - intros Hb Hm Ha.
    destruct (emit_own_smooth "__before__" (VStr name :: parameters) ev Hb)
      as [Hbe Hbt].
    set (b := emit_own "__before__" (VStr name :: parameters) ev) in *.
    assert (Hm' : smooth parameters (default [] (events_of b !! name)) = true).
    { unfold b. by rewrite emit_own_other. }
    destruct (emit_own_smooth name parameters (events_of b) Hm') as [Hme Hmt].
    set (m := emit_own name parameters (events_of b)) in *.
    assert (Ha' : smooth (VStr name :: parameters)
                    (default [] (events_of m !! "__after__")) = true).
    { unfold m. rewrite emit_own_other by done.
      unfold b. by rewrite emit_own_other. }
    destruct (emit_own_smooth "__after__" (VStr name :: parameters) (events_of m) Ha')
      as [Hae Hat].
    unfold emit. rewrite Hsp. fold b. rewrite Hbe. fold m. rewrite Hme, Hae. simpl.
    split; [done|]. rewrite Hbt, Hmt, Hat.
    unfold m. rewrite (emit_own_other name) by done.
    unfold b. by rewrite !emit_own_other.
  - intros pre l f x post Hev Hs Hl Hf.
    unfold emit. rewrite Hsp. unfold emit_own at 1. rewrite Hev.
    destruct (emit_loop_throws (VStr name :: parameters) pre l f x post 0 VUndefined
                VUndefined [] Hs Hl Hf) as (He & Hls & Hc).
    unfold emit_own. rewrite Hev, He. simpl.
    rewrite Hc. split_and!; [done|done|]. by rewrite lookup_insert_ne.
Qed.

End EventEmitterFacts.

(* ===================================================================== *)
(** ** Frames: what a statement leaves alone                              *)
(* ===================================================================== *)

Section Frames.
Context (R : relation World) `{!PreOrder R}.

Lemma respects_ret {A} (a : A) : respects R (mret a).
Proof. intros w. simpl. reflexivity. Qed.

Lemma respects_throw {A} e : respects R (@throw A e).
Proof. intros w. simpl. reflexivity. Qed.

Lemma respects_read {A} (f : World → A) : respects R (read f).
Proof. intros w. simpl. reflexivity. Qed.

Lemma respects_lift {A} (c : completion A) : respects R (lift c).
Proof. destruct c; intros w; simpl; reflexivity. Qed.

Lemma respects_modify f : (∀ w, R w (f w)) → respects R (modify f).
Proof. intros H w. apply H. Qed.

Lemma respects_bind {A C} (m : M A) (k : A → M C) :
  respects R m → (∀ a, respects R (k a)) → respects R (m ≫= k).
Proof.
  intros Hm Hk w. unfold mbind, M_bind. specialize (Hm w).
  destruct (m w) as [[a|e] w']; simpl in *; [|done].
  etrans; [done|apply Hk].
Qed.

Lemma respects_try_catch {A} (m : M A) h :
  respects R m → (∀ e, respects R (h e)) → respects R (try_catch m h).
Proof.
  intros Hm Hh w. unfold try_catch. specialize (Hm w).
  destruct (m w) as [[a|e] w']; simpl in *; [done|].
  etrans; [done|apply Hh].
Qed.

End Frames.

#[global] Instance same_preorder {B} (F : World → B) : PreOrder (same F).
Proof. split; [by intros w|]. intros w1 w2 w3 H1 H2. unfold same in *. congruence. Qed.

(** Decompose a statement into its primitive steps and discharge the steps
    that do not touch the component. *)
Ltac frame_step :=
  first
    [ apply respects_ret; tc_solve | apply respects_throw; tc_solve
    | apply respects_read; tc_solve | apply respects_lift; tc_solve
    | apply respects_bind; [tc_solve| |]
    | apply respects_try_catch; [tc_solve| |]
    | apply respects_modify; intros w; reflexivity
    | match goal with
      | |- respects _ (match ?x with _ => _ end) => destruct x
      | |- respects _ (let '(_, _) := ?x in _) => destruct x
      | |- ∀ _, _ => intros ?
      end ].
Ltac frame := repeat frame_step.

(** Evaluate the statements of the monad applied to a state. *)
Ltac run_js :=
  repeat (unfold mbind, M_bind, mret, M_ret, read, modify, throw, log, lift,
            try_catch; cbn).

(* ===================================================================== *)
(** ** Properties of the client                                           *)
(* ===================================================================== *)

Section ClientFacts.

Variable env : platform.

(** *** The job queue *)

Ltac unfold_jobs :=
  unfold run_job, getApi_resume, field_of, new_APIPointer, guid4, resolve,
    reject, settle, log.

Lemma run_job_keeps {B} (F : World → B) j :
  (∀ f w, F (with_promises f w) = F w) →
  (∀ f w, F (with_pointers f w) = F w) →
  (∀ f w, F (with_guids f w) = F w) →
  (∀ f w, F (with_trace f w) = F w) →
  keeps F (run_job env j).
Proof.
  intros Hpr Hpt Hg Ht. destruct j; unfold_jobs; frame;
    apply respects_modify; intros w; unfold same; auto.
Qed.

Lemma run_jobs_keeps {B} (F : World → B) js :
  (∀ f w, F (with_promises f w) = F w) →
  (∀ f w, F (with_pointers f w) = F w) →
  (∀ f w, F (with_guids f w) = F w) →
  (∀ f w, F (with_trace f w) = F w) →
  keeps F (run_jobs env js).
Proof.
  intros Hpr Hpt Hg Ht. induction js as [|j js IH]; simpl; frame; [|done].
  by apply run_job_keeps.
Qed.

(** A job never throws: what its code throws rejects its promise. *)
Lemma run_job_normal j w : ∃ kept, (run_job env j w).1 = Normal kept.
Proof.
  destruct j as [p a g o|e]; unfold_jobs; run_js; [|eauto].
  destruct (promises w !! p) as [[|r|e]|]; run_js; eauto.
  destruct r as [v|q]; run_js.
  - destruct (get v "error") as [err|e]; run_js; [|eauto].
    destruct (truthy err); run_js; [eauto|].
    destruct (get v "version"); run_js; eauto.
  - destruct (truthy _); run_js; eauto.
Qed.

Lemma run_jobs_normal js : ∀ w, ∃ kept, (run_jobs env js w).1 = Normal kept.
Proof.
  induction js as [|j js IH]; intros w; simpl; [by eexists|].
  unfold mbind, M_bind.
  destruct (run_job_normal j w) as [k Hk].
  destruct (run_job env j w) as [c w1]. simpl in Hk. subst c.
  destruct (IH w1) as [k' Hk'].
  destruct (run_jobs env js w1) as [c w2]. simpl in Hk'. subst c.
  by eexists.
Qed.

Lemma drain_keeps {B} (F : World → B) w :
  (∀ f w, F (with_promises f w) = F w) →
  (∀ f w, F (with_pointers f w) = F w) →
  (∀ f w, F (with_guids f w) = F w) →
  (∀ f w, F (with_trace f w) = F w) →
  (∀ f w, F (with_jobs f w) = F w) →
  F (drain env w) = F w.
Proof.
  intros Hpr Hpt Hg Ht Hj. unfold drain.
  pose proof (run_jobs_keeps F (jobs w) Hpr Hpt Hg Ht (with_jobs (λ _, []) w)) as H.
  destruct (run_jobs env (jobs w) _) as [[kept|e] w']; simpl in H.
  - by rewrite Hj, H, Hj.
  - by rewrite Ht, H, Hj.
Qed.

Lemma drain_api w : api (drain env w) = api w.
Proof. by apply drain_keeps. Qed.

Lemma drain_outbox w : outbox (drain env w) = outbox w.
Proof. by apply drain_keeps. Qed.

#[local] Instance job_frame_preorder js : PreOrder (job_frame js).
Proof.
  split.
  - intros w. by repeat split.
  - intros w1 w2 w3 (Hl1 & Ha1 & Hs1 & Hg1) (Hl2 & Ha2 & Hs2 & Hg2).
    split_and!.
    + congruence.
    + intros q Hq. rewrite Ha2, Ha1; done.
    + intros q st Hq Hst. eauto.
    + lia.
Qed.

Lemma job_frame_settle js p a g o st :
  AwaitRegister p a g o ∈ js → respects (job_frame js) (settle o st).
Proof.
  intros Hin. unfold settle. apply respects_modify. intros w.
  unfold job_frame. simpl.
  destruct (promises w !! o) as [[| |]|] eqn:Ho; try by repeat split.
  split_and!.
  - by rewrite length_insert.
  - intros q Hq. apply list_lookup_insert_ne. by eapply Hq.
  - intros q st' Hq Hst. destruct (decide (o = q)) as [->|Hne].
    + congruence.
    + by rewrite list_lookup_insert_ne.
  - done.
Qed.

Lemma run_job_frame js j : j ∈ js → respects (job_frame js) (run_job env j).
Proof.
  intros Hin. pose proof (job_frame_preorder js).
  pose proof (job_frame_settle js) as Hsettle.
  destruct j as [p a g o|e]; unfold run_job, getApi_resume, field_of,
    new_APIPointer, guid4, resolve, reject, log; frame;
    try (by eapply Hsettle);
    apply respects_modify; intros w; repeat split; simpl; auto with lia.
Qed.

Lemma job_frame_mono js js' w w' :
  js ⊆ js' → job_frame js w w' → job_frame js' w w'.
Proof.
  intros Hsub (Hl & Ha & Hs & Hg). split_and!; try done.
  intros q Hq. apply Ha. intros p a g o Hin. eapply Hq. by apply Hsub.
Qed.

Lemma run_jobs_frame js : respects (job_frame js) (run_jobs env js).
Proof.
  induction js as [|j js IH]; simpl.
  - apply respects_ret; tc_solve.
  - apply respects_bind; [tc_solve|apply run_job_frame; left|].
    intros kept. apply respects_bind; [tc_solve| |intros; apply respects_ret; tc_solve].
    intros w. eapply job_frame_mono; [|apply IH]. set_solver.
Qed.

(** A job stays queued as it is, or is done. *)
Lemma run_job_kept j w :
  (run_job env j w).1 = Normal [] ∨ (run_job env j w) = (Normal [j], w).
Proof.
  destruct j as [p a g o|e]; unfold_jobs; run_js; [|by left].
  destruct (promises w !! p) as [[|r|e]|]; run_js; auto.
  destruct r as [v|q]; run_js.
  - destruct (get v "error") as [err|e]; run_js; [|auto].
    destruct (truthy err); run_js; [auto|].
    destruct (get v "version"); run_js; auto.
  - destruct (truthy _); run_js; auto.
Qed.

Lemma run_jobs_kept js : ∀ w kept,
  (run_jobs env js w).1 = Normal kept → kept ⊆ js.
Proof.
  induction js as [|j js IH]; intros w kept; simpl.
  - intros [= <-]. done.
  - unfold mbind, M_bind.
    pose proof (run_job_kept j w) as Hj.
    destruct (run_job env j w) as [[k|e] w1] eqn:Hrun; simpl in Hj;
      [|by destruct Hj].
    specialize (IH w1).
    destruct (run_jobs env js w1) as [[k'|e'] w2]; simpl in *; [|done].
    intros [= <-]. specialize (IH k' eq_refl).
    destruct Hj as [[= ->]|[= -> _]]; simpl; intros x Hx.
    + right. by apply IH.
    + apply elem_of_cons in Hx as [->|Hx]; [left|right; by apply IH].
Qed.

Lemma run_jobs_app js1 js2 w :
  run_jobs env (js1 ++ js2) w
  = (kept1 ← run_jobs env js1; kept2 ← run_jobs env js2; mret (kept1 ++ kept2)) w.
Proof.
  revert w. induction js1 as [|j js1 IH]; intros w; simpl.
  - unfold mbind, M_bind, mret, M_ret. simpl.
    by destruct (run_jobs env js2 w) as [[k|e] w'].
  - unfold mbind, M_bind, mret, M_ret in *.
    destruct (run_job env j w) as [[k|e] w1]; [|done].
    rewrite IH.
    destruct (run_jobs env js1 w1) as [[k1|e1] w2]; [|done].
    destruct (run_jobs env js2 w2) as [[k2|e2] w3]; [|done].
    by rewrite app_assoc.
Qed.

(** A settled promise is settled for good. *)
Lemma drain_settled w q st :
  promises w !! q = Some st → st ≠ Pending →
  promises (drain env w) !! q = Some st.
Proof.
  intros Hq Hst. unfold drain.
  pose proof (run_jobs_frame (jobs w) (with_jobs (λ _, []) w)) as (_ & _ & Hs & _).
  specialize (Hs q st Hq Hst).
  by destruct (run_jobs env (jobs w) _) as [[kept|e] w'].
Qed.

Lemma jobs_wf_nil w : jobs w = [] → jobs_wf w.
Proof. intros Hj p a g o. rewrite Hj. by intros ?%elem_of_nil. Qed.

Lemma jobs_wf_avoids w q :
  jobs_wf w → (length (promises w) ≤ q)%nat → avoids (jobs w) q.
Proof. intros Hwf Hq p a g o Hin. specialize (Hwf p a g o Hin). lia. Qed.

Lemma drain_avoided w q :
  avoids (jobs w) q → promises (drain env w) !! q = promises w !! q.
Proof.
  intros Hq. unfold drain.
  pose proof (run_jobs_frame (jobs w) (with_jobs (λ _, []) w)) as (_ & Ha & _).
  specialize (Ha q Hq).
  by destruct (run_jobs env (jobs w) _) as [[kept|e] w'].
Qed.

(** *** Inbound messages *)

Ltac unfold_handler :=
  unfold on_ready, on_trigger, on_new_intent, on_run_console_completed,
    on_run_completed, on_pointer_created, postRunResult, emit, call_onCreate,
    call_onNewIntent, call_onUpdateRouterContext, delete_request,
    update_pointer, resolve, reject, settle, log.

Lemma guard_object s d k :
  is_string s (get_opt d k) = true → ∃ fields, d = VObj fields.
Proof. destruct d; try done. eauto. Qed.

Lemma is_string_eq s v : is_string s v = true ↔ v = VStr s.
Proof.
  destruct v; simpl; try (split; [done|congruence]).
  rewrite String.eqb_eq. split; congruence.
Qed.

Lemma get_not_nullish v k : nullish v = false → get v k = Normal (get_opt v k).
Proof. by destruct v. Qed.

(** No inbound message makes the client post anything. *)
Lemma handleParentMessage_outbox ev : keeps outbox (handleParentMessage ev).
Proof. unfold handleParentMessage. unfold_handler. frame. Qed.

Lemma deliver_outbox ev w : outbox (deliver env ev w) = outbox w.
Proof.
  unfold deliver. pose proof (handleParentMessage_outbox ev w) as H.
  destruct (handleParentMessage ev w) as [[u|e] w']; by rewrite drain_outbox.
Qed.

Lemma deliver_api ev w : api (deliver env ev w) = api (handleParentMessage ev w).2.
Proof.
  unfold deliver.
  destruct (handleParentMessage ev w) as [[u|e] w']; by rewrite drain_api.
Qed.

(** The cases other than [api:ready] leave the endpoint alone. *)
Lemma on_trigger_endpoint m : keeps (λ w, valuApplication (api w)) (on_trigger m).
Proof. unfold_handler. frame. Qed.

Lemma on_new_intent_endpoint m :
  keeps (λ w, valuApplication (api w)) (on_new_intent m).
Proof. unfold_handler. frame. Qed.

Lemma on_run_console_completed_endpoint r m :
  keeps (λ w, valuApplication (api w)) (on_run_console_completed r m).
Proof. unfold_handler. frame. Qed.

Lemma on_run_completed_endpoint r m :
  keeps (λ w, valuApplication (api w)) (on_run_completed r m).
Proof. unfold_handler. frame. Qed.

Lemma on_pointer_created_endpoint r m :
  keeps (λ w, valuApplication (api w)) (on_pointer_created r m).
Proof. unfold_handler. frame. Qed.

(** What follows the capture in [case 'api:ready'] leaves it alone. *)
Lemma on_ready_endpoint ev m w :
  nullish m = false →
  valuApplication (api (on_ready ev m w).2)
  = Some {| ep_id := get_opt m "applicationId"; source := ev_source ev;
            origin := ev_origin ev |}.
Proof.
  intros Hm. unfold on_ready. rewrite !get_not_nullish by done.
  unfold_handler. run_js. repeat case_match; simplify_eq; done.
Qed.

Lemma handle_inbound name ev :
  inbound name ev = true →
  ∃ fields, data ev = VObj fields
            ∧ own fields "target" = VStr "valuApi"
            ∧ own fields "name" = VStr name.
Proof.
  unfold inbound. intros [Ht Hn]%andb_true_iff.
  destruct (guard_object _ _ _ Ht) as [fields Hd]. exists fields.
  rewrite Hd in Ht, Hn. simpl in Ht, Hn.
  apply is_string_eq in Ht, Hn. done.
Qed.

(** C3, as amended. The endpoint after an inbound message: a readiness
    message whose payload is not [undefined] or [null] sets it to the
    source and origin of that very message, be it the first such message
    or a later one; every other message leaves it as it was. *)
Theorem endpoint_follows_readiness_messages (w : World) (ev : MessageEvent) :
  valuApplication (api (deliver env ev w))
  = if readiness ev then Some (endpoint_of ev) else valuApplication (api w).
Proof.
  rewrite deliver_api.
  unfold readiness, inbound, handleParentMessage, endpoint_of, message_of.
  destruct (is_string "valuApi" _) eqn:Ht; simpl; [|done].
  destruct (guard_object _ _ _ Ht) as [fields Hd]. rewrite Hd. simpl.
  run_js.
  destruct (is_string "api:ready" _) eqn:Hready; simpl.
  { destruct (nullish (own fields "message")) eqn:Hm; simpl.
    - unfold on_ready. by destruct (own fields "message").
    - by apply on_ready_endpoint. }
  destruct (is_string "api:trigger" _); [apply on_trigger_endpoint|].
  destruct (is_string "api:new-intent" _); [apply on_new_intent_endpoint|].
  destruct (is_string "api:run-console-completed" _);
    [apply on_run_console_completed_endpoint|].
  destruct (is_string "api:run-completed" _); [apply on_run_completed_endpoint|].
  destruct (is_string "api:pointer-created" _); [apply on_pointer_created_endpoint|].
  done.
Qed.

(** C2. An [api:new-intent] message with a shell bound: [onNewIntent] is
    called with the Intent built from the payload, and that is all. The
    state after the handler is the state before it plus the record of the
    call, whatever the method returned or threw: nothing is posted to the
    host, so no reply carries the result. *)
Theorem new_intent_result_is_dropped (w : World) (ev : MessageEvent)
    (app : ValuApplication) :
  inbound "api:new-intent" ev = true →
  nullish (message_of ev) = false →
  applicationInstance (api w) = Some app →
  (handleParentMessage ev w).2
    = with_trace (λ tr, tr ++ [OnNewIntentCalled (app_id app) (intent_of ev)]) w
  ∧ outbox (deliver env ev w) = outbox w.
Proof.
  intros Hin Hm Happ. split; [|apply deliver_outbox].
  destruct (handle_inbound _ _ Hin) as (fields & Hd & Ht & Hn).
  unfold handleParentMessage, intent_of, message_of in *. rewrite Hd in *.
  simpl in *. rewrite Ht, Hn. run_js.
  unfold on_new_intent. rewrite !get_not_nullish by done. run_js.
  rewrite Happ. unfold call_onNewIntent. run_js.
  by destruct (onNewIntent app _).
Qed.


Lemma on_ready_normal ev m w :
  nullish m = false →
  (on_ready ev m w).1 = Normal () →
  lastIntent (api (on_ready ev m w).2)
  = Some (new_Intent (get_opt m "applicationId") (get_opt m "action")
            (get_opt m "params")).
Proof.
  intros Hm. unfold on_ready. rewrite !get_not_nullish by done.
  unfold_handler. run_js.
  destruct (EventEmitter.end_of _); run_js; try done;
    (destruct (applicationInstance (api w)) as [app|]; run_js; [|done];
     destruct (onCreate app _); run_js; done).
Qed.

Lemma handle_ready ev w :
  readiness ev = true →
  handleParentMessage ev w = on_ready ev (message_of ev) w
  ∧ nullish (message_of ev) = false.
Proof.
  unfold readiness. intros [Hin Hm]%andb_true_iff.
  apply negb_true_iff in Hm. split; [|done].
  destruct (handle_inbound _ _ Hin) as (fields & Hd & Ht & Hn).
  unfold handleParentMessage, message_of in *. rewrite Hd in *. simpl.
  rewrite Ht, Hn. by run_js.
Qed.


(** C7. A readiness message is handled to its end, and then a shell is
    bound: [setApplication] calls [onCreate] of that shell at once, with
    the Intent built from the readiness message. *)
Theorem setApplication_replays_launch_intent (w : World) (ev : MessageEvent)
    (shell : ValuApplication) :
  readiness ev = true →
  (handleParentMessage ev w).1 = Normal () →
  lastIntent (api (deliver env ev w)) = Some (intent_of ev)
  ∧ trace (setApplication shell (deliver env ev w)).2
    = trace (deliver env ev w) ++ [OnCreateCalled (app_id shell) (intent_of ev)]
  ∧ applicationInstance (api (setApplication shell (deliver env ev w)).2)
    = Some shell.
Proof.
  intros Hready Hdone.
  assert (Hlast : lastIntent (api (deliver env ev w)) = Some (intent_of ev)).
  { rewrite deliver_api. destruct (handle_ready ev w Hready) as [Hh Hm].
    rewrite Hh in *. by apply on_ready_normal. }
  split; [done|].
  unfold setApplication, call_onCreate, catch_console_error. run_js.
  rewrite Hlast. run_js.
  destruct (onCreate shell _) as [[v|[v|e]]|e]; run_js; done.
Qed.

(** *** Replies *)

Lemma delete_absent_request w k :
  requests (api w) !! k = None →
  with_api (with_requests (λ r, delete k r)) w = w.
Proof.
  destruct w as [[ev va rq li ai] pr pt jb i g ob tr inh]. simpl. intros H.
  unfold with_api, with_requests. simpl. by rewrite delete_id.
Qed.

Lemma handle_reply name ev w :
  inbound name ev = true →
  reply_kind name = true →
  handleParentMessage ev w
  = (if String.eqb name "api:run-console-completed"
     then on_run_console_completed (requestId_of ev) (message_of ev)
     else if String.eqb name "api:run-completed"
     then on_run_completed (requestId_of ev) (message_of ev)
     else on_pointer_created (requestId_of ev) (message_of ev)) w.
Proof.
  intros Hin Hkind.
  destruct (handle_inbound _ _ Hin) as (fields & Hd & Ht & Hn).
  unfold handleParentMessage, requestId_of, message_of. rewrite Hd. simpl.
  rewrite Ht, Hn. simpl. run_js.
  unfold reply_kind in Hkind.
  destruct (String.eqb_spec name "api:run-console-completed") as [->|_]; [done|].
  destruct (String.eqb_spec name "api:run-completed") as [->|_]; [done|].
  destruct (String.eqb_spec name "api:pointer-created") as [->|_]; [done|].
  done.
Qed.

(** C4, on the code. A reply of one of the three kinds, with an
    identifier that is no own key of the table of pending requests.
    When the identifier names nothing that the table inherits, the reply
    is dropped: the handler returns normally, and the state after it is
    the state before it plus the one diagnostic of that kind; so no
    promise is settled and no entry is touched. When it names an inherited
    property ([constructor], [get], [toString], ...), the bracket read of
    the table finds that property: the handler takes it for the waiter,
    calls a method it does not have and throws a TypeError, without a
    diagnostic; the state is as it was. [postRunResult] of a pointer that
    does not know the identifier does the same on the table of the
    pointer; and when the client holds a pointer for the identifier but
    that pointer does not know it, the handler logs, settles nothing, and
    frees that one entry only. *)
Theorem unknown_reply_is_dropped (w : World) (ev : MessageEvent) :
  key_exact (requestId_of ev) = true →
  (∀ name,
     inbound name ev = true → reply_kind name = true →
     requests (api w) !! to_key (requestId_of ev) = None →
     handleParentMessage ev w
     = if inherited w (to_key (requestId_of ev))
       then (Abrupt (fault_of name), w)
       else (Normal (),
             with_trace (λ tr, tr ++ [diagnostic_of name (requestId_of ev)]) w))
  ∧ (∀ this o result,
       pointers w !! this = Some o →
       apiCalls o !! to_key (requestId_of ev) = None →
       postRunResult this (requestId_of ev) result w
       = if inherited w (to_key (requestId_of ev))
         then (Abrupt (TypeError (if truthy (get_opt result "error")
                                  then "deferred.reject is not a function"
                                  else "deferred.resolve is not a function")), w)
         else (Normal (),
               with_trace
                 (λ tr, tr ++ [ConsoleError ("Failed to postRunResult for "
                                             +:+ to_key (requestId_of ev))]) w))
  ∧ (∀ this o,
       inbound "api:run-completed" ev = true →
       requests (api w) !! to_key (requestId_of ev) = Some (PPointer this) →
       pointers w !! this = Some o →
       apiCalls o !! to_key (requestId_of ev) = None →
       inherited w (to_key (requestId_of ev)) = false →
       handleParentMessage ev w
       = (Normal (),
          with_api (with_requests (λ r, delete (to_key (requestId_of ev)) r))
            (with_trace
               (λ tr, tr ++ [ConsoleError ("Failed to postRunResult for "
                                           +:+ to_key (requestId_of ev))]) w))).
Proof.
  intros _. split_and!.
  - intros name Hin Hkind Hnone. rewrite (handle_reply name) by done.
    unfold diagnostic_of, fault_of.
    destruct (String.eqb_spec name "api:run-console-completed") as [->|_];
      [|destruct (String.eqb name "api:run-completed")];
      unfold_handler; run_js; rewrite Hnone; run_js;
      destruct (inherited w _); run_js; rewrite ?delete_absent_request; done.
  - intros this o result Ho Hnone. unfold_handler. run_js.
    rewrite Ho. simpl. rewrite Hnone. run_js.
    destruct (inherited w _); run_js; [|done].
    by destruct (truthy _).
  - intros this o Hin Hentry Ho Hnone Hord.
    rewrite (handle_reply "api:run-completed") by done. simpl.
    unfold_handler. run_js. rewrite Hentry. run_js.
    rewrite Ho. simpl. rewrite Hnone. run_js. by rewrite Hord.
Qed.

(** *** Outbound requests *)

Lemma postToValuApp_throws name message w e :
  post_throws env (valuApplication (api w)) (envelope name message) = Some e →
  postToValuApp env name message w = (Abrupt e, w).
Proof.
  unfold post_throws, postToValuApp. run_js.
  destruct (valuApplication (api w)) as [ep|]; run_js; [|by intros [= <-]].
  destruct (source ep); run_js; [|by intros [= <-]].
  by intros ->.
Qed.

Lemma postToValuApp_posts name message w :
  post_throws env (valuApplication (api w)) (envelope name message) = None →
  ∃ ep window,
    valuApplication (api w) = Some ep ∧ source ep = Some window
    ∧ postToValuApp env name message w
      = (Normal (),
         with_outbox (λ o, o ++ [(window, envelope name message, origin ep)]) w).
Proof.
  unfold post_throws, postToValuApp. run_js.
  destruct (valuApplication (api w)) as [ep|]; run_js; [|done].
  destruct (source ep) as [window|] eqn:Hs; run_js; [|done].
  intros ->. by exists ep, window.
Qed.

(** The shape shared by [sendIntent], [callService] and
    [#registerApiPointer]: create the deferred, post, then [rest]. When the
    post throws, [rest] never runs. *)
Lemma post_first_rejected name (msg : value → value) (rest : Deferred → M nat) w e :
  post_throws env (valuApplication (api w))
    (envelope name (msg (nextId_at env (ids w)))) = Some e →
  async (deferredPromise ← createDeferred env;
         postToValuApp env name (msg (id deferredPromise));;
         rest deferredPromise) w
  = (Normal (S (length (promises w))),
     with_promises (λ ps, ps ++ [Rejected e])
       (with_ids S (with_promises (λ ps, ps ++ [Pending]) w))).
Proof.
  intros Hpost. unfold async, createDeferred, new_promise, nextId. run_js.
  rewrite (postToValuApp_throws name _ _ e) by done. run_js.
  rewrite length_app. simpl. do 2 f_equal. lia.
Qed.

Lemma post_first_untouched name msg rest w e :
  post_throws env (valuApplication (api w))
    (envelope name (msg (nextId_at env (ids w)))) = Some e →
  rejected_untouched env
    (async (deferredPromise ← createDeferred env;
            postToValuApp env name (msg (id deferredPromise));;
            rest deferredPromise)) w e.
Proof.
  intros Hpost. exists (S (length (promises w))). unfold call.
  rewrite (post_first_rejected _ _ _ _ e) by done. simpl.
  split_and!; [done| |by rewrite drain_api|by rewrite drain_outbox].
  apply drain_settled; [|done]. simpl.
  rewrite lookup_app_r; rewrite length_app; simpl; [|lia].
  by replace (S (length (promises w)) - (length (promises w) + 1)) with 0 by lia.
Qed.

(** C9. [sendIntent], [callService] and the registration step of
    [getApi] post before they record the waiter. If the post throws for
    the message of the call (no endpoint captured yet, a [null] source, or
    an exception of [postMessage] itself), the promise handed back is
    rejected with what was thrown, and the table of pending requests is
    exactly as it was before the call; nothing was posted either. *)
Theorem failed_post_records_no_waiter (w : World) (intent : Intent)
    (apiName version guid : value) :
  (∀ e, post_throws env (valuApplication (api w))
          (envelope "api:run-intent"
             (intent_message intent (nextId_at env (ids w)))) = Some e →
        rejected_untouched env (sendIntent env intent) w e)
  ∧ (∀ e, post_throws env (valuApplication (api w))
            (envelope "api:service-intent"
               (intent_message intent (nextId_at env (ids w)))) = Some e →
          rejected_untouched env (callService env intent) w e)
  ∧ (∀ e, post_throws env (valuApplication (api w))
            (envelope "api:create-pointer"
               (VObj [("guid", guid); ("api", apiName); ("version", version);
                      ("requestId", nextId_at env (ids w))])) = Some e →
          rejected_untouched env (registerApiPointer env apiName version guid) w e).
Proof.
  split_and!; intros e Hpost.
  - by apply (post_first_untouched "api:run-intent" (intent_message intent)).
  - by apply (post_first_untouched "api:service-intent" (intent_message intent)).
  - by apply (post_first_untouched "api:create-pointer"
                (λ i, VObj [("guid", guid); ("api", apiName);
                            ("version", version); ("requestId", i)])).
Qed.

(** *** Console commands *)

(** A console reply for an identifier whose entry is a deferred with a
    pending promise fulfils that promise with the payload. *)
Lemma console_reply_settles ev w d :
  inbound "api:run-console-completed" ev = true →
  requests (api w) !! to_key (requestId_of ev) = Some (PDeferred d) →
  promises w !! promise d = Some Pending →
  promises (deliver env ev w) !! promise d
  = Some (Fulfilled (Value (message_of ev))).
Proof.
  intros Hin Hentry Hp. unfold deliver.
  rewrite (handle_reply "api:run-console-completed") by done. simpl.
  unfold_handler. run_js. rewrite Hentry. run_js.
  apply drain_settled; [|done]. simpl. rewrite Hp.
  apply list_lookup_insert_eq. by eapply lookup_lt_Some.
Qed.

Lemma runConsoleCommand_posted command w :
  post_throws env (valuApplication (api w))
    (envelope "api:run-console"
       (VObj [("requestId", nextId_at env (ids w)); ("command", command)])) = None →
  ∃ w1, runConsoleCommand env command w = (Normal (length (promises w)), w1)
        ∧ promises w1 = promises w ++ [Pending]
        ∧ jobs w1 = jobs w
        ∧ requests (api w1)
          = <[to_key (nextId_at env (ids w)) :=
                PDeferred {| id := nextId_at env (ids w);
                             promise := length (promises w) |}]>
              (requests (api w)).
Proof.
  intros Hpost.
  unfold runConsoleCommand, async, createDeferred, new_promise, nextId,
    set_request. run_js.
  edestruct postToValuApp_posts as (ep & window & _ & _ & ->); [exact Hpost|].
  eexists. split; [done|]. done.
Qed.

(** C6. A console command is sent from a connected client, and the host
    answers with the payload [message]: the promise of [runConsoleCommand]
    is pending until then and is fulfilled, not rejected, with exactly
    [message], be it a result or the text of an error. The same holds in
    any later state in which the request is still pending. *)
Theorem console_command_resolves_with_payload (w : World)
    (command : value) (ev : MessageEvent) :
  jobs_wf w →
  post_throws env (valuApplication (api w))
    (envelope "api:run-console"
       (VObj [("requestId", nextId_at env (ids w)); ("command", command)])) = None →
  inbound "api:run-console-completed" ev = true →
  requestId_of ev = nextId_at env (ids w) →
  ∃ p,
    (call env (runConsoleCommand env command) w).1 = Normal p
    ∧ promises (call env (runConsoleCommand env command) w).2 !! p = Some Pending
    ∧ promises (deliver env ev (call env (runConsoleCommand env command) w).2) !! p
      = Some (Fulfilled (Value (message_of ev)))
    ∧ ∀ w',
        requests (api w') !! to_key (requestId_of ev)
          = requests (api (call env (runConsoleCommand env command) w).2)
              !! to_key (requestId_of ev) →
        promises w' !! p = Some Pending →
        promises (deliver env ev w') !! p
        = Some (Fulfilled (Value (message_of ev))).
Proof.
  intros Hwf Hpost Hin Hid.
  destruct (runConsoleCommand_posted command w Hpost) as (w1 & Hrun & Hpr & Hjobs & Hreq).
  exists (length (promises w)). unfold call. rewrite Hrun. simpl.
  assert (Hpending : promises (drain env w1) !! length (promises w) = Some Pending).
  { rewrite drain_avoided.
    - rewrite Hpr. by apply list_lookup_middle.
    - rewrite Hjobs. by apply jobs_wf_avoids. }
  assert (Hentry : requests (api (drain env w1)) !! to_key (requestId_of ev)
                   = Some (PDeferred {| id := nextId_at env (ids w);
                                        promise := length (promises w) |})).
  { rewrite drain_api, Hreq, Hid. apply lookup_insert_eq. }
  split_and!; [done|done| |].
  - by apply (console_reply_settles ev _ _ Hin Hentry).
  - intros w' Hsame Hp. rewrite Hentry in Hsame.
    by apply (console_reply_settles ev _ _ Hin Hsame).
Qed.

(** *** The round trip of [getApi] *)

(** [getApi] up to its [await], when the post goes through. *)
Lemma getApi_posted apiName version w :
  post_throws env (valuApplication (api w))
    (envelope "api:create-pointer"
       (create_pointer_message apiName version (guid4_at env (guids w))
          (nextId_at env (ids w)))) = None →
  ∃ w1 ep window,
    getApi env apiName version w = (Normal (S (length (promises w))), w1)
    ∧ valuApplication (api w) = Some ep ∧ source ep = Some window
    ∧ promises w1 = promises w ++ [Pending; Pending]
    ∧ pointers w1 = pointers w
    ∧ guids w1 = S (guids w)
    ∧ jobs w1 = jobs w ++ [AwaitRegister (length (promises w)) apiName
                             (guid4_at env (guids w)) (S (length (promises w)))]
    ∧ outbox w1
      = outbox w ++ [(window,
                      envelope "api:create-pointer"
                        (create_pointer_message apiName version
                           (guid4_at env (guids w)) (nextId_at env (ids w))),
                      origin ep)]
    ∧ requests (api w1)
      = <[to_key (nextId_at env (ids w)) :=
            PDeferred {| id := nextId_at env (ids w);
                         promise := length (promises w) |}]>
          (requests (api w)).
Proof.
  intros Hpost.
  unfold getApi, registerApiPointer, async, createDeferred, new_promise, nextId,
    guid4, set_request. run_js.
  edestruct postToValuApp_posts as (ep & window & Hep & Hw & ->); [exact Hpost|].
  run_js. simpl in Hep. eexists _, ep, window.
  rewrite length_app. simpl.
  replace (length (promises w) + 1) with (S (length (promises w))) by lia.
  split; [done|]. split_and!; try done. simpl. by rewrite <- app_assoc.
Qed.

Lemma run_jobs_jobs js : keeps jobs (run_jobs env js).
Proof. by apply run_jobs_keeps. Qed.

(** Draining a queue whose last job is [j]: the jobs before it run, then
    [j] runs in the state they leave. *)
Lemma drain_last w js j :
  jobs w = js ++ [j] →
  ∃ kept w1,
    run_jobs env js (with_jobs (λ _, []) w) = (Normal kept, w1)
    ∧ kept ⊆ js
    ∧ jobs w1 = []
    ∧ drain env w
      = match (run_job env j w1).1 with
        | Normal k => with_jobs (λ later, (kept ++ k) ++ later) (run_job env j w1).2
        | Abrupt e => with_trace (λ tr, tr ++ [Uncaught e]) (run_job env j w1).2
        end.
Proof.
  intros Hjobs. unfold drain. rewrite Hjobs, run_jobs_app.
  unfold mbind, M_bind, mret, M_ret.
  destruct (run_jobs_normal js (with_jobs (λ _, []) w)) as [kept Hk].
  pose proof (run_jobs_kept js (with_jobs (λ _, []) w) kept Hk) as Hsub.
  pose proof (run_jobs_jobs js (with_jobs (λ _, []) w)) as Hj.
  destruct (run_jobs env js _) as [c w1]. simpl in Hk, Hj. subst c.
  exists kept, w1. split_and!; [done|done|done|]. simpl.
  unfold mbind, M_bind, mret, M_ret.
  destruct (run_job env j w1) as [[k|e] w2]; simpl; [|done].
  by rewrite app_nil_r.
Qed.

Lemma run_job_pending p a g o w :
  promises w !! p = Some Pending →
  run_job env (AwaitRegister p a g o) w = (Normal [AwaitRegister p a g o], w).
Proof. intros Hp. unfold run_job. run_js. by rewrite Hp. Qed.

(** The continuation of [getApi] on a reply without an error. *)
Lemma run_job_fulfilled p a g o m w :
  promises w !! p = Some (Fulfilled (Value m)) →
  nullish m = false →
  truthy (get_opt m "error") = false →
  promises w !! o = Some Pending →
  ∃ w',
    run_job env (AwaitRegister p a g o) w = (Normal [], w')
    ∧ promises w' !! o = Some (Fulfilled (Pointer (length (pointers w))))
    ∧ pointers w' !! length (pointers w)
      = Some {| apiName := a; version := get_opt m "version";
                guid := guid4_at env (guids w);
                eventEmitter := EventEmitter.new; runRequest := g;
                apiCalls := ∅ |}
    ∧ jobs w' = jobs w.
Proof.
  intros Hp Hm Herr Ho. unfold_jobs. run_js. rewrite Hp. run_js.
  rewrite !get_not_nullish by done. run_js. rewrite Herr. run_js.
  eexists. split; [done|]. simpl. rewrite Ho.
  split_and!; [|by apply list_lookup_middle|done].
  apply list_lookup_insert_eq. by eapply lookup_lt_Some.
Qed.

(** A pointer-created reply for an identifier whose entry is a deferred
    with a pending promise fulfils that promise with the payload and
    frees the identifier. *)
Lemma pointer_created_settles ev w d :
  inbound "api:pointer-created" ev = true →
  requests (api w) !! to_key (requestId_of ev) = Some (PDeferred d) →
  promises w !! promise d = Some Pending →
  ∃ w',
    handleParentMessage ev w = (Normal (), w')
    ∧ promises w' = <[promise d := Fulfilled (Value (message_of ev))]> (promises w)
    ∧ pointers w' = pointers w ∧ guids w' = guids w ∧ jobs w' = jobs w.
Proof.
  intros Hin Hentry Hp.
  rewrite (handle_reply "api:pointer-created") by done. simpl.
  unfold_handler. run_js. rewrite Hentry. run_js.
  eexists. split; [done|]. simpl. by rewrite Hp.
Qed.

(** The round trip: [getApi(apiName, version)] from a connected client,
    then the reply of the host without an error. *)
Lemma getApi_round_trip (w : World) (apiName version : value) (ev : MessageEvent) :
  jobs_wf w →
  post_throws env (valuApplication (api w))
    (envelope "api:create-pointer"
       (create_pointer_message apiName version (guid4_at env (guids w))
          (nextId_at env (ids w)))) = None →
  inbound "api:pointer-created" ev = true →
  requestId_of ev = nextId_at env (ids w) →
  nullish (message_of ev) = false →
  truthy (get_opt (message_of ev) "error") = false →
  ∃ outer w1 ep window k n,
    call env (getApi env apiName version) w = (Normal outer, w1)
    ∧ valuApplication (api w) = Some ep ∧ source ep = Some window
    ∧ outbox w1
      = outbox w ++ [(window,
                      envelope "api:create-pointer"
                        (create_pointer_message apiName version
                           (guid4_at env (guids w)) (nextId_at env (ids w))),
                      origin ep)]
    ∧ promises w1 !! outer = Some Pending
    ∧ promises (deliver env ev w1) !! outer = Some (Fulfilled (Pointer k))
    ∧ (guids w < n)%nat
    ∧ pointers (deliver env ev w1) !! k
      = Some {| apiName := apiName; version := get_opt (message_of ev) "version";
                guid := guid4_at env n;
                eventEmitter := EventEmitter.new;
                runRequest := guid4_at env (guids w);
                apiCalls := ∅ |}.
Proof.
  intros Hwf Hpost Hin Hid Hm Herr.
  destruct (getApi_posted apiName version w Hpost)
    as (wA & ep & window & Hrun & Hep & Hwin & HprA & HptA & HgA & HjA & HoA & HrA).
  set (len := length (promises w)) in *.
  set (J := AwaitRegister len apiName (guid4_at env (guids w)) (S len)) in *.
  (* the queue is drained after the call: the new job stays *)
  destruct (drain_last wA (jobs w) J HjA) as (k1 & wB & HrunB & Hsub1 & HjB & HdrainA).
  pose proof (run_jobs_frame (jobs w) (with_jobs (λ _, []) wA)) as HfB.
  rewrite HrunB in HfB. destruct HfB as (HlB & HaB & _ & HgB).
  simpl in HlB, HaB, HgB.
  assert (HpB : promises wB !! len = Some Pending).
  { rewrite HaB by (apply jobs_wf_avoids; [done|unfold len; lia]).
    rewrite HprA. by apply (list_lookup_middle _ [Pending]). }
  assert (HoB : promises wB !! S len = Some Pending).
  { rewrite HaB by (apply jobs_wf_avoids; [done|unfold len; lia]).
    rewrite HprA, lookup_app_r by (unfold len; lia).
    by replace (S len - length (promises w)) with 1 by (unfold len; lia). }
  unfold J in HdrainA.
  rewrite (run_job_pending _ _ _ _ _ HpB) in HdrainA. simpl in HdrainA. fold J in HdrainA.
  set (w1 := drain env wA) in *.
  assert (Hpr1 : promises w1 = promises wB) by by rewrite HdrainA.
  assert (Hj1 : jobs w1 = k1 ++ [J]) by by rewrite HdrainA; simpl; rewrite HjB, app_nil_r.
  assert (Hg1 : (S (guids w) ≤ guids w1)%nat) by (rewrite HdrainA; simpl; lia).
  (* the reply *)
  assert (Hentry : requests (api w1) !! to_key (requestId_of ev)
                   = Some (PDeferred {| id := nextId_at env (ids w); promise := len |})).
  { unfold w1. rewrite drain_api, HrA, Hid. apply lookup_insert_eq. }
  destruct (pointer_created_settles ev w1 _ Hin Hentry)
    as (wC & HrunC & HprC & HptC & HgC & HjC); [by rewrite Hpr1|].
  simpl in HprC.
  (* the queue is drained after the reply: the job runs to its end *)
  assert (HjC' : jobs wC = k1 ++ [J]) by congruence.
  destruct (drain_last wC k1 J HjC') as (k2 & wD & HrunD & Hsub2 & HjD & HdrainC).
  pose proof (run_jobs_frame k1 (with_jobs (λ _, []) wC)) as HfD.
  rewrite HrunD in HfD. destruct HfD as (HlD & HaD & HsD & HgD).
  simpl in HlD, HaD, HsD, HgD.
  assert (HpD : promises wD !! len = Some (Fulfilled (Value (message_of ev)))).
  { apply HsD; [|done]. rewrite HprC. apply list_lookup_insert_eq.
    rewrite Hpr1. by eapply lookup_lt_Some. }
  assert (HoD : promises wD !! S len = Some Pending).
  { rewrite HaD.
    - rewrite HprC, list_lookup_insert_ne by lia. by rewrite Hpr1.
    - intros p a g o Ho. apply Hsub1 in Ho. specialize (Hwf p a g o Ho).
      unfold len. lia. }
  destruct (run_job_fulfilled len apiName (guid4_at env (guids w)) (S len)
              (message_of ev) wD HpD Hm Herr HoD) as (wE & HrunE & HoE & HptE & HjE).
  unfold J in HdrainC. rewrite HrunE in HdrainC. simpl in HdrainC.
  exists (S len), w1, ep, window, (length (pointers wD)), (guids wD).
  unfold call. rewrite Hrun. fold w1.
  unfold deliver. rewrite HrunC, HdrainC. simpl.
  split_and!; try done.
  - unfold w1. by rewrite drain_outbox.
  - by rewrite Hpr1.
  - lia.
Qed.

(** C5. [getApi(apiName, requested)] from a connected client, answered
    by a pointer-created reply without an error: the promise of the call
    is fulfilled with a pointer whose version is the [version] of the
    reply, whatever version was requested. *)
Theorem host_assigned_version_wins (w : World) (apiName requested : value)
    (ev : MessageEvent) :
  jobs_wf w →
  post_throws env (valuApplication (api w))
    (envelope "api:create-pointer"
       (create_pointer_message apiName requested (guid4_at env (guids w))
          (nextId_at env (ids w)))) = None →
  inbound "api:pointer-created" ev = true →
  requestId_of ev = nextId_at env (ids w) →
  nullish (message_of ev) = false →
  truthy (get_opt (message_of ev) "error") = false →
  ∃ outer k o,
    (call env (getApi env apiName requested) w).1 = Normal outer
    ∧ promises (deliver env ev (call env (getApi env apiName requested) w).2)
        !! outer = Some (Fulfilled (Pointer k))
    ∧ pointers (deliver env ev (call env (getApi env apiName requested) w).2)
        !! k = Some o
    ∧ version o = get_opt (message_of ev) "version".
Proof.
  intros Hwf Hpost Hin Hid Hm Herr.
  destruct (getApi_round_trip w apiName requested ev Hwf Hpost Hin Hid Hm Herr)
    as (outer & w1 & ep & window & k & n & Hcall & _ & _ & _ & _ & Hp & _ & Ho).
  rewrite Hcall. simpl. eexists outer, k, _. split_and!; [done|done|exact Ho|done].
Qed.

(** A pointer whose [#runRequest] holds a string cannot run a function:
    [run] throws before anything is posted. *)
Lemma run_with_string_throws this o s functionName params w :
  pointers w !! this = Some o →
  runRequest o = VStr s →
  (run env this functionName params w).1
    = Abrupt (TypeError "this.#runRequest is not a function")
  ∧ outbox (run env this functionName params w).2 = outbox w.
Proof.
  intros Ho Hr. unfold run, createDeferred, new_promise, nextId, update_pointer.
  run_js. rewrite Ho. simpl.
  rewrite list_lookup_insert_eq by by eapply lookup_lt_Some.
  simpl. rewrite Hr. done.
Qed.

(** C1, on the code. [guid4()] returns strings, never the same twice. The
    create-pointer request of [getApi] carries the identifier generated in
    [getApi]; the pointer the call is fulfilled with carries another one,
    generated by its constructor, which binds the identifier passed as
    third argument to [runRequest] instead. So the guid of the pointer is
    not the registered one, and [run] on the pointer throws without
    posting a function-call request. *)
Theorem pointer_guid_is_not_the_registered_one (w : World)
    (apiName requested : value) (ev : MessageEvent) :
  (∀ i j, guid4_at env i = guid4_at env j → i = j) →
  (∀ i, ∃ s, guid4_at env i = VStr s) →
  jobs_wf w →
  post_throws env (valuApplication (api w))
    (envelope "api:create-pointer"
       (create_pointer_message apiName requested (guid4_at env (guids w))
          (nextId_at env (ids w)))) = None →
  inbound "api:pointer-created" ev = true →
  requestId_of ev = nextId_at env (ids w) →
  nullish (message_of ev) = false →
  truthy (get_opt (message_of ev) "error") = false →
  ∃ outer w1 window target k o,
    call env (getApi env apiName requested) w = (Normal outer, w1)
    ∧ outbox w1
      = outbox w ++ [(window,
                      envelope "api:create-pointer"
                        (create_pointer_message apiName requested
                           (guid4_at env (guids w)) (nextId_at env (ids w))),
                      target)]
    ∧ promises (deliver env ev w1) !! outer = Some (Fulfilled (Pointer k))
    ∧ pointers (deliver env ev w1) !! k = Some o
    ∧ guid o ≠ guid4_at env (guids w)
    ∧ runRequest o = guid4_at env (guids w)
    ∧ ∀ functionName params,
        (run env k functionName params (deliver env ev w1)).1
          = Abrupt (TypeError "this.#runRequest is not a function")
        ∧ outbox (run env k functionName params (deliver env ev w1)).2
          = outbox (deliver env ev w1).
Proof.
  intros Hinj Hstr Hwf Hpost Hin Hid Hm Herr.
  destruct (getApi_round_trip w apiName requested ev Hwf Hpost Hin Hid Hm Herr)
    as (outer & w1 & ep & window & k & n & Hcall & _ & _ & Hout & _ & Hp & Hn & Ho).
  eexists outer, w1, window, (origin ep), k, _.
  split_and!; [done|done|done|exact Ho| | |].
  - simpl. intros Heq%Hinj. lia.
  - done.
  - intros functionName params. destruct (Hstr (guids w)) as [s Hs].
    by eapply run_with_string_throws.
Qed.

(** *** The queue stays well formed *)

#[local] Instance store_grows_preorder : PreOrder store_grows.
Proof.
  split; [by intros w|].
  intros w1 w2 w3 [Hl1 Hj1] [Hl2 Hj2]. split; [lia|congruence].
Qed.

Ltac grows_step :=
  first
    [ apply respects_ret; tc_solve | apply respects_throw; tc_solve
    | apply respects_read; tc_solve | apply respects_lift; tc_solve
    | apply respects_bind; [tc_solve| |]
    | apply respects_try_catch; [tc_solve| |]
    | apply respects_modify; intros w; split; simpl; [|done];
      repeat case_match; rewrite ?length_app, ?length_insert; simpl; lia
    | match goal with
      | |- respects _ (match ?x with _ => _ end) => destruct x
      | |- respects _ (let '(_, _) := ?x in _) => destruct x
      | |- ∀ _, _ => intros ?
      end ].
Ltac grows := repeat grows_step.

Lemma handleParentMessage_grows ev : respects store_grows (handleParentMessage ev).
Proof. unfold handleParentMessage. unfold_handler. grows. Qed.

Lemma postToValuApp_grows name message :
  respects store_grows (postToValuApp env name message).
Proof. unfold postToValuApp. grows. Qed.

Lemma createDeferred_grows : respects store_grows (createDeferred env).
Proof. unfold createDeferred, new_promise, nextId. grows. Qed.

Lemma post_first_grows name msg :
  respects store_grows
    (async (deferredPromise ← createDeferred env;
            postToValuApp env name (msg (id deferredPromise));;
            set_request (id deferredPromise) (PDeferred deferredPromise);;
            mret (promise deferredPromise))).
Proof.
  unfold async, new_promise, set_request.
  pose proof createDeferred_grows. pose proof postToValuApp_grows. grows; auto.
Qed.

Lemma runConsoleCommand_grows command :
  respects store_grows (runConsoleCommand env command).
Proof.
  unfold runConsoleCommand, async, new_promise, set_request.
  pose proof createDeferred_grows. pose proof postToValuApp_grows. grows; auto.
Qed.

Lemma run_grows this functionName params :
  respects store_grows (run env this functionName params).
Proof.
  unfold run, update_pointer, call_runRequest, onApiRunRequest, async_dropped,
    set_request, log.
  pose proof createDeferred_grows. pose proof postToValuApp_grows. grows; auto.
Qed.

Lemma store_grows_wf w w' : store_grows w w' → jobs_wf w → jobs_wf w'.
Proof.
  intros [Hl Hj] Hwf p a g o. rewrite Hj. intros Hin.
  specialize (Hwf p a g o Hin). lia.
Qed.

Lemma drain_wf w : jobs_wf w → jobs_wf (drain env w).
Proof.
  intros Hwf. unfold drain.
  destruct (run_jobs_normal (jobs w) (with_jobs (λ _, []) w)) as [kept Hk].
  pose proof (run_jobs_kept (jobs w) _ kept Hk) as Hsub.
  pose proof (run_jobs_keeps jobs (jobs w)) as Hj.
  specialize (Hj ltac:(done) ltac:(done) ltac:(done) ltac:(done) (with_jobs (λ _, []) w)).
  pose proof (run_jobs_frame (jobs w) (with_jobs (λ _, []) w)) as (Hl & _).
  destruct (run_jobs env (jobs w) _) as [c w']. simpl in *. subst c.
  intros p a g o. simpl. rewrite Hj, app_nil_r. intros Hin%Hsub.
  specialize (Hwf p a g o Hin). lia.
Qed.

Lemma getApi_wf apiName requested w :
  jobs_wf w → jobs_wf (getApi env apiName requested w).2.
Proof.
  intros Hwf. unfold getApi, guid4. run_js.
  pose proof (post_first_grows "api:create-pointer"
                (λ i, VObj [("guid", guid4_at env (guids w)); ("api", apiName);
                            ("version", requested); ("requestId", i)])
                (with_guids S w)) as [Hl Hj].
  change (async _) with
    (registerApiPointer env apiName requested (guid4_at env (guids w))) in Hl, Hj.
  destruct (registerApiPointer env apiName requested _ _) as [[p|e] w1]; simpl in *.
  - unfold new_promise. run_js. intros p' a g o. simpl. rewrite Hj, length_app. simpl.
    intros [Hin|[= _ _ _ ->]%list_elem_of_singleton]%elem_of_app; [|lia].
    specialize (Hwf p' a g o Hin). lia.
  - intros p' a g o. rewrite Hj. intros Hin. specialize (Hwf p' a g o Hin). lia.
Qed.

Lemma setApplication_wf shell w :
  jobs_wf w → jobs_wf (setApplication shell w).2.
Proof.
  intros Hwf. unfold setApplication, call_onCreate, catch_console_error. run_js.
  destruct (lastIntent (api w)); run_js; [|done].
  destruct (onCreate shell _) as [[v|[v|e]]|e]; run_js; try done.
  intros p a g o. simpl. intros [Hin|Hin%list_elem_of_singleton]%elem_of_app; [|done].
  by apply (Hwf p a g o).
Qed.

(** Every state the client reaches has a well-formed queue: the initial
    state has, and inbound messages and the operations of the client and
    of its pointers keep it. *)
Lemma jobs_wf_invariant w :
  jobs_wf start
  ∧ (jobs_wf w →
     (∀ ev, jobs_wf (deliver env ev w))
     ∧ (∀ apiName requested, jobs_wf (call env (getApi env apiName requested) w).2)
     ∧ (∀ intent, jobs_wf (call env (sendIntent env intent) w).2)
     ∧ (∀ intent, jobs_wf (call env (callService env intent) w).2)
     ∧ (∀ command, jobs_wf (call env (runConsoleCommand env command) w).2)
     ∧ (∀ this f ps, jobs_wf (call env (run env this f ps) w).2)
     ∧ (∀ shell, jobs_wf (call env (setApplication shell) w).2)).
Proof.
  split; [by apply jobs_wf_nil|]. intros Hwf. split_and!.
  - intros ev. unfold deliver.
    pose proof (handleParentMessage_grows ev w) as Hg.
    destruct (handleParentMessage ev w) as [[u|e] w']; apply drain_wf;
      [by eapply store_grows_wf|].
    intros p a g o Hin. eapply (store_grows_wf w w'); done.
  - intros apiName requested. unfold call.
    pose proof (getApi_wf apiName requested w Hwf) as H.
    destruct (getApi env apiName requested w). by apply drain_wf.
  - intros intent. unfold call.
    pose proof (post_first_grows "api:run-intent" (intent_message intent) w) as H.
    change (async _) with (sendIntent env intent) in H.
    destruct (sendIntent env intent w). apply drain_wf. by eapply store_grows_wf.
  - intros intent. unfold call.
    pose proof (post_first_grows "api:service-intent" (intent_message intent) w) as H.
    change (async _) with (callService env intent) in H.
    destruct (callService env intent w). apply drain_wf. by eapply store_grows_wf.
  - intros command. unfold call.
    pose proof (runConsoleCommand_grows command w) as H.
    destruct (runConsoleCommand env command w). apply drain_wf. by eapply store_grows_wf.
  - intros this f ps. unfold call.
    pose proof (run_grows this f ps w) as H.
    destruct (run env this f ps w). apply drain_wf. by eapply store_grows_wf.
  - intros shell. unfold call.
    pose proof (setApplication_wf shell w Hwf) as H.
    destruct (setApplication shell w). by apply drain_wf.
Qed.

(** *** Further properties: Intent, foreign messages, routes *)

(** X7. An Intent built by the constructor is valid exactly when its
    application id is a string and its action is a string or was left
    out (the default is then "open"); the parameters play no part, an
    action of [null] makes it invalid, and a value that is not an instance
    of [Intent] is never valid, whatever fields it has. *)
Theorem isValid_of_constructed_intent (applicationId action params : value) :
  isValid (AnIntent (new_Intent applicationId action params))
  = is_a_string applicationId && (is_a_string action || is_undefined action)
  ∧ ∀ v, isValid (NotAnIntent v) = false.
Proof.
  split; [|done]. unfold isValid, new_Intent. simpl.
  by destruct action.
Qed.

Lemma handle_dispatch name ev w :
  inbound name ev = true →
  handleParentMessage ev w
  = (if String.eqb name "api:ready" then on_ready ev (message_of ev)
     else if String.eqb name "api:trigger" then on_trigger (message_of ev)
     else if String.eqb name "api:new-intent" then on_new_intent (message_of ev)
     else if String.eqb name "api:run-console-completed"
     then on_run_console_completed (requestId_of ev) (message_of ev)
     else if String.eqb name "api:run-completed"
     then on_run_completed (requestId_of ev) (message_of ev)
     else if String.eqb name "api:pointer-created"
     then on_pointer_created (requestId_of ev) (message_of ev)
     else mret ()) w.
Proof.
  intros Hin.
  destruct (handle_inbound _ _ Hin) as (fields & Hd & Ht & Hn).
  unfold handleParentMessage, requestId_of, message_of. rewrite Hd. simpl.
  rewrite Ht, Hn. simpl. run_js.
  destruct (String.eqb name "api:ready"); [done|].
  destruct (String.eqb name "api:trigger"); [done|].
  destruct (String.eqb name "api:new-intent"); [done|].
  destruct (String.eqb name "api:run-console-completed"); [done|].
  destruct (String.eqb name "api:run-completed"); [done|].
  by destruct (String.eqb name "api:pointer-created").
Qed.

(** X8. A message that is not addressed to the client (its data is not an
    object with [target === "valuApi"]) leaves the state exactly as it
    was, and so does an addressed message of a kind the handler has no
    case for, and a trigger whose action is not the route action. *)
Theorem foreign_messages_are_ignored (w : World) (ev : MessageEvent) :
  (is_string "valuApi" (get_opt (data ev) "target") = false →
   handleParentMessage ev w = (Normal (), w))
  ∧ (∀ name, inbound name ev = true → known_kind name = false →
       handleParentMessage ev w = (Normal (), w))
  ∧ (inbound "api:trigger" ev = true → nullish (message_of ev) = false →
     is_string ON_ROUTE (get_opt (message_of ev) "action") = false →
     handleParentMessage ev w = (Normal (), w)).
Proof.
  split_and!.
  - intros Ht. unfold handleParentMessage. by rewrite Ht.
  - intros name Hin Hk. rewrite (handle_dispatch name) by done.
    unfold known_kind, reply_kind in Hk.
    apply orb_false_iff in Hk as [Hk Hr]. apply orb_false_iff in Hk as [Hk H3].
    apply orb_false_iff in Hk as [H1 H2]. apply orb_false_iff in Hr as [Hr H6].
    apply orb_false_iff in Hr as [H4 H5].
    by rewrite H1, H2, H3, H4, H5, H6.
  - intros Hin Hm Ha. rewrite (handle_dispatch "api:trigger") by done. simpl.
    unfold on_trigger. rewrite !get_not_nullish by done.
    unfold mbind, M_bind, lift, mret, M_ret. by rewrite Ha.
Qed.

(** X9. The table of pending requests is shared: a function-call reply
    whose identifier is held by a deferred (of a console command, an
    intent or a pointer registration), and a console or pointer-created
    reply whose identifier is held by a pointer, make the handler throw a
    TypeError; the state is as it was, so the request stays pending. *)
Theorem reply_of_the_wrong_kind_throws (w : World) (ev : MessageEvent) :
  (∀ d, inbound "api:run-completed" ev = true →
        requests (api w) !! to_key (requestId_of ev) = Some (PDeferred d) →
        handleParentMessage ev w
        = (Abrupt (TypeError "apiPointer.postRunResult is not a function"), w))
  ∧ (∀ name p,
       inbound name ev = true →
       name = "api:run-console-completed" ∨ name = "api:pointer-created" →
       requests (api w) !! to_key (requestId_of ev) = Some (PPointer p) →
       handleParentMessage ev w
       = (Abrupt (TypeError "deferred.resolve is not a function"), w)).
Proof.
  split.
  - intros d Hin Hentry. rewrite (handle_dispatch "api:run-completed") by done.
    simpl. unfold_handler. run_js. by rewrite Hentry.
  - intros name p Hin [-> | ->] Hentry; rewrite (handle_dispatch _ ev w Hin); simpl;
      unfold_handler; run_js; by rewrite Hentry.
Qed.

(** X10. [pushRoute] and [replaceRoute] are fire-and-forget: when the post
    goes through, the state afterwards is the state before plus the one
    api:run-command message, with the command name and the path; no request
    identifier is drawn, no promise made and no waiter recorded. When the
    post throws, the call itself throws and nothing has changed. *)
Theorem routes_are_fire_and_forget (w : World) (path : value) :
  posts_or_throws env (pushRoute env) "pushRoute" path w
  ∧ posts_or_throws env (replaceRoute env) "replaceRoute" path w.
Proof.
  split; (split;
    [intros e He; by apply postToValuApp_throws
    |intros Hn; destruct (postToValuApp_posts _ _ _ Hn) as (ep & window & ? & ? & ?);
     by exists ep, window]).
Qed.

(** *** Further properties: console commands, replies, the shell *)

(** X11. [runConsoleCommand] records its waiter before it posts. When the
    post throws, the promise handed back is rejected with what was thrown,
    but the waiter stays in the table of pending requests, with a promise
    of its own that is still pending. *)
Theorem failed_console_post_leaves_its_waiter (w : World) (command : value)
    (e : thrown) :
  jobs_wf w →
  post_throws env (valuApplication (api w))
    (envelope "api:run-console"
       (VObj [("requestId", nextId_at env (ids w)); ("command", command)])) = Some e →
  ∃ p,
    (call env (runConsoleCommand env command) w).1 = Normal p
    ∧ promises (call env (runConsoleCommand env command) w).2 !! p
      = Some (Rejected e)
    ∧ requests (api (call env (runConsoleCommand env command) w).2)
        !! to_key (nextId_at env (ids w))
      = Some (PDeferred {| id := nextId_at env (ids w);
                           promise := length (promises w) |})
    ∧ promises (call env (runConsoleCommand env command) w).2
        !! length (promises w) = Some Pending
    ∧ outbox (call env (runConsoleCommand env command) w).2 = outbox w.
Proof.
  intros Hwf Hpost. exists (S (length (promises w))).
  assert (Hrun : ∃ w1,
            runConsoleCommand env command w = (Normal (S (length (promises w))), w1)
            ∧ promises w1 = promises w ++ [Pending; Rejected e]
            ∧ jobs w1 = jobs w ∧ outbox w1 = outbox w
            ∧ requests (api w1)
              = <[to_key (nextId_at env (ids w)) :=
                    PDeferred {| id := nextId_at env (ids w);
                                 promise := length (promises w) |}]>
                  (requests (api w))).
  { unfold runConsoleCommand, async, createDeferred, new_promise, nextId,
      set_request. run_js.
    rewrite (postToValuApp_throws "api:run-console" _ _ e) by done. run_js.
    eexists. rewrite length_app. simpl.
    replace (length (promises w) + 1) with (S (length (promises w))) by lia.
    split; [done|]. simpl. by rewrite <- app_assoc. }
  destruct Hrun as (w1 & Hrun & Hpr & Hj & Ho & Hr).
  unfold call. rewrite Hrun. simpl. split_and!.
  - done.
  - apply drain_settled; [|done]. rewrite Hpr, lookup_app_r by lia.
    by replace (S (length (promises w)) - length (promises w)) with 1 by lia.
  - rewrite drain_api, Hr. apply lookup_insert_eq.
  - rewrite drain_avoided.
    + rewrite Hpr. by apply list_lookup_middle.
    + rewrite Hj. by apply jobs_wf_avoids.
  - by rewrite drain_outbox.
Qed.

(** X12. A console or pointer-created reply frees its identifier, so that
    a second reply with the same identifier finds nothing of the client's:
    it is dropped with a diagnostic, whatever its payload (for an
    identifier that names nothing the table inherits), and the promise
    keeps the payload of the first reply. *)
Theorem duplicate_reply_is_dropped (w : World) (name : string)
    (ev1 ev2 : MessageEvent) (d : Deferred) :
  name = "api:run-console-completed" ∨ name = "api:pointer-created" →
  inbound name ev1 = true →
  inbound name ev2 = true →
  requestId_of ev2 = requestId_of ev1 →
  requests (api w) !! to_key (requestId_of ev1) = Some (PDeferred d) →
  promises w !! promise d = Some Pending →
  requests (api (deliver env ev1 w)) !! to_key (requestId_of ev1) = None
  ∧ (inherited (deliver env ev1 w) (to_key (requestId_of ev1)) = false →
     handleParentMessage ev2 (deliver env ev1 w)
     = (Normal (),
        with_trace (λ tr, tr ++ [diagnostic_of name (requestId_of ev2)])
          (deliver env ev1 w)))
  ∧ promises (deliver env ev2 (deliver env ev1 w)) !! promise d
    = Some (Fulfilled (Value (message_of ev1))).
Proof.
  intros Hname Hin1 Hin2 Hid Hentry Hp.
  assert (Hlt : (promise d < length (promises w))%nat) by by eapply lookup_lt_Some.
  assert (H1 : requests (api (deliver env ev1 w)) !! to_key (requestId_of ev1) = None
               ∧ promises (deliver env ev1 w) !! promise d
                 = Some (Fulfilled (Value (message_of ev1)))).
  { unfold deliver. rewrite (handle_dispatch name ev1 w Hin1).
    destruct Hname as [-> | ->]; simpl; unfold_handler; run_js; rewrite Hentry; run_js;
      (split; [rewrite drain_api; simpl; apply lookup_delete_eq|]);
      (apply drain_settled; [|done]); simpl; rewrite Hp;
      by apply list_lookup_insert_eq. }
  destruct H1 as [Hnone Hful]. split; [done|]. split.
  - intros Hord. rewrite (handle_dispatch name ev2 _ Hin2).
    rewrite <- Hid in Hnone, Hord.
    destruct Hname as [-> | ->]; simpl; unfold_handler; run_js; rewrite Hnone; run_js;
      rewrite Hord; run_js; rewrite ?delete_absent_request; done.
  - unfold deliver at 1. rewrite (handle_dispatch name ev2 _ Hin2).
    rewrite <- Hid in Hnone.
    destruct Hname as [-> | ->]; simpl; unfold_handler; run_js; rewrite Hnone; run_js;
      destruct (inherited _ _); run_js; by apply drain_settled.
Qed.


(** X14. A route trigger publishes the route event with the data, and
    then calls [onUpdateRouterContext] of the bound shell with the same
    data. A shell that does not define the method (the base class does
    not) makes the handler throw a TypeError, after the listeners were
    notified; without a shell the handler returns. *)
Theorem route_trigger_notifies_listeners_then_shell (w : World) (ev : MessageEvent) :
  inbound "api:trigger" ev = true →
  nullish (message_of ev) = false →
  get_opt (message_of ev) "action" = VStr ON_ROUTE →
  (∀ x, EventEmitter.end_of
          (EventEmitter.emit ON_ROUTE [get_opt (message_of ev) "data"]
             (api_events (api w)))
        ≠ EventEmitter.Threw x) →
  match applicationInstance (api w) with
  | None =>
      (handleParentMessage ev w).1 = Normal ()
      ∧ trace (handleParentMessage ev w).2
        = trace w ++ EventEmitter.trace_of
                       (EventEmitter.emit ON_ROUTE [get_opt (message_of ev) "data"]
                          (api_events (api w)))
  | Some app =>
      match onUpdateRouterContext app with
      | None =>
          (handleParentMessage ev w).1
            = Abrupt (TypeError "onUpdateRouterContext is not a function")
          ∧ trace (handleParentMessage ev w).2
            = trace w ++ EventEmitter.trace_of
                           (EventEmitter.emit ON_ROUTE
                              [get_opt (message_of ev) "data"] (api_events (api w)))
      | Some method =>
          trace (handleParentMessage ev w).2
          = trace w ++ EventEmitter.trace_of
                         (EventEmitter.emit ON_ROUTE
                            [get_opt (message_of ev) "data"] (api_events (api w)))
            ++ [OnUpdateRouterContextCalled (app_id app)
                  (get_opt (message_of ev) "data")]
      end
  end.
Proof.
  intros Hin Hm Ha Hemit. rewrite (handle_dispatch "api:trigger") by done. simpl.
  unfold on_trigger. rewrite !get_not_nullish by done. rewrite Ha.
  unfold_handler. run_js.
  destruct (EventEmitter.end_of _) eqn:He; [| |by destruct (Hemit e)]; run_js;
    (destruct (applicationInstance (api w)) as [app|]; run_js; [|done];
     destruct (onUpdateRouterContext app) as [method|]; run_js; [|done];
     destruct (method _); run_js; by rewrite <- app_assoc).
Qed.

(** *** Further properties: what every step keeps *)

Ltac walk leaf :=
  repeat first
    [ leaf
    | apply respects_ret; tc_solve | apply respects_throw; tc_solve
    | apply respects_read; tc_solve | apply respects_lift; tc_solve
    | apply respects_bind; [tc_solve| |]
    | apply respects_try_catch; [tc_solve| |]
    | match goal with
      | |- respects _ (match ?x with _ => _ end) => destruct x
      | |- respects _ (let '(_, _) := ?x in _) => destruct x
      | |- ∀ _, _ => intros ?
      end ].

Lemma run_jobs_respects (R : relation World) `{!PreOrder R} js :
  (∀ j, respects R (run_job env j)) → respects R (run_jobs env js).
Proof.
  intros Hj. induction js as [|j js IH]; simpl.
  - apply respects_ret; tc_solve.
  - apply respects_bind; [tc_solve|apply Hj|]. intros kept.
    apply respects_bind; [tc_solve|apply IH|]. intros kept'.
    apply respects_ret; tc_solve.
Qed.

Lemma drain_respects (R : relation World) `{!PreOrder R} w :
  (∀ j, respects R (run_job env j)) →
  (∀ f w, R w (with_jobs f w)) →
  (∀ e w, R w (with_trace (λ tr, tr ++ [Uncaught e]) w)) →
  R w (drain env w).
Proof.
  intros Hj Hjobs Htrace. unfold drain.
  pose proof (run_jobs_respects R (jobs w) Hj (with_jobs (λ _, []) w)) as H.
  destruct (run_jobs env (jobs w) _) as [[kept|e] w']; simpl in H.
  - etrans; [apply Hjobs|]. etrans; [apply H|]. apply Hjobs.
  - etrans; [apply Hjobs|]. etrans; [apply H|]. apply Htrace.
Qed.

Lemma deliver_respects (R : relation World) `{!PreOrder R} ev w :
  respects R (handleParentMessage ev) →
  (∀ j, respects R (run_job env j)) →
  (∀ f w, R w (with_jobs f w)) →
  (∀ e w, R w (with_trace (λ tr, tr ++ [Uncaught e]) w)) →
  R w (deliver env ev w).
Proof.
  intros Hh Hj Hjobs Htrace. unfold deliver. specialize (Hh w).
  destruct (handleParentMessage ev w) as [[u|e] w']; simpl in Hh.
  - etrans; [apply Hh|]. by apply drain_respects.
  - etrans; [apply Hh|]. etrans; [apply Htrace|]. by apply drain_respects.
Qed.

Lemma call_respects (R : relation World) `{!PreOrder R} {A} (m : M A) w :
  respects R m →
  (∀ j, respects R (run_job env j)) →
  (∀ f w, R w (with_jobs f w)) →
  (∀ e w, R w (with_trace (λ tr, tr ++ [Uncaught e]) w)) →
  R w (call env m w).2.
Proof.
  intros Hm Hj Hjobs Htrace. unfold call. specialize (Hm w).
  destruct (m w) as [c w']. simpl in *.
  etrans; [apply Hm|]. by apply drain_respects.
Qed.

(** **** Settled promises *)

#[local] Instance settled_stay_preorder : PreOrder settled_stay.
Proof.
  split; [by intros w q st|].
  intros w1 w2 w3 H1 H2 q st Hq Hst. eauto.
Qed.

Lemma settled_stay_same f :
  (∀ w, promises (f w) = promises w) → ∀ w, settled_stay w (f w).
Proof. intros H w q st. by rewrite H. Qed.

Lemma settled_stay_settle p st : respects settled_stay (settle p st).
Proof.
  unfold settle. apply respects_modify. intros w q st' Hq Hst. simpl.
  destruct (promises w !! p) as [[| |]|] eqn:Hp; try done.
  destruct (decide (p = q)) as [->|Hne]; [congruence|].
  by rewrite list_lookup_insert_ne.
Qed.

Lemma settled_stay_new_promise st : respects settled_stay (new_promise st).
Proof.
  unfold new_promise. walk idtac.
  apply respects_modify. intros w q st' Hq Hst. simpl.
  rewrite lookup_app_l; [done|]. by eapply lookup_lt_Some.
Qed.

Ltac settled_leaf :=
  first [ apply settled_stay_settle | apply settled_stay_new_promise
        | apply respects_modify; apply settled_stay_same; reflexivity ].

Lemma settled_stay_handler ev : respects settled_stay (handleParentMessage ev).
Proof.
  unfold handleParentMessage, on_ready, on_trigger, on_new_intent,
    on_run_console_completed, on_run_completed, on_pointer_created, postRunResult,
    emit, call_onCreate, call_onNewIntent, call_onUpdateRouterContext,
    delete_request, update_pointer, resolve, reject, log.
  walk settled_leaf.
Qed.

Lemma settled_stay_job j : respects settled_stay (run_job env j).
Proof.
  destruct j; unfold run_job, getApi_resume, field_of, new_APIPointer, guid4,
    resolve, reject, log; walk settled_leaf.
Qed.

(** **** Pointers *)

#[local] Instance pointer_kept_preorder this : PreOrder (pointer_kept this).
Proof.
  split; [intros w o Ho; by exists o|].
  intros w1 w2 w3 H1 H2 o Ho.
  destruct (H1 o Ho) as (o' & Ho' & ? & ? & ? & ? & ?).
  destruct (H2 o' Ho') as (o'' & Ho'' & ? & ? & ? & ? & ?).
  exists o''. split_and!; congruence.
Qed.

Lemma pointer_kept_same this f :
  (∀ w, pointers (f w) = pointers w) → ∀ w, pointer_kept this w (f w).
Proof. intros H w o Ho. exists o. by rewrite H. Qed.

Lemma pointer_kept_calls this p f :
  respects (pointer_kept this) (update_pointer p (with_apiCalls f)).
Proof.
  unfold update_pointer. apply respects_modify. intros w o Ho. simpl.
  destruct (pointers w !! p) as [o1|] eqn:Hp; [|by exists o].
  destruct (decide (p = this)) as [->|Hne].
  - exists (with_apiCalls f o1). split.
    + apply list_lookup_insert_eq. by eapply lookup_lt_Some.
    + by simplify_eq.
  - exists o. by rewrite list_lookup_insert_ne.
Qed.

Lemma pointer_kept_new this args : respects (pointer_kept this) (new_APIPointer env args).
Proof.
  unfold new_APIPointer, guid4.
  walk ltac:(apply respects_modify; apply pointer_kept_same; reflexivity).
  apply respects_modify. intros w o Ho. simpl. exists o.
  rewrite lookup_app_l; [done|]. by eapply lookup_lt_Some.
Qed.

Ltac pointer_leaf :=
  first [ apply pointer_kept_calls | apply pointer_kept_new
        | apply respects_modify; apply pointer_kept_same; reflexivity ].

Lemma pointer_kept_handler this ev :
  respects (pointer_kept this) (handleParentMessage ev).
Proof.
  unfold handleParentMessage, on_ready, on_trigger, on_new_intent,
    on_run_console_completed, on_run_completed, on_pointer_created, postRunResult,
    emit, call_onCreate, call_onNewIntent, call_onUpdateRouterContext,
    delete_request, resolve, reject, settle, log.
  walk pointer_leaf.
Qed.

Lemma pointer_kept_job this j : respects (pointer_kept this) (run_job env j).
Proof.
  destruct j; unfold run_job, getApi_resume, field_of, resolve, reject, settle, log;
    walk pointer_leaf.
Qed.

(** X16. A pointer keeps its identity for its lifetime: its guid, its
    name, its version, its way of sending requests and its listeners are
    the same after any inbound message and after any call of [run], on
    itself or on another pointer. *)
Theorem pointer_identity_is_stable (w : World) (this : nat) (o : APIPointer) :
  pointers w !! this = Some o →
  (∀ ev, ∃ o',
     pointers (deliver env ev w) !! this = Some o'
     ∧ guid o' = guid o ∧ apiName o' = apiName o ∧ version o' = version o
     ∧ runRequest o' = runRequest o ∧ eventEmitter o' = eventEmitter o)
  ∧ (∀ other functionName params, ∃ o',
       pointers (call env (run env other functionName params) w).2 !! this = Some o'
       ∧ guid o' = guid o ∧ apiName o' = apiName o ∧ version o' = version o
       ∧ runRequest o' = runRequest o ∧ eventEmitter o' = eventEmitter o).
Proof.
  intros Ho.
  assert (Hjobs : ∀ f w, pointer_kept this w (with_jobs f w))
    by (intros f w'; by apply pointer_kept_same).
  assert (Htrace : ∀ e w, pointer_kept this w (with_trace (λ tr, tr ++ [Uncaught e]) w))
    by (intros e w'; by apply (pointer_kept_same this (with_trace _))).
  split.
  - intros ev.
    by apply (deliver_respects (pointer_kept this) ev w (pointer_kept_handler this ev)
                (pointer_kept_job this) Hjobs Htrace).
  - intros other functionName params.
    apply (call_respects (pointer_kept this) (run env other functionName params) w);
      try done; [|apply pointer_kept_job].
    unfold run, createDeferred, new_promise, nextId, call_runRequest, onApiRunRequest,
      async_dropped, set_request, postToValuApp, log.
    walk pointer_leaf.
Qed.

(** **** Listeners *)

#[local] Instance never_called_preorder f : PreOrder (never_called f).
Proof.
  split; [by intros w Hq|].
  intros w1 w2 w3 H1 H2 Hq. destruct (H1 Hq) as [Hq2 Ht2].
  destruct (H2 Hq2) as [Hq3 Ht3]. split; [done|congruence].
Qed.

Lemma never_called_same f g :
  (∀ w, api_events (api (g w)) = api_events (api w)) →
  (∀ w, trace (g w) = trace w) →
  ∀ w, never_called f w (g w).
Proof. intros He Ht w Hq. by rewrite He, Ht. Qed.

Lemma never_called_log f e :
  EventEmitter.times_called f [e] = 0 → respects (never_called f) (log e).
Proof.
  intros He. unfold log. apply respects_modify. intros w Hq. simpl.
  split; [done|]. rewrite EventEmitterFacts.times_called_app. lia.
Qed.

Lemma never_called_emit f name parameters :
  respects (never_called f) (emit name parameters).
Proof.
  intros w Hq. unfold emit. run_js.
  destruct (EventEmitterFacts.emit_quiet f name parameters _ Hq) as [Ht Hq'].
  destruct (EventEmitter.end_of _); simpl;
    (split; [done|]); rewrite EventEmitterFacts.times_called_app; lia.
Qed.

Ltac listener_leaf :=
  first [ apply never_called_emit
        | apply never_called_log; reflexivity
        | apply respects_modify; apply never_called_same; reflexivity ].

Lemma never_called_handler f ev : respects (never_called f) (handleParentMessage ev).
Proof.
  unfold handleParentMessage, on_ready, on_trigger, on_new_intent,
    on_run_console_completed, on_run_completed, on_pointer_created, postRunResult,
    call_onCreate, call_onNewIntent, call_onUpdateRouterContext,
    delete_request, update_pointer, resolve, reject, settle.
  walk listener_leaf.
Qed.

Lemma never_called_job f j : respects (never_called f) (run_job env j).
Proof.
  destruct j; unfold run_job, getApi_resume, field_of, new_APIPointer, guid4,
    resolve, reject, settle; walk listener_leaf.
Qed.

(** X17. No inbound message publishes anything on the emitter of a
    pointer: while a message is handled, the only listeners called are
    those of the client's own bus. A function registered on a pointer, and
    on no event of the client, is never called, whatever the host sends. *)
Theorem pointer_listeners_are_never_called (w : World) (this : nat)
    (name : string) (f : function) (once : bool) (ev : MessageEvent) :
  ¬ EventEmitter.registered (fn_id f) (api_events (api w)) →
  ¬ EventEmitter.registered (fn_id f)
      (api_events (api (pointer_addEventListener this name (Some f) once w).2))
  ∧ EventEmitter.times_called (fn_id f)
      (trace (deliver env ev (pointer_addEventListener this name (Some f) once w).2))
    = EventEmitter.times_called (fn_id f) (trace w)
  ∧ ¬ EventEmitter.registered (fn_id f)
        (api_events
           (api (deliver env ev (pointer_addEventListener this name (Some f) once w).2))).
Proof.
  intros Hfresh.
  set (w1 := (pointer_addEventListener this name (Some f) once w).2).
  assert (He : api_events (api w1) = api_events (api w) ∧ trace w1 = trace w).
  { unfold w1, pointer_addEventListener, update_pointer. by run_js. }
  destruct He as [He Ht].
  assert (Hq : ∀ n, EventEmitter.quiet_at (fn_id f) (api_events (api w1)) n).
  { rewrite He. by apply EventEmitterFacts.not_registered_quiet. }
  split; [by apply EventEmitterFacts.not_registered_quiet|].
  assert (Hjobs : ∀ g w, never_called (fn_id f) w (with_jobs g w))
    by (intros g w'; by apply never_called_same).
  assert (Htrace : ∀ e w, never_called (fn_id f) w
                            (with_trace (λ tr, tr ++ [Uncaught e]) w)).
  { intros e w' Hq'. simpl. split; [done|].
    rewrite EventEmitterFacts.times_called_app. simpl. lia. }
  destruct (deliver_respects (never_called (fn_id f)) ev w1
              (never_called_handler (fn_id f) ev) (never_called_job (fn_id f))
              Hjobs Htrace Hq) as [Hq' Ht'].
  split; [by rewrite Ht', Ht|]. by apply EventEmitterFacts.not_registered_quiet.
Qed.

(** *** Further properties: function calls of a pointer *)

Lemma deliver_settled ev w q st :
  promises w !! q = Some st → st ≠ Pending →
  promises (deliver env ev w) !! q = Some st.
Proof.
  intros Hq Hst.
  apply (deliver_respects settled_stay ev w (settled_stay_handler ev)
           settled_stay_job); try done; by intros ? w' q' st'.
Qed.

#[local] Instance pointers_stay_preorder : PreOrder pointers_stay.
Proof. split; [by intros w this o|]. intros w1 w2 w3 H1 H2 this o Ho. eauto. Qed.

Lemma pointers_stay_job j : respects pointers_stay (run_job env j).
Proof.
  destruct j; unfold run_job, getApi_resume, field_of, new_APIPointer, guid4,
    resolve, reject, settle, log;
    walk ltac:(apply respects_modify; intros w this o Ho; exact Ho);
    apply respects_modify; intros w this o Ho; simpl;
    (rewrite lookup_app_l; [done|]); by eapply lookup_lt_Some.
Qed.

Lemma drain_pointers w this o :
  pointers w !! this = Some o → pointers (drain env w) !! this = Some o.
Proof.
  intros Ho.
  apply (drain_respects pointers_stay w pointers_stay_job); try done;
    by intros ? w' this' o'.
Qed.

Lemma jobs_below_avoids n w q : jobs_below n w → (n ≤ q)%nat → avoids (jobs w) q.
Proof. intros Hb Hq p a g o Hin. specialize (Hb p a g o Hin). lia. Qed.

Lemma jobs_below_drain n w : jobs_below n w → jobs_below n (drain env w).
Proof.
  intros Hb. unfold drain.
  destruct (run_jobs_normal (jobs w) (with_jobs (λ _, []) w)) as [kept Hk].
  pose proof (run_jobs_kept (jobs w) _ kept Hk) as Hsub.
  pose proof (run_jobs_keeps jobs (jobs w)) as Hj.
  specialize (Hj ltac:(done) ltac:(done) ltac:(done) ltac:(done) (with_jobs (λ _, []) w)).
  destruct (run_jobs env (jobs w) _) as [c w']. simpl in *. subst c.
  intros p a g o. simpl. rewrite Hj, app_nil_r. intros Hin%Hsub. by eapply Hb.
Qed.

Lemma jobs_below_grows n w w' : store_grows w w' → jobs_below n w → jobs_below n w'.
Proof. intros [_ Hj] Hb p a g o. rewrite Hj. apply Hb. Qed.

Lemma jobs_below_deliver n ev w : jobs_below n w → jobs_below n (deliver env ev w).
Proof.
  intros Hb. unfold deliver.
  pose proof (handleParentMessage_grows ev w) as Hg.
  destruct (handleParentMessage ev w) as [[u|e] w']; apply jobs_below_drain.
  - by eapply jobs_below_grows.
  - intros p a g o Hin. eapply (jobs_below_grows n w w'); done.
Qed.

Lemma call_pending_drain n w this key d :
  jobs_below n w → (n ≤ promise d)%nat →
  call_pending w this key d → call_pending (drain env w) this key d.
Proof.
  intros Hb Hn (o & Hr & Ho & Hc & Hp). exists o. split_and!.
  - by rewrite drain_api.
  - by apply drain_pointers.
  - done.
  - rewrite drain_avoided; [done|]. by eapply jobs_below_avoids.
Qed.

(** [run] when the post goes through. *)
Lemma run_posted this o functionName params w :
  pointers w !! this = Some o →
  runRequest o = VFunc ApiRunRequestArrow →
  post_throws env (valuApplication (api w))
    (envelope "api:run"
       (run_message (guid o) (nextId_at env (ids w)) functionName params)) = None →
  ∃ w1 ep window,
    run env this functionName params w = (Normal (length (promises w)), w1)
    ∧ valuApplication (api w) = Some ep ∧ source ep = Some window
    ∧ promises w1 = promises w ++ [Pending]
    ∧ jobs w1 = jobs w
    ∧ ids w1 = S (ids w)
    ∧ valuApplication (api w1) = valuApplication (api w)
    ∧ requests (api w1)
      = <[to_key (nextId_at env (ids w)) := PPointer this]> (requests (api w))
    ∧ pointers w1
      = <[this := with_apiCalls
                    (λ c, <[to_key (nextId_at env (ids w)) :=
                              {| id := nextId_at env (ids w);
                                 promise := length (promises w) |}]> c) o]>
          (pointers w)
    ∧ outbox w1
      = outbox w ++ [(window,
                      envelope "api:run"
                        (run_message (guid o) (nextId_at env (ids w))
                           functionName params),
                      origin ep)].
Proof.
  intros Ho Hr Hpost.
  assert (Hlt : (this < length (pointers w))%nat) by by eapply lookup_lt_Some.
  unfold run, createDeferred, new_promise, nextId, update_pointer. run_js.
  rewrite Ho. simpl. rewrite list_lookup_insert_eq by done. simpl. rewrite Hr.
  unfold call_runRequest, onApiRunRequest, async_dropped, set_request. run_js.
  rewrite Ho, list_lookup_insert_eq by done. simpl.
  edestruct postToValuApp_posts as (ep & window & Hep & Hw & ->); [exact Hpost|].
  simpl in Hep. eexists _, ep, window. split; [done|]. simpl. rewrite Ho.
  by split_and!.
Qed.

(** The handler on the reply to a call that is pending. *)
Lemma run_reply_handled w this key d ev :
  call_pending w this key d →
  inbound "api:run-completed" ev = true →
  to_key (requestId_of ev) = key →
  ∃ w' o,
    handleParentMessage ev w = (Normal (), w')
    ∧ pointers w !! this = Some o
    ∧ promises w' = <[promise d := run_outcome (message_of ev)]> (promises w)
    ∧ requests (api w') = delete key (requests (api w))
    ∧ pointers w' = <[this := with_apiCalls (λ c, delete key c) o]> (pointers w)
    ∧ jobs w' = jobs w.
Proof.
  intros (o & Hr & Ho & Hc & Hp) Hin <-.
  rewrite (handle_dispatch "api:run-completed") by done. simpl.
  unfold_handler. run_js. rewrite Hr. run_js. rewrite Ho. simpl. rewrite Hc.
  unfold run_outcome.
  destruct (truthy (get_opt (message_of ev) "error")); run_js;
    eexists _, o; (split; [done|]); simpl; rewrite Hp, Ho; by split_and!.
Qed.

Lemma run_reply_settles n w this key d ev :
  call_pending w this key d →
  jobs_below n w →
  inbound "api:run-completed" ev = true →
  to_key (requestId_of ev) = key →
  promises (deliver env ev w) !! promise d = Some (run_outcome (message_of ev))
  ∧ requests (api (deliver env ev w)) !! key = None
  ∧ (∃ o', pointers (deliver env ev w) !! this = Some o' ∧ apiCalls o' !! key = None)
  ∧ ∀ this' key' d',
      key' ≠ key → promise d' ≠ promise d → (n ≤ promise d')%nat →
      call_pending w this' key' d' →
      call_pending (deliver env ev w) this' key' d'.
Proof.
  intros Hcall Hb Hin Hkey.
  destruct (run_reply_handled w this key d ev Hcall Hin Hkey)
    as (w' & o & Hh & Ho & Hpr & Hrq & Hpt & Hj).
  destruct Hcall as (o0 & Hr & Ho0 & Hc & Hp).
  assert (o0 = o) as -> by congruence.
  assert (Hlt : (promise d < length (promises w))%nat) by by eapply lookup_lt_Some.
  assert (Hlt' : (this < length (pointers w))%nat) by by eapply lookup_lt_Some.
  unfold deliver. rewrite Hh.
  assert (Hb' : jobs_below n w') by (intros p a g o1; rewrite Hj; apply Hb).
  split_and!.
  - apply drain_settled.
    + rewrite Hpr. by apply list_lookup_insert_eq.
    + unfold run_outcome. by destruct (truthy _).
  - rewrite drain_api, Hrq. apply lookup_delete_eq.
  - exists (with_apiCalls (λ c, delete key c) o). split.
    + apply drain_pointers. rewrite Hpt. by apply list_lookup_insert_eq.
    + simpl. apply lookup_delete_eq.
  - intros this' key' d' Hk Hd Hn (o' & Hr' & Ho' & Hc' & Hp').
    apply (call_pending_drain n); [done..|].
    destruct (decide (this' = this)) as [->|Hne].
    + assert (o' = o) as -> by congruence.
      exists (with_apiCalls (λ c, delete key c) o). split_and!.
      * rewrite Hrq. by rewrite lookup_delete_ne.
      * rewrite Hpt. by apply list_lookup_insert_eq.
      * simpl. by rewrite lookup_delete_ne.
      * rewrite Hpr. by rewrite list_lookup_insert_ne.
    + exists o'. split_and!.
      * rewrite Hrq. by rewrite lookup_delete_ne.
      * rewrite Hpt. by rewrite list_lookup_insert_ne.
      * done.
      * rewrite Hpr. by rewrite list_lookup_insert_ne.
Qed.

Lemma run_creates_call n this o functionName params w :
  jobs_below n w → (n ≤ length (promises w))%nat →
  pointers w !! this = Some o →
  runRequest o = VFunc ApiRunRequestArrow →
  post_throws env (valuApplication (api w))
    (envelope "api:run"
       (run_message (guid o) (nextId_at env (ids w)) functionName params)) = None →
  ∃ ep window o1,
    (call env (run env this functionName params) w).1 = Normal (length (promises w))
    ∧ valuApplication (api w) = Some ep ∧ source ep = Some window
    ∧ outbox (call env (run env this functionName params) w).2
      = outbox w ++ [(window,
                      envelope "api:run"
                        (run_message (guid o) (nextId_at env (ids w))
                           functionName params),
                      origin ep)]
    ∧ call_pending (call env (run env this functionName params) w).2 this
        (to_key (nextId_at env (ids w)))
        {| id := nextId_at env (ids w); promise := length (promises w) |}
    ∧ jobs_below n (call env (run env this functionName params) w).2
    ∧ length (promises (call env (run env this functionName params) w).2)
      = S (length (promises w))
    ∧ ids (call env (run env this functionName params) w).2 = S (ids w)
    ∧ valuApplication (api (call env (run env this functionName params) w).2)
      = valuApplication (api w)
    ∧ pointers (call env (run env this functionName params) w).2 !! this = Some o1
    ∧ runRequest o1 = runRequest o ∧ guid o1 = guid o
    ∧ ∀ this' key' d',
        key' ≠ to_key (nextId_at env (ids w)) →
        (n ≤ promise d')%nat →
        call_pending w this' key' d' →
        call_pending (call env (run env this functionName params) w).2 this' key' d'.
Proof.
  intros Hb Hn Ho Hr Hpost.
  destruct (run_posted this o functionName params w Ho Hr Hpost)
    as (w1 & ep & window & Hrun & Hep & Hw & Hpr & Hj & Hi & Hva & Hrq & Hpt & Hout).
  assert (Hlt : (this < length (pointers w))%nat) by by eapply lookup_lt_Some.
  assert (Hb1 : jobs_below n w1) by (intros p a g o'; rewrite Hj; apply Hb).
  set (key := to_key (nextId_at env (ids w))) in *.
  set (d := {| id := nextId_at env (ids w); promise := length (promises w) |}) in *.
  exists ep, window, (with_apiCalls (λ c, <[key := d]> c) o).
  unfold call. rewrite Hrun. simpl. split_and!; try done.
  - by rewrite drain_outbox.
  - apply (call_pending_drain n); [done..|].
    exists (with_apiCalls (λ c, <[key := d]> c) o). split_and!.
    + rewrite Hrq. apply lookup_insert_eq.
    + rewrite Hpt. by apply list_lookup_insert_eq.
    + simpl. apply lookup_insert_eq.
    + rewrite Hpr. simpl. by apply list_lookup_middle.
  - by apply jobs_below_drain.
  - pose proof (run_jobs_frame (jobs w1) (with_jobs (λ _, []) w1)) as (Hl & _).
    unfold drain. destruct (run_jobs env (jobs w1) _) as [[k|e] w2]; simpl in *;
      rewrite Hl, Hpr, length_app; simpl; lia.
  - by rewrite (drain_keeps ids) by done.
  - by rewrite drain_api.
  - apply drain_pointers. rewrite Hpt. by apply list_lookup_insert_eq.
  - intros this' key' d' Hk Hd (o' & Hr' & Ho' & Hc' & Hp').
    apply (call_pending_drain n); [done..|].
    destruct (decide (this' = this)) as [->|Hne].
    + assert (o' = o) as -> by congruence.
      exists (with_apiCalls (λ c, <[key := d]> c) o). split_and!.
      * rewrite Hrq. by rewrite lookup_insert_ne.
      * rewrite Hpt. by apply list_lookup_insert_eq.
      * simpl. by rewrite lookup_insert_ne.
      * rewrite Hpr. rewrite lookup_app_l; [done|]. by eapply lookup_lt_Some.
    + exists o'. split_and!.
      * rewrite Hrq. by rewrite lookup_insert_ne.
      * rewrite Hpt. by rewrite list_lookup_insert_ne.
      * done.
      * rewrite Hpr. rewrite lookup_app_l; [done|]. by eapply lookup_lt_Some.
Qed.

(** X18. The round trip of a function call, for a pointer built by the
    constructor as it is declared, [new APIPointer(apiName, version, f)]
    with [f] the function of the client. [run] on a pointer whose
    [#runRequest] is that function posts one api:run request
    that carries the guid of the pointer, a fresh request identifier, the
    function name and the parameters, and hands back a pending promise.
    The reply with that identifier settles it: rejected with the [error]
    of the reply when that is truthy, fulfilled with the reply otherwise
    (also when the reply is [undefined]); the identifier is then freed in
    the table of the client and in that of the pointer. *)
Theorem run_round_trip (w : World) (this : nat) (o : APIPointer)
    (functionName params : value) (ev : MessageEvent) :
  jobs_wf w →
  pointers w !! this = Some o →
  runRequest o = VFunc ApiRunRequestArrow →
  post_throws env (valuApplication (api w))
    (envelope "api:run"
       (run_message (guid o) (nextId_at env (ids w)) functionName params)) = None →
  inbound "api:run-completed" ev = true →
  requestId_of ev = nextId_at env (ids w) →
  ∃ p ep window,
    (call env (run env this functionName params) w).1 = Normal p
    ∧ valuApplication (api w) = Some ep ∧ source ep = Some window
    ∧ outbox (call env (run env this functionName params) w).2
      = outbox w ++ [(window,
                      envelope "api:run"
                        (run_message (guid o) (nextId_at env (ids w))
                           functionName params),
                      origin ep)]
    ∧ promises (call env (run env this functionName params) w).2 !! p = Some Pending
    ∧ promises (deliver env ev (call env (run env this functionName params) w).2) !! p
      = Some (run_outcome (message_of ev))
    ∧ requests (api (deliver env ev (call env (run env this functionName params) w).2))
        !! to_key (requestId_of ev) = None
    ∧ ∃ o',
        pointers (deliver env ev (call env (run env this functionName params) w).2)
          !! this = Some o'
        ∧ apiCalls o' !! to_key (requestId_of ev) = None.
Proof.
  intros Hwf Ho Hr Hpost Hin Hid.
  destruct (run_creates_call (length (promises w)) this o functionName params w
              Hwf (le_n _) Ho Hr Hpost)
    as (ep & window & o1 & Hres & Hep & Hw & Hout & Hcall & Hb & _).
  exists (length (promises w)), ep, window.
  destruct (run_reply_settles _ _ _ _ _ ev Hcall Hb Hin (f_equal to_key Hid))
    as (Hp & Hrq & Hpt & _).
  rewrite Hid. split_and!; try done.
  by destruct Hcall as (o' & _ & _ & _ & Hpend).
Qed.

(** X19. Replies may come in any order. Two calls are made on a pointer
    before any reply, with request identifiers that give different keys;
    the reply to the second comes first, then the reply to the first. Each
    promise is settled with the outcome of its own reply. *)
Theorem replies_out_of_order_settle_their_own_call (w : World) (this : nat)
    (o : APIPointer) (f1 ps1 f2 ps2 : value) (ev1 ev2 : MessageEvent) :
  jobs_wf w →
  pointers w !! this = Some o →
  runRequest o = VFunc ApiRunRequestArrow →
  to_key (nextId_at env (ids w)) ≠ to_key (nextId_at env (S (ids w))) →
  post_throws env (valuApplication (api w))
    (envelope "api:run"
       (run_message (guid o) (nextId_at env (ids w)) f1 ps1)) = None →
  post_throws env (valuApplication (api w))
    (envelope "api:run"
       (run_message (guid o) (nextId_at env (S (ids w))) f2 ps2)) = None →
  inbound "api:run-completed" ev1 = true →
  requestId_of ev1 = nextId_at env (ids w) →
  inbound "api:run-completed" ev2 = true →
  requestId_of ev2 = nextId_at env (S (ids w)) →
  ∃ p1 p2,
    (call env (run env this f1 ps1) w).1 = Normal p1
    ∧ (call env (run env this f2 ps2) (call env (run env this f1 ps1) w).2).1
      = Normal p2
    ∧ p1 ≠ p2
    ∧ promises
        (deliver env ev1
           (deliver env ev2
              (call env (run env this f2 ps2) (call env (run env this f1 ps1) w).2).2))
        !! p1 = Some (run_outcome (message_of ev1))
    ∧ promises
        (deliver env ev1
           (deliver env ev2
              (call env (run env this f2 ps2) (call env (run env this f1 ps1) w).2).2))
        !! p2 = Some (run_outcome (message_of ev2)).
Proof.
  intros Hwf Ho Hr Hkeys Hpost1 Hpost2 Hin1 Hid1 Hin2 Hid2.
  set (n := length (promises w)).
  destruct (run_creates_call n this o f1 ps1 w Hwf (le_n _) Ho Hr Hpost1)
    as (ep & window & o1 & Hres1 & _ & _ & _ & Hcall1 & Hb1 & Hlen1 & Hids1 & Hva1
        & Ho1 & Hr1 & Hg1 & _).
  set (w1 := (call env (run env this f1 ps1) w).2) in *.
  rewrite <- Hva1, <- Hg1, <- Hids1 in Hpost2.
  rewrite <- Hids1 in Hkeys, Hid2.
  destruct (run_creates_call n this o1 f2 ps2 w1 Hb1 ltac:(lia) Ho1
              ltac:(congruence) Hpost2)
    as (ep2 & window2 & o2 & Hres2 & _ & _ & _ & Hcall2 & Hb2 & _ & _ & _ & _ & _ & _
        & Hkeep2).
  set (w2 := (call env (run env this f2 ps2) w1).2) in *.
  assert (Hcall1' : call_pending w2 this (to_key (nextId_at env (ids w)))
                      {| id := nextId_at env (ids w); promise := n |}).
  { apply Hkeep2; [done|simpl; lia|done]. }
  destruct (run_reply_settles n w2 this _ _ ev2 Hcall2 Hb2 Hin2 (f_equal to_key Hid2))
    as (Hp2 & _ & _ & Hkeep3).
  simpl in Hp2.
  assert (Hcall1'' : call_pending (deliver env ev2 w2) this
                       (to_key (nextId_at env (ids w)))
                       {| id := nextId_at env (ids w); promise := n |}).
  { apply Hkeep3; [done|simpl; lia|simpl; lia|done]. }
  destruct (run_reply_settles n _ this _ _ ev1 Hcall1''
              (jobs_below_deliver n ev2 w2 Hb2) Hin1 (f_equal to_key Hid1))
    as (Hp1 & _).
  simpl in Hp1.
  exists n, (length (promises w1)). split_and!; [done|done|lia|done|].
  apply deliver_settled; [done|]. unfold run_outcome. by destruct (truthy _).
Qed.

(** X20. [run] never throws for a failed post and never rejects for it:
    the request is sent from an [async] function whose promise nobody
    keeps. When the post throws, [run] still hands back a promise, which
    stays pending with both tables holding the call, and what was thrown
    surfaces as an unhandled rejection only. *)
Theorem run_with_failed_post_stays_pending (w : World) (this : nat)
    (o : APIPointer) (functionName params : value) (e : thrown) :
  pointers w !! this = Some o →
  runRequest o = VFunc ApiRunRequestArrow →
  post_throws env (valuApplication (api w))
    (envelope "api:run"
       (run_message (guid o) (nextId_at env (ids w)) functionName params)) = Some e →
  (run env this functionName params w).1 = Normal (length (promises w))
  ∧ promises (run env this functionName params w).2 = promises w ++ [Pending]
  ∧ requests (api (run env this functionName params w).2)
      !! to_key (nextId_at env (ids w)) = Some (PPointer this)
  ∧ outbox (run env this functionName params w).2 = outbox w
  ∧ trace (run env this functionName params w).2
    = trace w ++ [UnhandledRejection e].
Proof.
  intros Ho Hr Hpost.
  assert (Hlt : (this < length (pointers w))%nat) by by eapply lookup_lt_Some.
  unfold run, createDeferred, new_promise, nextId, update_pointer. run_js.
  rewrite Ho. simpl. rewrite list_lookup_insert_eq by done. simpl. rewrite Hr.
  unfold call_runRequest, onApiRunRequest, async_dropped, set_request. run_js.
  rewrite Ho, list_lookup_insert_eq by done. simpl.
  rewrite (postToValuApp_throws "api:run" _ _ e) by done. run_js.
  split_and!; try done. apply lookup_insert_eq.
Qed.

(** *** Further properties: requests that fail, requests that go out *)

(** The continuation of [getApi] on a reply with a truthy [error]. *)
Lemma run_job_error p a g o m w :
  promises w !! p = Some (Fulfilled (Value m)) →
  nullish m = false →
  truthy (get_opt m "error") = true →
  promises w !! o = Some Pending →
  ∃ w',
    run_job env (AwaitRegister p a g o) w = (Normal [], w')
    ∧ promises w' !! o = Some (Rejected (JsError (get_opt m "error")))
    ∧ pointers w' = pointers w.
Proof.
  intros Hp Hm Herr Ho. unfold_jobs. run_js. rewrite Hp. run_js.
  rewrite !get_not_nullish by done. run_js. rewrite Herr. run_js.
  eexists. split; [done|]. simpl. rewrite Ho. split; [|done].
  apply list_lookup_insert_eq. by eapply lookup_lt_Some.
Qed.

(** The continuation of [getApi] on a reply without a payload. *)
Lemma run_job_nullish p a g o m w :
  promises w !! p = Some (Fulfilled (Value m)) →
  nullish m = true →
  promises w !! o = Some Pending →
  ∃ w',
    run_job env (AwaitRegister p a g o) w = (Normal [], w')
    ∧ promises w' !! o
      = Some (Rejected (TypeError "Cannot read properties of undefined or null: error"))
    ∧ pointers w' = pointers w.
Proof.
  intros Hp Hm Ho. unfold_jobs. run_js. rewrite Hp. run_js.
  destruct m; try done; run_js; (eexists; split; [done|]); simpl; rewrite Ho;
    (split; [|done]); apply list_lookup_insert_eq; by eapply lookup_lt_Some.
Qed.

(** The continuation of [getApi] on a registration that was rejected. *)
Lemma run_job_rejected p a g o e w :
  promises w !! p = Some (Rejected e) →
  promises w !! o = Some Pending →
  ∃ w',
    run_job env (AwaitRegister p a g o) w = (Normal [], w')
    ∧ promises w' !! o = Some (Rejected e)
    ∧ api w' = api w ∧ outbox w' = outbox w.
Proof.
  intros Hp Ho. unfold_jobs. run_js. rewrite Hp. run_js.
  eexists. split; [done|]. simpl. rewrite Ho. split; [|done].
  apply list_lookup_insert_eq. by eapply lookup_lt_Some.
Qed.

(** [getApi] from a connected client, then the reply of the host: the
    state in which the continuation of [getApi] runs. *)
Lemma getApi_awaits_reply (w : World) (apiName version : value) (ev : MessageEvent) :
  jobs_wf w →
  post_throws env (valuApplication (api w))
    (envelope "api:create-pointer"
       (create_pointer_message apiName version (guid4_at env (guids w))
          (nextId_at env (ids w)))) = None →
  inbound "api:pointer-created" ev = true →
  requestId_of ev = nextId_at env (ids w) →
  ∃ w1 wD kept,
    call env (getApi env apiName version) w = (Normal (S (length (promises w))), w1)
    ∧ promises w1 !! S (length (promises w)) = Some Pending
    ∧ promises wD !! length (promises w) = Some (Fulfilled (Value (message_of ev)))
    ∧ promises wD !! S (length (promises w)) = Some Pending
    ∧ deliver env ev w1
      = match (run_job env (AwaitRegister (length (promises w)) apiName
                              (guid4_at env (guids w)) (S (length (promises w))))
                 wD).1 with
        | Normal k =>
            with_jobs (λ later, (kept ++ k) ++ later)
              (run_job env (AwaitRegister (length (promises w)) apiName
                              (guid4_at env (guids w)) (S (length (promises w))))
                 wD).2
        | Abrupt e =>
            with_trace (λ tr, tr ++ [Uncaught e])
              (run_job env (AwaitRegister (length (promises w)) apiName
                              (guid4_at env (guids w)) (S (length (promises w))))
                 wD).2
        end.
Proof.
  intros Hwf Hpost Hin Hid.
  destruct (getApi_posted apiName version w Hpost)
    as (wA & ep & window & Hrun & Hep & Hwin & HprA & HptA & HgA & HjA & HoA & HrA).
  set (len := length (promises w)) in *.
  set (J := AwaitRegister len apiName (guid4_at env (guids w)) (S len)) in *.
  destruct (drain_last wA (jobs w) J HjA) as (k1 & wB & HrunB & Hsub1 & HjB & HdrainA).
  pose proof (run_jobs_frame (jobs w) (with_jobs (λ _, []) wA)) as HfB.
  rewrite HrunB in HfB. destruct HfB as (HlB & HaB & _ & HgB).
  simpl in HlB, HaB, HgB.
  assert (HpB : promises wB !! len = Some Pending).
  { rewrite HaB by (apply jobs_wf_avoids; [done|unfold len; lia]).
    rewrite HprA. by apply (list_lookup_middle _ [Pending]). }
  assert (HoB : promises wB !! S len = Some Pending).
  { rewrite HaB by (apply jobs_wf_avoids; [done|unfold len; lia]).
    rewrite HprA, lookup_app_r by (unfold len; lia).
    by replace (S len - length (promises w)) with 1 by (unfold len; lia). }
  unfold J in HdrainA.
  rewrite (run_job_pending _ _ _ _ _ HpB) in HdrainA. simpl in HdrainA. fold J in HdrainA.
  set (w1 := drain env wA) in *.
  assert (Hpr1 : promises w1 = promises wB) by by rewrite HdrainA.
  assert (Hj1 : jobs w1 = k1 ++ [J]) by by rewrite HdrainA; simpl; rewrite HjB, app_nil_r.
  assert (Hentry : requests (api w1) !! to_key (requestId_of ev)
                   = Some (PDeferred {| id := nextId_at env (ids w); promise := len |})).
  { unfold w1. rewrite drain_api, HrA, Hid. apply lookup_insert_eq. }
  destruct (pointer_created_settles ev w1 _ Hin Hentry)
    as (wC & HrunC & HprC & HptC & HgC & HjC); [by rewrite Hpr1|].
  simpl in HprC.
  assert (HjC' : jobs wC = k1 ++ [J]) by congruence.
  destruct (drain_last wC k1 J HjC') as (k2 & wD & HrunD & Hsub2 & HjD & HdrainC).
  pose proof (run_jobs_frame k1 (with_jobs (λ _, []) wC)) as HfD.
  rewrite HrunD in HfD. destruct HfD as (HlD & HaD & HsD & HgD).
  simpl in HlD, HaD, HsD, HgD.
  assert (HpD : promises wD !! len = Some (Fulfilled (Value (message_of ev)))).
  { apply HsD; [|done]. rewrite HprC. apply list_lookup_insert_eq.
    rewrite Hpr1. by eapply lookup_lt_Some. }
  assert (HoD : promises wD !! S len = Some Pending).
  { rewrite HaD.
    - rewrite HprC, list_lookup_insert_ne by lia. by rewrite Hpr1.
    - intros p a g o Ho. apply Hsub1 in Ho. specialize (Hwf p a g o Ho).
      unfold len. lia. }
  exists w1, wD, k2. unfold call. rewrite Hrun. fold w1.
  unfold deliver. rewrite HrunC. simpl. rewrite HdrainC.
  split_and!; try done. by rewrite Hpr1.
Qed.

(** X21. [getApi] answered by a reply that reports an error: the promise
    of the call, pending until then, is rejected with [new Error] of the
    [error] of the reply. Answered by a reply without a payload
    ([undefined] or [null]), it is rejected with the TypeError of reading
    [result.error]. *)
Theorem getApi_rejects_on_a_failed_registration (w : World)
    (apiName version : value) (ev : MessageEvent) :
  jobs_wf w →
  post_throws env (valuApplication (api w))
    (envelope "api:create-pointer"
       (create_pointer_message apiName version (guid4_at env (guids w))
          (nextId_at env (ids w)))) = None →
  inbound "api:pointer-created" ev = true →
  requestId_of ev = nextId_at env (ids w) →
  ∃ outer,
    (call env (getApi env apiName version) w).1 = Normal outer
    ∧ promises (call env (getApi env apiName version) w).2 !! outer = Some Pending
    ∧ (nullish (message_of ev) = false →
       truthy (get_opt (message_of ev) "error") = true →
       promises (deliver env ev (call env (getApi env apiName version) w).2) !! outer
       = Some (Rejected (JsError (get_opt (message_of ev) "error"))))
    ∧ (nullish (message_of ev) = true →
       promises (deliver env ev (call env (getApi env apiName version) w).2) !! outer
       = Some (Rejected
                 (TypeError "Cannot read properties of undefined or null: error"))).
Proof.
  intros Hwf Hpost Hin Hid.
  destruct (getApi_awaits_reply w apiName version ev Hwf Hpost Hin Hid)
    as (w1 & wD & kept & Hcall & Hp1 & HpD & HoD & Hdel).
  exists (S (length (promises w))). rewrite Hcall. simpl.
  split_and!; [done|done| |].
  - intros Hm Herr.
    destruct (run_job_error _ apiName (guid4_at env (guids w)) _ _ wD HpD Hm Herr HoD)
      as (w' & Hrun & Ho & _).
    rewrite Hdel, Hrun. done.
  - intros Hm.
    destruct (run_job_nullish _ apiName (guid4_at env (guids w)) _ _ wD HpD Hm HoD)
      as (w' & Hrun & Ho & _).
    rewrite Hdel, Hrun. done.
Qed.

(** X22. [getApi] when the post of its registration throws (before any
    readiness message, for one): the call itself does not throw; the
    promise it hands back is rejected with what the post threw, once the
    pending continuations have run. Nothing was posted, and the table of
    pending requests is as it was. *)
Theorem getApi_rejects_when_the_post_fails (w : World)
    (apiName version : value) (e : thrown) :
  jobs_wf w →
  post_throws env (valuApplication (api w))
    (envelope "api:create-pointer"
       (create_pointer_message apiName version (guid4_at env (guids w))
          (nextId_at env (ids w)))) = Some e →
  ∃ outer,
    (call env (getApi env apiName version) w).1 = Normal outer
    ∧ promises (call env (getApi env apiName version) w).2 !! outer
      = Some (Rejected e)
    ∧ requests (api (call env (getApi env apiName version) w).2) = requests (api w)
    ∧ outbox (call env (getApi env apiName version) w).2 = outbox w.
Proof.
  intros Hwf Hpost.
  set (len := length (promises w)).
  set (J := AwaitRegister (S len) apiName (guid4_at env (guids w)) (S (S len))).
  assert (Hrun : ∃ wA,
    getApi env apiName version w = (Normal (S (S len)), wA)
    ∧ promises wA = promises w ++ [Pending; Rejected e; Pending]
    ∧ jobs wA = jobs w ++ [J]
    ∧ api wA = api w ∧ outbox wA = outbox w).
  { unfold getApi, registerApiPointer, guid4, async, createDeferred, new_promise,
      nextId. run_js.
    rewrite (postToValuApp_throws "api:create-pointer" _ _ e) by done.
    run_js. rewrite !length_app. simpl.
    replace (length (promises w) + 1 + 1) with (S (S len)) by (unfold len; lia).
    replace (length (promises w) + 1) with (S len) by (unfold len; lia).
    eexists. split; [done|]. simpl. split_and!; try done.
    by rewrite <- !app_assoc. }
  destruct Hrun as (wA & Hrun & HprA & HjA & HapiA & HoutA).
  destruct (drain_last wA (jobs w) J HjA) as (k1 & wB & HrunB & Hsub1 & HjB & HdrainA).
  pose proof (run_jobs_frame (jobs w) (with_jobs (λ _, []) wA)) as HfB.
  pose proof (run_jobs_keeps api (jobs w) ltac:(done) ltac:(done) ltac:(done)
                ltac:(done) (with_jobs (λ _, []) wA)) as HapiB.
  pose proof (run_jobs_keeps outbox (jobs w) ltac:(done) ltac:(done) ltac:(done)
                ltac:(done) (with_jobs (λ _, []) wA)) as HoutB.
  rewrite HrunB in HfB, HapiB, HoutB. destruct HfB as (HlB & HaB & HsB & HgB).
  unfold same in HapiB, HoutB. simpl in HlB, HaB, HsB, HgB, HapiB, HoutB.
  assert (HpB : promises wB !! S len = Some (Rejected e)).
  { apply HsB; [|done]. rewrite HprA, lookup_app_r by (unfold len; lia).
    by replace (S len - length (promises w)) with 1 by (unfold len; lia). }
  assert (HoB : promises wB !! S (S len) = Some Pending).
  { rewrite HaB by (apply jobs_wf_avoids; [done|unfold len; lia]).
    rewrite HprA, lookup_app_r by (unfold len; lia).
    by replace (S (S len) - length (promises w)) with 2 by (unfold len; lia). }
  destruct (run_job_rejected _ apiName (guid4_at env (guids w)) _ e wB HpB HoB)
    as (wC & HrunC & HoC & HapiC & HoutC).
  fold J in HrunC. rewrite HrunC in HdrainA. simpl in HdrainA.
  exists (S (S len)). unfold call. rewrite Hrun, HdrainA. simpl.
  split_and!; [done|done|congruence|congruence].
Qed.

(** The shape shared by [sendIntent], [callService] and
    [#registerApiPointer], when the post goes through. *)
Lemma post_first_sent name (msg : value → value) w :
  jobs_wf w →
  post_throws env (valuApplication (api w))
    (envelope name (msg (nextId_at env (ids w)))) = None →
  request_sent env
    (async (deferredPromise ← createDeferred env;
            postToValuApp env name (msg (id deferredPromise));;
            set_request (id deferredPromise) (PDeferred deferredPromise);;
            mret (promise deferredPromise)))
    name (msg (nextId_at env (ids w))) (nextId_at env (ids w)) w.
Proof.
  intros Hwf Hpost. exists (length (promises w)).
  unfold call, async, createDeferred, new_promise, nextId, set_request. run_js.
  edestruct postToValuApp_posts as (ep & window & Hep & Hw & ->); [exact Hpost|].
  run_js. simpl in Hep. exists ep, window.
  split_and!; [done|done|done| | |].
  - by rewrite drain_outbox.
  - rewrite drain_avoided.
    + simpl. by apply list_lookup_middle.
    + simpl. by apply jobs_wf_avoids.
  - by rewrite drain_api.
Qed.

(** X23. [sendIntent] and [callService] from a connected client: each
    posts one message that carries the application id, the action and the
    parameters of the Intent with a fresh request identifier, hands back
    a pending promise and records the waiter under that identifier. The
    two differ in the kind of the message only. *)
Theorem intents_go_out_and_wait (w : World) (intent : Intent) :
  jobs_wf w →
  (post_throws env (valuApplication (api w))
     (envelope "api:run-intent"
        (intent_message intent (nextId_at env (ids w)))) = None →
   request_sent env (sendIntent env intent) "api:run-intent"
     (intent_message intent (nextId_at env (ids w))) (nextId_at env (ids w)) w)
  ∧ (post_throws env (valuApplication (api w))
       (envelope "api:service-intent"
          (intent_message intent (nextId_at env (ids w)))) = None →
     request_sent env (callService env intent) "api:service-intent"
       (intent_message intent (nextId_at env (ids w))) (nextId_at env (ids w)) w).
Proof.
  intros Hwf. split; intros Hpost.
  - by apply (post_first_sent "api:run-intent" (intent_message intent)).
  - by apply (post_first_sent "api:service-intent" (intent_message intent)).
Qed.

(** *** Further properties: the channel to the host *)

#[local] Instance stays_connected_preorder : PreOrder stays_connected.
Proof.
  split; [intros w Hc; exact Hc|].
  intros w1 w2 w3 H1 H2 Hc. apply H2, H1, Hc.
Qed.

Ltac connected_leaf :=
  apply respects_modify; intros ? ?; first [assumption | reflexivity].

Lemma stays_connected_handler ev : respects stays_connected (handleParentMessage ev).
Proof.
  unfold handleParentMessage, on_ready, on_trigger, on_new_intent,
    on_run_console_completed, on_run_completed, on_pointer_created, postRunResult,
    emit, call_onCreate, call_onNewIntent, call_onUpdateRouterContext,
    delete_request, update_pointer, resolve, reject, settle, log.
  walk connected_leaf.
Qed.

Lemma stays_connected_job j : respects stays_connected (run_job env j).
Proof.
  destruct j; unfold run_job, getApi_resume, field_of, new_APIPointer, guid4,
    resolve, reject, settle, log; walk connected_leaf.
Qed.

(** X25. There is no way back from connected: once an endpoint is
    captured, [connected] stays true after every inbound message (a
    further readiness message replaces the endpoint, none removes it)
    and after every operation of the client or of a pointer. *)
Theorem connection_is_never_lost (w : World) :
  connected w = true →
  (∀ ev, connected (deliver env ev w) = true)
  ∧ (∀ apiName requested,
       connected (call env (getApi env apiName requested) w).2 = true)
  ∧ (∀ intent, connected (call env (sendIntent env intent) w).2 = true)
  ∧ (∀ intent, connected (call env (callService env intent) w).2 = true)
  ∧ (∀ command, connected (call env (runConsoleCommand env command) w).2 = true)
  ∧ (∀ path, connected (call env (pushRoute env path) w).2 = true)
  ∧ (∀ path, connected (call env (replaceRoute env path) w).2 = true)
  ∧ (∀ this functionName params,
       connected (call env (run env this functionName params) w).2 = true)
  ∧ (∀ shell, connected (call env (setApplication shell) w).2 = true)
  ∧ (∀ name cb, connected (call env (removeEventListener name cb) w).2 = true).
Proof.
  intros Hc.
  assert (Hjobs : ∀ f w, stays_connected w (with_jobs f w))
    by (intros f w' Hc'; exact Hc').
  assert (Htrace : ∀ e w, stays_connected w (with_trace (λ tr, tr ++ [Uncaught e]) w))
    by (intros e w' Hc'; exact Hc').
  pose proof stays_connected_job as Hjob.
  split_and!.
  - intros ev.
    by apply (deliver_respects stays_connected ev w (stays_connected_handler ev)).
  - intros apiName requested.
    apply (call_respects stays_connected (getApi env apiName requested) w); try done.
    unfold getApi, guid4, registerApiPointer, async, set_request, createDeferred,
      new_promise, nextId, postToValuApp. walk connected_leaf.
  - intros intent. apply (call_respects stays_connected (sendIntent env intent) w); try done.
    unfold sendIntent, async, set_request, createDeferred, new_promise, nextId,
      postToValuApp. walk connected_leaf.
  - intros intent. apply (call_respects stays_connected (callService env intent) w); try done.
    unfold callService, async, set_request, createDeferred, new_promise, nextId,
      postToValuApp. walk connected_leaf.
  - intros command.
    apply (call_respects stays_connected (runConsoleCommand env command) w); try done.
    unfold runConsoleCommand, async, set_request, createDeferred, new_promise, nextId,
      postToValuApp. walk connected_leaf.
  - intros path. apply (call_respects stays_connected (pushRoute env path) w); try done.
    unfold pushRoute, runCommand, postToValuApp. walk connected_leaf.
  - intros path. apply (call_respects stays_connected (replaceRoute env path) w); try done.
    unfold replaceRoute, runCommand, postToValuApp. walk connected_leaf.
  - intros this functionName params.
    apply (call_respects stays_connected (run env this functionName params) w); try done.
    unfold run, update_pointer, call_runRequest, onApiRunRequest, async_dropped,
      set_request, createDeferred, new_promise, nextId, postToValuApp, log.
    walk connected_leaf.
  - intros shell. apply (call_respects stays_connected (setApplication shell) w); try done.
    unfold setApplication, call_onCreate, catch_console_error, log.
    walk connected_leaf.
  - intros name cb.
    apply (call_respects stays_connected (removeEventListener name cb) w); try done.
    unfold removeEventListener. walk connected_leaf.
Qed.

End ClientFacts.

(* ===================================================================== *)
(** ** Concrete runs                                                      *)
(* ===================================================================== *)

(** C3, as stated, fails: after a first readiness message from window 7 a
    second one from window 8 and another origin replaces the endpoint. *)
Lemma second_readiness_replaces_endpoint :
  let w1 := deliver sample ready1 start in
  let w2 := deliver sample ready2 w1 in
  valuApplication (api w1)
    = Some {| ep_id := VStr "app"; source := Some 7; origin := "https://valu.example" |}
  ∧ valuApplication (api w2)
    = Some {| ep_id := VStr "app"; source := Some 8; origin := "https://other.example" |}
  ∧ valuApplication (api w2) ≠ valuApplication (api w1).
Proof. vm_compute. split_and!; [done|done|]. intros [=]. Qed.


Lemma sample_guids_unique i j : guid4_at sample i = guid4_at sample j → i = j.
Proof.
  simpl. intros [= H]. change (pretty i = pretty j) in H.
  by apply (inj pretty) in H.
Qed.

Lemma sample_guids_strings i : ∃ s, guid4_at sample i = VStr s.
Proof. by eexists. Qed.


Lemma new_intent_result_is_dropped_witness :
  inbound "api:new-intent" new_intent0 = true
  ∧ applicationInstance (api bound0) = Some shell0
  ∧ outbox (deliver sample new_intent0 bound0) = outbox bound0.
Proof.
  split; [reflexivity|]. split; [reflexivity|].
  exact (proj2 (new_intent_result_is_dropped sample bound0 new_intent0 shell0
                  eq_refl eq_refl eq_refl)).
Defined.

Lemma endpoint_follows_readiness_messages_witness :
  valuApplication (api (deliver sample ready2 connected0)) = Some (endpoint_of ready2).
Proof. exact (endpoint_follows_readiness_messages sample connected0 ready2). Defined.

Lemma unknown_reply_is_dropped_witness :
  requests (api console0) !! to_key (requestId_of constructor_reply0) = None
  ∧ handleParentMessage constructor_reply0 console0
    = (Abrupt (TypeError "deferred.resolve is not a function"), console0)
  ∧ requests (api console0) !! to_key (requestId_of late_reply0) = None
  ∧ handleParentMessage late_reply0 console0
    = (Normal (),
       with_trace
         (λ tr, tr ++ [ConsoleError "Failed to find Api Pointer for requestId: 42"])
         console0).
Proof.
  split; [reflexivity|]. split.
  - exact (proj1 (unknown_reply_is_dropped console0 constructor_reply0 eq_refl)
             "api:pointer-created" eq_refl eq_refl eq_refl).
  - split; [reflexivity|].
    exact (proj1 (unknown_reply_is_dropped console0 late_reply0 eq_refl)
             "api:run-completed" eq_refl eq_refl eq_refl).
Defined.

Lemma host_assigned_version_wins_witness :
  jobs_wf connected0
  ∧ ∃ outer k o,
      (call sample (getApi sample (VStr "x") (VNum 2)) connected0).1 = Normal outer
      ∧ promises (deliver sample pointer_created0
                    (call sample (getApi sample (VStr "x") (VNum 2)) connected0).2)
          !! outer = Some (Fulfilled (Pointer k))
      ∧ pointers (deliver sample pointer_created0
                    (call sample (getApi sample (VStr "x") (VNum 2)) connected0).2)
          !! k = Some o
      ∧ version o = VNum 3.
Proof.
  assert (Hwf : jobs_wf connected0) by (apply jobs_wf_nil; reflexivity).
  split; [exact Hwf|].
  exact (host_assigned_version_wins sample connected0 (VStr "x") (VNum 2)
           pointer_created0 Hwf eq_refl eq_refl eq_refl eq_refl eq_refl).
Defined.

Lemma console_command_resolves_with_payload_witness :
  jobs_wf connected0
  ∧ ∃ p,
      (call sample (runConsoleCommand sample (VStr "bad")) connected0).1 = Normal p
      ∧ promises (deliver sample console_reply0
                    (call sample (runConsoleCommand sample (VStr "bad")) connected0).2)
          !! p = Some (Fulfilled (Value (VStr "ERROR: unknown command"))).
Proof.
  assert (Hwf : jobs_wf connected0) by (apply jobs_wf_nil; reflexivity).
  split; [exact Hwf|].
  destruct (console_command_resolves_with_payload sample connected0 (VStr "bad")
              console_reply0 Hwf eq_refl eq_refl eq_refl) as (p & Hp & _ & Hr & _).
  exists p. split; [exact Hp|exact Hr].
Defined.

Lemma setApplication_replays_launch_intent_witness :
  readiness ready1 = true
  ∧ (handleParentMessage ready1 start).1 = Normal ()
  ∧ trace (setApplication shell0 (deliver sample ready1 start)).2
    = trace (deliver sample ready1 start)
      ++ [OnCreateCalled 1
            {| applicationId := VStr "app"; action := VStr "view"; params := VObj [] |}].
Proof.
  split; [reflexivity|]. split; [reflexivity|].
  exact (proj1 (proj2 (setApplication_replays_launch_intent sample start ready1 shell0
                         eq_refl eq_refl))).
Defined.

Lemma failed_post_records_no_waiter_witness :
  connected start = false
  ∧ rejected_untouched sample (sendIntent sample intent0) start
      (TypeError "Cannot read properties of undefined: postMessage")
  ∧ rejected_untouched sample (callService sample intent0) start
      (TypeError "Cannot read properties of undefined: postMessage")
  ∧ rejected_untouched sample
      (registerApiPointer sample (VStr "x") VUndefined (VStr "guid-0")) start
      (TypeError "Cannot read properties of undefined: postMessage").
Proof.
  split; [reflexivity|].
  destruct (failed_post_records_no_waiter sample start intent0 (VStr "x") VUndefined
              (VStr "guid-0")) as (H1 & H2 & H3).
  split; [exact (H1 _ eq_refl)|]. split; [exact (H2 _ eq_refl)|exact (H3 _ eq_refl)].
Defined.


Lemma pointer_guid_is_not_the_registered_one_witness :
  jobs_wf connected0
  ∧ ∃ outer w1 k o,
      call sample (getApi sample (VStr "x") (VNum 2)) connected0 = (Normal outer, w1)
      ∧ promises (deliver sample pointer_created0 w1) !! outer
        = Some (Fulfilled (Pointer k))
      ∧ pointers (deliver sample pointer_created0 w1) !! k = Some o
      ∧ guid o ≠ VStr "guid-0".
Proof.
  assert (Hwf : jobs_wf connected0) by (apply jobs_wf_nil; reflexivity).
  split; [exact Hwf|].
  destruct (pointer_guid_is_not_the_registered_one sample connected0 (VStr "x") (VNum 2)
              pointer_created0 sample_guids_unique sample_guids_strings Hwf
              eq_refl eq_refl eq_refl eq_refl eq_refl)
    as (outer & w1 & window & target & k & o & Hc & _ & Hp & Ho & Hg & _).
  exists outer, w1, k, o. split; [exact Hc|]. split; [exact Hp|]. split; [exact Ho|exact Hg].
Defined.

(** Runs of the further properties. *)

Lemma emit_calls_in_registration_order_witness :
  bus0 !! "e" = Some slots0
  ∧ EventEmitter.trace_of (EventEmitter.emit_own "e" [] bus0)
    = [ListenerCalled 2 []; ListenerCalled 3 []].
Proof.
  split; [reflexivity|].
  exact (proj1 (EventEmitterFacts.emit_calls_in_registration_order "e" [] bus0 slots0
                  eq_refl eq_refl)).
Defined.

Lemma emit_returns_last_defined_value_witness :
  EventEmitter.result (EventEmitter.emit "e" [] bus0) = VNum 1.
Proof.
  exact (EventEmitterFacts.emit_returns_last_defined_value "e" [] bus0 slots0
           eq_refl eq_refl).
Defined.

Lemma emit_keeps_persistent_listeners_witness :
  EventEmitter.events_of (EventEmitter.emit_own "e" [] bus0) !! "e"
  = Some [Some (EventEmitter.Listener (Some listener_b) false)].
Proof.
  exact (proj1 (EventEmitterFacts.emit_keeps_persistent_listeners "e" [] bus0 slots0
                  eq_refl eq_refl)).
Defined.

Lemma removeEventListener_removes_every_match_witness :
  EventEmitter.removeEventListener (Some "e") (Some listener_a) bus0
  = (Normal (),
     <["e" := [Some (EventEmitter.Listener (Some listener_b) false)]]> bus0).
Proof.
  exact (EventEmitterFacts.removeEventListener_removes_every_match "e" listener_a bus0
           slots0 ltac:(discriminate) eq_refl eq_refl).
Defined.

Lemma throwing_listener_aborts_the_pass_witness :
  EventEmitter.end_of (EventEmitter.emit_own "e" [] bus1)
    = EventEmitter.Threw (Raised (VStr "boom"))
  ∧ EventEmitter.trace_of (EventEmitter.emit_own "e" [] bus1)
    = [ListenerCalled 2 []; ListenerCalled 4 []].
Proof.
  destruct (EventEmitterFacts.throwing_listener_aborts_the_pass "e" [] bus1
              [Some (EventEmitter.Listener (Some listener_a) true)]
              [Some (EventEmitter.Listener (Some listener_b) false)]
              (EventEmitter.Listener (Some listener_boom) false) listener_boom
              (Raised (VStr "boom")) eq_refl eq_refl eq_refl eq_refl)
    as (Hend & Htrace & _).
  split; [exact Hend|exact Htrace].
Defined.

Lemma emit_wraps_ordinary_events_witness :
  EventEmitter.specialEvent "e" = false
  ∧ EventEmitter.end_of (EventEmitter.emit "e" [] bus2) = EventEmitter.Completed
  ∧ EventEmitter.trace_of (EventEmitter.emit "e" [] bus2)
    = [ListenerCalled 3 [VStr "e"]; ListenerCalled 2 []; ListenerCalled 3 [];
       ListenerCalled 1 [VStr "e"]].
Proof.
  split; [reflexivity|].
  exact (proj1 (EventEmitterFacts.emit_wraps_ordinary_events "e" [] bus2 eq_refl
                  (or_intror eq_refl))
           eq_refl eq_refl eq_refl).
Defined.

Lemma foreign_messages_are_ignored_witness :
  is_string "valuApi" (get_opt (data foreign0) "target") = false
  ∧ handleParentMessage foreign0 connected0 = (Normal (), connected0).
Proof.
  split; [reflexivity|].
  exact (proj1 (foreign_messages_are_ignored connected0 foreign0) eq_refl).
Defined.

Lemma reply_of_the_wrong_kind_throws_witness :
  requests (api console0) !! to_key (requestId_of crossed_reply0)
    = Some (PDeferred {| id := VNum 0; promise := 0 |})
  ∧ handleParentMessage crossed_reply0 console0
    = (Abrupt (TypeError "apiPointer.postRunResult is not a function"), console0).
Proof.
  split; [reflexivity|].
  exact (proj1 (reply_of_the_wrong_kind_throws console0 crossed_reply0)
           {| id := VNum 0; promise := 0 |} eq_refl eq_refl).
Defined.

Lemma routes_are_fire_and_forget_witness :
  ∃ ep window,
    valuApplication (api connected0) = Some ep ∧ source ep = Some window
    ∧ pushRoute sample (VStr "/home") connected0
      = (Normal (),
         with_outbox
           (λ o, o ++ [(window,
                        envelope "api:run-command"
                          (VObj [("command", VStr "pushRoute");
                                 ("data", VStr "/home")]),
                        origin ep)]) connected0).
Proof.
  exact (proj2 (proj1 (routes_are_fire_and_forget sample connected0 (VStr "/home")))
           eq_refl).
Defined.

Lemma failed_console_post_leaves_its_waiter_witness :
  jobs_wf start
  ∧ ∃ p,
      (call sample (runConsoleCommand sample (VStr "help")) start).1 = Normal p
      ∧ promises (call sample (runConsoleCommand sample (VStr "help")) start).2 !! p
        = Some (Rejected (TypeError "Cannot read properties of undefined: postMessage"))
      ∧ requests (api (call sample (runConsoleCommand sample (VStr "help")) start).2)
          !! to_key (VNum 0)
        = Some (PDeferred {| id := VNum 0; promise := 0 |}).
Proof.
  assert (Hwf : jobs_wf start) by (apply jobs_wf_nil; reflexivity).
  split; [exact Hwf|].
  destruct (failed_console_post_leaves_its_waiter sample start (VStr "help") _
              Hwf eq_refl) as (p & Hp & Hr & Hq & _).
  exists p. split; [exact Hp|]. split; [exact Hr|exact Hq].
Defined.

Lemma duplicate_reply_is_dropped_witness :
  promises console0 !! 0 = Some Pending
  ∧ requests (api (deliver sample console_reply0 console0))
      !! to_key (requestId_of console_reply0) = None
  ∧ handleParentMessage console_reply1 (deliver sample console_reply0 console0)
    = (Normal (),
       with_trace
         (λ tr, tr ++ [ConsoleLog "Failed to locate console request with Id: " (VNum 0)])
         (deliver sample console_reply0 console0))
  ∧ promises (deliver sample console_reply1 (deliver sample console_reply0 console0)) !! 0
    = Some (Fulfilled (Value (VStr "ERROR: unknown command"))).
Proof.
  split; [reflexivity|].
  destruct (duplicate_reply_is_dropped sample console0 "api:run-console-completed"
              console_reply0 console_reply1 {| id := VNum 0; promise := 0 |}
              (or_introl eq_refl) eq_refl eq_refl eq_refl eq_refl eq_refl)
    as (Hfree & Hdrop & Hkeep).
  split; [exact Hfree|]. split; [exact (Hdrop eq_refl)|exact Hkeep].
Defined.


Lemma route_trigger_notifies_listeners_then_shell_witness :
  applicationInstance (api bound0) = Some shell0
  ∧ (handleParentMessage route0 bound0).1
    = Abrupt (TypeError "onUpdateRouterContext is not a function").
Proof.
  split; [reflexivity|].
  exact (proj1 (route_trigger_notifies_listeners_then_shell bound0 route0
                  eq_refl eq_refl eq_refl (λ x H, ltac:(discriminate H)))).
Defined.

Lemma pointer_identity_is_stable_witness :
  pointers chat0 !! 0 = Some pointer0
  ∧ ∃ o', pointers (deliver sample run_reply0 chat0) !! 0 = Some o'
          ∧ guid o' = VStr "guid-0".
Proof.
  split; [reflexivity|].
  destruct (proj1 (pointer_identity_is_stable sample chat0 0 pointer0 eq_refl)
              run_reply0) as (o' & Ho & Hg & _).
  exists o'. split; [exact Ho|exact Hg].
Defined.

Lemma pointer_listeners_are_never_called_witness :
  EventEmitter.times_called 1
    (trace (deliver sample ready1
              (pointer_addEventListener 0 "app-open" (Some listener0) false offline0).2))
  = 0.
Proof.
  assert (Hfresh : ¬ EventEmitter.registered (fn_id listener0) (api_events (api offline0))).
  { intros (name & slots & Hl & _). change (api_events (api offline0)) with
      (EventEmitter.new) in Hl. unfold EventEmitter.new in Hl.
    by rewrite lookup_empty in Hl. }
  exact (proj1 (proj2 (pointer_listeners_are_never_called sample offline0 0 "app-open"
                         listener0 false ready1 Hfresh))).
Defined.

Lemma run_round_trip_witness :
  jobs_wf chat0
  ∧ ∃ p,
      (call sample (run sample 0 (VStr "list-rooms") VUndefined) chat0).1 = Normal p
      ∧ promises (call sample (run sample 0 (VStr "list-rooms") VUndefined) chat0).2 !! p
        = Some Pending
      ∧ promises (deliver sample run_reply0
                    (call sample (run sample 0 (VStr "list-rooms") VUndefined) chat0).2)
          !! p
        = Some (Fulfilled (Value (VObj [("rooms", VNum 2)]))).
Proof.
  assert (Hwf : jobs_wf chat0) by (apply jobs_wf_nil; reflexivity).
  split; [exact Hwf|].
  destruct (run_round_trip sample chat0 0 pointer0 (VStr "list-rooms") VUndefined
              run_reply0 Hwf eq_refl eq_refl eq_refl eq_refl eq_refl)
    as (p & ep & window & Hp & _ & _ & _ & Hpend & Hdone & _).
  exists p. split; [exact Hp|]. split; [exact Hpend|exact Hdone].
Defined.

Lemma replies_out_of_order_settle_their_own_call_witness :
  ∃ p1 p2,
    (call sample (run sample 0 (VStr "list-rooms") VUndefined) chat0).1 = Normal p1
    ∧ (call sample (run sample 0 (VStr "join") (VStr "r1"))
         (call sample (run sample 0 (VStr "list-rooms") VUndefined) chat0).2).1
      = Normal p2
    ∧ promises
        (deliver sample run_reply0
           (deliver sample run_reply1
              (call sample (run sample 0 (VStr "join") (VStr "r1"))
                 (call sample (run sample 0 (VStr "list-rooms") VUndefined) chat0).2).2))
        !! p1 = Some (Fulfilled (Value (VObj [("rooms", VNum 2)])))
    ∧ promises
        (deliver sample run_reply0
           (deliver sample run_reply1
              (call sample (run sample 0 (VStr "join") (VStr "r1"))
                 (call sample (run sample 0 (VStr "list-rooms") VUndefined) chat0).2).2))
        !! p2 = Some (Rejected (Raised (VStr "denied"))).
Proof.
  assert (Hwf : jobs_wf chat0) by (apply jobs_wf_nil; reflexivity).
  destruct (replies_out_of_order_settle_their_own_call sample chat0 0 pointer0
              (VStr "list-rooms") VUndefined (VStr "join") (VStr "r1")
              run_reply0 run_reply1 Hwf eq_refl eq_refl ltac:(discriminate)
              eq_refl eq_refl eq_refl eq_refl eq_refl eq_refl)
    as (p1 & p2 & H1 & H2 & _ & Hr1 & Hr2).
  exists p1, p2. split; [exact H1|]. split; [exact H2|]. split; [exact Hr1|exact Hr2].
Defined.

Lemma run_with_failed_post_stays_pending_witness :
  connected offline0 = false
  ∧ (run sample 0 (VStr "list-rooms") VUndefined offline0).1 = Normal 0
  ∧ promises (run sample 0 (VStr "list-rooms") VUndefined offline0).2 = [Pending]
  ∧ trace (run sample 0 (VStr "list-rooms") VUndefined offline0).2
    = [UnhandledRejection
         (TypeError "Cannot read properties of undefined: postMessage")].
Proof.
  split; [reflexivity|].
  destruct (run_with_failed_post_stays_pending sample offline0 0 pointer0
              (VStr "list-rooms") VUndefined _ eq_refl eq_refl eq_refl)
    as (Hp & Hpr & _ & _ & Ht).
  split; [exact Hp|]. split; [exact Hpr|exact Ht].
Defined.

Lemma getApi_rejects_on_a_failed_registration_witness :
  jobs_wf connected0
  ∧ ∃ outer,
      (call sample (getApi sample (VStr "x") (VNum 2)) connected0).1 = Normal outer
      ∧ promises (deliver sample pointer_error0
                    (call sample (getApi sample (VStr "x") (VNum 2)) connected0).2)
          !! outer
        = Some (Rejected (JsError (VStr "unknown api"))).
Proof.
  assert (Hwf : jobs_wf connected0) by (apply jobs_wf_nil; reflexivity).
  split; [exact Hwf|].
  destruct (getApi_rejects_on_a_failed_registration sample connected0 (VStr "x") (VNum 2)
              pointer_error0 Hwf eq_refl eq_refl eq_refl)
    as (outer & Ho & _ & Herr & _).
  exists outer. split; [exact Ho|exact (Herr eq_refl eq_refl)].
Defined.

Lemma getApi_rejects_when_the_post_fails_witness :
  connected start = false
  ∧ ∃ outer,
      (call sample (getApi sample (VStr "x") VUndefined) start).1 = Normal outer
      ∧ promises (call sample (getApi sample (VStr "x") VUndefined) start).2 !! outer
        = Some (Rejected (TypeError "Cannot read properties of undefined: postMessage")).
Proof.
  split; [reflexivity|].
  assert (Hwf : jobs_wf start) by (apply jobs_wf_nil; reflexivity).
  destruct (getApi_rejects_when_the_post_fails sample start (VStr "x") VUndefined _
              Hwf eq_refl) as (outer & Ho & Hr & _).
  exists outer. split; [exact Ho|exact Hr].
Defined.

Lemma intents_go_out_and_wait_witness :
  jobs_wf connected0
  ∧ request_sent sample (sendIntent sample intent0) "api:run-intent"
      (intent_message intent0 (VNum 0)) (VNum 0) connected0
  ∧ request_sent sample (callService sample intent0) "api:service-intent"
      (intent_message intent0 (VNum 0)) (VNum 0) connected0.
Proof.
  assert (Hwf : jobs_wf connected0) by (apply jobs_wf_nil; reflexivity).
  split; [exact Hwf|].
  destruct (intents_go_out_and_wait sample connected0 intent0 Hwf) as [H1 H2].
  split; [exact (H1 eq_refl)|exact (H2 eq_refl)].
Defined.

Lemma connection_is_never_lost_witness :
  connected connected0 = true
  ∧ connected (deliver sample new_intent0 connected0) = true.
Proof.
  split; [reflexivity|].
  exact (proj1 (connection_is_never_lost sample connected0 eq_refl) new_intent0).
Defined.
